(** * Crossword grid builder and crossword player: model and properties

    A shallow embedding of the two React components of the repository:

    - [GridBuilder] (the authoring tool): [getCharAt], [canPlaceWord],
      [handleCellClick], [handleRemovePlacedWord] and the reconciliation
      effect that seeds the placed-word list;
    - [PlayCrossword] (the player): [initializeGrid], [handleInputChange],
      [handleKeyDown], [moveFocus], [handleCellClick], [handleSubmit] and
      [handleRestart].

    Conventions of the embedding.
    - JavaScript numbers that hold grid coordinates, lengths and counters
      are integers, modelled as [Z].
    - A JavaScript string is a [string]; [s[i]] is [strGet s i], which is
      [None] where JavaScript yields [undefined].
    - An array is a [list]; [a[i]] is [arrayGet a i], [None] standing for
      [undefined].
    - A handler closes over the state of the render it was created in.  It
      is a function from that state to the next one; the [setX] calls it
      makes are the fields it changes.  A handler that throws keeps the
      updates it had queued before the exception.
    - An asynchronous handler is split at its [await]: the part after it
      still reads the state of the render in which the handler was created,
      and its [setX] calls change the state of the moment it runs.
    - An exception is an explicit [Throw] completion. *)

From Stdlib Require Import ZArith String Ascii Bool Lia DecimalString.
From stdpp Require Import base tactics option list strings.

Local Open Scope Z_scope.

(** ** Shared JavaScript vocabulary *)

Inductive Direction : Type := horizontal | vertical.

Global Instance Direction_eq_dec : EqDecision Direction.
Proof. solve_decision. Defined.

(** The errors the modelled code can raise. *)
Inductive exn : Type := TypeError | RangeError.

(** How a piece of code ends: normally with a value, or by throwing. *)
Inductive completion (A : Type) : Type :=
  | Normal (a : A)
  | Throw (e : exn).
Arguments Normal {A} a.
Arguments Throw {A} e.

(** [s.length] *)
Definition strLength (s : string) : Z := Z.of_nat (String.length s).

(** [s[i]] for an integer [i]: the one-character string at index [i], or
    [undefined] ([None]) outside [0 .. s.length - 1]. *)
Definition strGet (s : string) (i : Z) : option ascii :=
  if i <? 0 then None else String.get (Z.to_nat i) s.

(** [a[i]] for an integer [i]. *)
Definition arrayGet {A : Type} (a : list A) (i : Z) : option A :=
  if i <? 0 then None else a !! Z.to_nat i.

(** The cell at offset [i] of a span that starts at [(r, c)]: the source
    writes, at every use,
    [dir === "vertical" ? r + i : r] and [dir === "horizontal" ? c + i : c]. *)
Definition spanRow (dir : Direction) (r i : Z) : Z :=
  match dir with vertical => r + i | horizontal => r end.
Definition spanCol (dir : Direction) (c i : Z) : Z :=
  match dir with horizontal => c + i | vertical => c end.

(** ** GridBuilder *)

Module GridBuilder.

Module GridWord.
Record t : Type := mk {
  word : string;
  clue : string;
  row : Z;
  col : Z;
  direction : Direction;
  number : Z
}.
End GridWord.
Abbreviation GridWord := GridWord.t.

(** [Omit<GridWord, "number">]: a stored position without its number. *)
Module Position.
Record t : Type := mk {
  word : string;
  clue : string;
  row : Z;
  col : Z;
  direction : Direction
}.
End Position.

Module InputWord.
Record t : Type := mk { word : string; clue : string }.
End InputWord.

Record Props : Type := mkProps {
  initialWords : list InputWord.t;
  prePlacedWords : list Position.t
}.

Record State : Type := mkState {
  placedWords : list GridWord;
  availableWords : list string;
  selectedWordStr : option string;
  direction : Direction
}.

Definition GRID_SIZE : Z := 20.

(** [getCharAt]: the first placed word, in list order, whose span covers
    [(r, c)] decides the result. *)
Fixpoint getCharAt (placedWords : list GridWord) (r c : Z) : option ascii :=
  match placedWords with
  | [] => None
  | pw :: rest =>
    match GridWord.direction pw with
    | horizontal =>
      if (r =? GridWord.row pw) && (GridWord.col pw <=? c)
         && (c <? GridWord.col pw + strLength (GridWord.word pw))
      then strGet (GridWord.word pw) (c - GridWord.col pw)
      else getCharAt rest r c
    | vertical =>
      if (c =? GridWord.col pw) && (GridWord.row pw <=? r)
         && (r <? GridWord.row pw + strLength (GridWord.word pw))
      then strGet (GridWord.word pw) (r - GridWord.row pw)
      else getCharAt rest r c
    end
  end.

(** The [for] loop of [canPlaceWord], at index [i] with [todo] iterations
    left.  [existingChar && existingChar !== word[i]]: a character returned
    by [getCharAt] is a one-character string, hence truthy, and [!==] on
    strings is exact (case-sensitive) equality. *)
Fixpoint canPlaceWord_loop (placedWords : list GridWord) (word : string)
    (r c : Z) (dir : Direction) (i : Z) (todo : nat) : bool :=
  match todo with
  | O => true
  | S todo' =>
    let currentRow := spanRow dir r i in
    let currentCol := spanCol dir c i in
    match getCharAt placedWords currentRow currentCol with
    | Some existingChar =>
      if bool_decide (Some existingChar ≠ strGet word i) then false
      else canPlaceWord_loop placedWords word r c dir (i + 1) todo'
    | None => canPlaceWord_loop placedWords word r c dir (i + 1) todo'
    end
  end.

Definition canPlaceWord (placedWords : list GridWord) (word : string)
    (r c : Z) (dir : Direction) : bool :=
  if bool_decide (dir = horizontal) && (c + strLength word >? GRID_SIZE) then false
  else if bool_decide (dir = vertical) && (r + strLength word >? GRID_SIZE) then false
  else canPlaceWord_loop placedWords word r c dir 0 (String.length word).

(** [!selectedWordStr]: [null] and the empty string are both falsy. *)
Definition selectedWord (s : State) : option string :=
  match selectedWordStr s with
  | Some w => if bool_decide (w = EmptyString) then None else Some w
  | None => None
  end.

(** [initialWords.find((w) => w.word === str)] *)
Definition findInput (initialWords : list InputWord.t) (str : string)
    : option InputWord.t :=
  List.find (fun w => bool_decide (InputWord.word w = str)) initialWords.

(** [handleCellClick(r, c)] of the builder.  A rejected placement ([alert])
    and a word missing from [initialWords] leave the state as it is. *)
Definition handleCellClick (p : Props) (s : State) (r c : Z) : State :=
  match selectedWord s with
  | None => s
  | Some str =>
    if negb (canPlaceWord (placedWords s) str r c (direction s)) then s
    else
      match findInput (initialWords p) str with
      | None => s
      | Some fullWordData =>
        let newPlacedWord :=
          GridWord.mk str (InputWord.clue fullWordData) r c (direction s)
            (Z.of_nat (length (placedWords s)) + 1) in
        mkState (placedWords s ++ [newPlacedWord])
                (List.filter (fun w => negb (bool_decide (w = str))) (availableWords s))
                None
                (direction s)
      end
  end.

(** [newPlaced.map((pw, i) => ({ ...pw, number: i + 1 }))] *)
Definition renumber (ws : list GridWord) : list GridWord :=
  imap (fun i pw =>
          GridWord.mk (GridWord.word pw) (GridWord.clue pw) (GridWord.row pw)
            (GridWord.col pw) (GridWord.direction pw) (Z.of_nat i + 1)) ws.

(** [handleRemovePlacedWord(index)].  [placedWords.filter((_, i) => i !== index)]
    is [delete index placedWords].  With [index] out of range [removed] is
    [undefined]: the list is renumbered and set, then [removed.word] throws
    before [setAvailableWords] runs. *)
Definition handleRemovePlacedWord (s : State) (index : nat)
    : completion unit * State :=
  let newPlaced := delete index (placedWords s) in
  let reorderedPlaced := renumber newPlaced in
  match placedWords s !! index with
  | Some removed =>
    (Normal tt,
     mkState reorderedPlaced (availableWords s ++ [GridWord.word removed])
             (selectedWordStr s) (direction s))
  | None =>
    (Throw TypeError,
     mkState reorderedPlaced (availableWords s) (selectedWordStr s) (direction s))
  end.

(** The reconciliation effect run on mount and whenever the props change:
    positions stored earlier are kept for the words still present in
    [initialWords], numbered in order; the other words become available. *)
Definition reconcileStep (initialWords : list InputWord.t)
    (acc : list GridWord * list string) (pw : Position.t)
    : list GridWord * list string :=
  let '(validPlacedWords, placedWordStrings) := acc in
  match findInput initialWords (Position.word pw) with
  | Some matchingInput =>
    (validPlacedWords ++
       [GridWord.mk (Position.word pw) (InputWord.clue matchingInput)
          (Position.row pw) (Position.col pw) (Position.direction pw)
          (Z.of_nat (length validPlacedWords) + 1)],
     Position.word pw :: placedWordStrings)
  | None => acc
  end.

Definition reconcile (p : Props) (s : State) : State :=
  let '(validPlacedWords, placedWordStrings) :=
    fold_left (reconcileStep (initialWords p)) (prePlacedWords p) ([], []) in
  let remainingWords :=
    List.filter (fun w => negb (bool_decide (w ∈ placedWordStrings)))
      (InputWord.word <$> initialWords p) in
  mkState validPlacedWords remainingWords (selectedWordStr s) (direction s).

(** The builder's other two state changes: picking an available word and
    the direction toggle button. *)
Definition selectWord (s : State) (w : string) : State :=
  mkState (placedWords s) (availableWords s) (Some w) (direction s).

Definition toggleDirection (s : State) : State :=
  mkState (placedWords s) (availableWords s) (selectedWordStr s)
    (match direction s with horizontal => vertical | vertical => horizontal end).

Definition initialState : State := mkState [] [] None horizontal.

(** *** Vocabulary for the statements about the builder *)

(** [covers pw r c k]: [(r, c)] is the cell at offset [k] of the span of
    [pw], the [word.length] consecutive cells from its origin along its
    direction. *)
Definition covers (pw : GridWord) (r c k : Z) : Prop :=
  0 ≤ k < strLength (GridWord.word pw)
  ∧ r = spanRow (GridWord.direction pw) (GridWord.row pw) k
  ∧ c = spanCol (GridWord.direction pw) (GridWord.col pw) k.

(** The two bounds tests at the head of [canPlaceWord]. *)
Definition boundsFail (word : string) (r c : Z) (dir : Direction) : Prop :=
  (dir = horizontal ∧ c + strLength word > GRID_SIZE)
  ∨ (dir = vertical ∧ r + strLength word > GRID_SIZE).

(** Lists of placed words built by the builder's own handlers from the
    empty grid: every word was accepted by [canPlaceWord] against the words
    placed before it; removal renumbers the rest. *)
Inductive placedWithoutConflict : list GridWord → Prop :=
  | pwc_empty : placedWithoutConflict []
  | pwc_place ws w cl r c dir n :
      placedWithoutConflict ws →
      canPlaceWord ws w r c dir = true →
      placedWithoutConflict (ws ++ [GridWord.mk w cl r c dir n])
  | pwc_remove ws index :
      placedWithoutConflict ws →
      placedWithoutConflict (renumber (delete index ws)).

(** States the component can be in: the initial [useState] values, then any
    sequence of reconciliations (with whatever props the parent passes) and
    user actions. *)
Inductive reachable : State → Prop :=
  | reach_initial : reachable initialState
  | reach_reconcile p s : reachable s → reachable (reconcile p s)
  | reach_click p s r c : reachable s → reachable (handleCellClick p s r c)
  | reach_remove s index :
      reachable s → reachable (snd (handleRemovePlacedWord s index))
  | reach_select s w : reachable s → reachable (selectWord s w)
  | reach_toggle s : reachable s → reachable (toggleDirection s).

(** The numbers carried by a placed-word list, in list order. *)
Definition numbers (ws : list GridWord) : list Z := GridWord.number <$> ws.

(** The numbers are the dense sequence 1..N, N the number of placed words. *)
Definition dense (ws : list GridWord) : Prop :=
  numbers ws = seqZ 1 (Z.of_nat (length ws)).

(** A placed word without its number. *)
Definition position (pw : GridWord) : Position.t :=
  Position.mk (GridWord.word pw) (GridWord.clue pw) (GridWord.row pw)
    (GridWord.col pw) (GridWord.direction pw).

(** Following the spec's words: upper-casing of the letters a-z, and
    case-insensitive letter equality. *)
Definition spec_upper (a : ascii) : ascii :=
  let n := nat_of_ascii a in
  if ((97 <=? n) && (n <=? 122))%nat then ascii_of_nat (n - 32) else a.

Definition spec_sameLetter (a b : ascii) : Prop := spec_upper a = spec_upper b.

(** Following the spec's words: some offset [i] of the candidate's span is
    covered by a placed word whose character at that cell differs
    case-insensitively from [word[i]]. *)
Definition spec_caseInsensitiveConflict (placedWords : list GridWord)
    (word : string) (r c : Z) (dir : Direction) : Prop :=
  ∃ i pw k a b,
    0 ≤ i < strLength word
    ∧ pw ∈ placedWords
    ∧ covers pw (spanRow dir r i) (spanCol dir c i) k
    ∧ strGet (GridWord.word pw) k = Some a
    ∧ strGet word i = Some b
    ∧ ¬ spec_sameLetter a b.

(** *** Saving *)

(** [handleFinish]: what is handed to [onSave], if anything.  [confirmed] is
    the answer to the [confirm] dialog, which is shown only while some word
    is still unplaced. *)
Definition handleFinish (confirmed : bool) (s : State)
    : option (list GridWord * Z * Z) :=
  if (0 <? Z.of_nat (length (availableWords s))) && negb confirmed then None
  else Some (placedWords s, GRID_SIZE, GRID_SIZE).

(** The position kept for a pre-placed word: its clue is refreshed from the
    input word of the same text, if there is one. *)
Definition keptPosition (initialWords : list InputWord.t) (pw : Position.t)
    : option Position.t :=
  (fun matchingInput =>
     Position.mk (Position.word pw) (InputWord.clue matchingInput)
       (Position.row pw) (Position.col pw) (Position.direction pw))
  <$> findInput initialWords (Position.word pw).

(** *** renderGrid *)

(** [displayGrid], the letters [renderGrid] computes before it maps them to
    markup.  A cell holds the empty string it was filled with or the
    character written last; [None] stands for the empty string (and for
    [undefined]), which render alike as an empty cell.  A JavaScript array
    can have holes; the outer [option] is [None] at a hole. *)
Abbreviation DisplayGrid := (list (list (option (option ascii)))).

(** [a[c] = v] for an integer [c]: inside the array the element is
    replaced, past its end the array grows (leaving holes), and a negative
    [c] names a property, not an element. *)
Definition arraySet {A : Type} (a : list (option A)) (c : Z) (v : A)
    : list (option A) :=
  if c <? 0 then a
  else if (Z.to_nat c <? length a)%nat then <[Z.to_nat c := Some v]> a
  else a ++ replicate (Z.to_nat c - length a) None ++ [Some v].

(** The [for] loop over the characters of one placed word:
    [displayGrid[r][c] = pw.word[i]], which throws when row [r] does not
    exist.  The rows are distinct arrays, written in place. *)
Fixpoint renderGrid_loop (pw : GridWord) (i : Z) (todo : nat)
    (displayGrid : DisplayGrid) : completion DisplayGrid :=
  match todo with
  | O => Normal displayGrid
  | S todo' =>
    let r := spanRow (GridWord.direction pw) (GridWord.row pw) i in
    let c := spanCol (GridWord.direction pw) (GridWord.col pw) i in
    match arrayGet displayGrid r with
    | None => Throw TypeError
    | Some rowArr =>
      renderGrid_loop pw (i + 1) todo'
        (<[Z.to_nat r := arraySet rowArr c (strGet (GridWord.word pw) i)]> displayGrid)
    end
  end.

(** [placedWords.forEach(...)] *)
Fixpoint renderGrid_words (ws : list GridWord) (displayGrid : DisplayGrid)
    : completion DisplayGrid :=
  match ws with
  | [] => Normal displayGrid
  | pw :: rest =>
    match renderGrid_loop pw 0 (String.length (GridWord.word pw)) displayGrid with
    | Normal d => renderGrid_words rest d
    | Throw e => Throw e
    end
  end.

(** The data part of [renderGrid]. *)
Definition renderGrid (placedWords : list GridWord) : completion DisplayGrid :=
  renderGrid_words placedWords
    (replicate (Z.to_nat GRID_SIZE) (replicate (Z.to_nat GRID_SIZE) (Some None))).

(** The element of [displayGrid] at [(r, c)], if there is one. *)
Definition displayAt (d : DisplayGrid) (r c : Z) : option (option ascii) :=
  match arrayGet d r with
  | Some rowArr =>
    match arrayGet rowArr c with
    | Some (Some v) => Some v
    | _ => None
    end
  | None => None
  end.

(** Every cell of every span lies on the grid. *)
Definition spansOnGrid (ws : list GridWord) : Prop :=
  ∀ pw r c k, pw ∈ ws → covers pw r c k →
    0 ≤ r < GRID_SIZE ∧ 0 ≤ c < GRID_SIZE.

(** [displayGrid] has its 20 rows of 20 elements, none a hole. *)
Definition displayShaped (d : DisplayGrid) : Prop :=
  length d = Z.to_nat GRID_SIZE
  ∧ ∀ i rowArr, d !! i = Some rowArr →
      length rowArr = Z.to_nat GRID_SIZE ∧ ∀ j x, rowArr !! j = Some x → is_Some x.

(** Lists built from the empty grid by clicks on cells of the grid (and
    removals), as the builder's own grid produces them. *)
Inductive placedOnGrid : list GridWord → Prop :=
  | pog_empty : placedOnGrid []
  | pog_place ws w cl r c dir n :
      placedOnGrid ws →
      0 ≤ r < GRID_SIZE → 0 ≤ c < GRID_SIZE →
      canPlaceWord ws w r c dir = true →
      placedOnGrid (ws ++ [GridWord.mk w cl r c dir n])
  | pog_remove ws index :
      placedOnGrid ws →
      placedOnGrid (renumber (delete index ws)).


(** The cells the author can click.  [renderGrid] maps [displayGrid] to
    markup with
    [displayGrid.map((row, rIdx) => row.map((cellChar, cIdx) => ...))],
    giving every element of every row its own
    [onClick={() => handleCellClick(rIdx, cIdx)}]; [map] skips holes.  So
    [handleCellClick], and through it [canPlaceWord], is called with the
    indices of the elements of [displayGrid] and with nothing else. *)
Definition clickable (placedWords : list GridWord) (rIdx cIdx : Z) : Prop :=
  ∃ displayGrid,
    renderGrid placedWords = Normal displayGrid
    ∧ is_Some (displayAt displayGrid rIdx cIdx).

(** *** A stored position that spills over the right edge

    The parent passes the stored position of AB, at column 19 of row 0;
    the author then picks BA and switches to vertical. *)
Definition spillProps : Props :=
  mkProps [InputWord.mk "AB" "first"; InputWord.mk "BA" "second"]
    [Position.mk "AB" "first" 0 19 horizontal].

Definition spillState : State :=
  selectWord (toggleDirection (reconcile spillProps initialState)) "BA".
End GridBuilder.

(** ** PlayCrossword *)

Module PlayCrossword.

Module WordData.
Record t : Type := mk {
  id : string;
  number : Z;
  direction : Direction;
  row_index : Z;
  col_index : Z;
  length : Z;
  clue : string
}.
End WordData.

Module GameData.
Record t : Type := mk {
  id : string;
  name : string;
  rows : Z;
  cols : Z;
  words : list WordData.t
}.
End GameData.

(** [number?] and [isCorrect?] are [None] while absent or [undefined]. *)
Module CellData.
Record t : Type := mk {
  isActive : bool;
  char : string;
  number : option Z;
  wordIds : list string;
  isCorrect : option bool
}.
End CellData.

Module CheckResult.
Record t : Type := mk { word_id : string; is_correct : bool }.
End CheckResult.

Module Answer.
Record t : Type := mk { word_id : string; user_answer : string }.
End Answer.

Abbreviation Grid := (list (list CellData.t)).

(** The component's state.  [focused] is the input element that holds the
    DOM focus as far as [moveFocus] sets it: an active cell always renders
    its input, so [inputRefs.current[r][c]?.focus()] reaches it. *)
Record State : Type := mkState {
  game : option GameData.t;
  grid : Grid;
  loading : bool;
  submitting : bool;
  timer : Z;
  isPaused : bool;
  isFinished : bool;
  selectedCell : option (Z * Z);
  direction : Direction;
  focused : option (Z * Z)
}.

Definition setGrid (g : Grid) (s : State) : State :=
  mkState (game s) g (loading s) (submitting s) (timer s) (isPaused s)
    (isFinished s) (selectedCell s) (direction s) (focused s).
Definition setSubmitting (b : bool) (s : State) : State :=
  mkState (game s) (grid s) (loading s) b (timer s) (isPaused s)
    (isFinished s) (selectedCell s) (direction s) (focused s).
Definition setTimer (t : Z) (s : State) : State :=
  mkState (game s) (grid s) (loading s) (submitting s) t (isPaused s)
    (isFinished s) (selectedCell s) (direction s) (focused s).
Definition setIsPaused (b : bool) (s : State) : State :=
  mkState (game s) (grid s) (loading s) (submitting s) (timer s) b
    (isFinished s) (selectedCell s) (direction s) (focused s).
Definition setIsFinished (b : bool) (s : State) : State :=
  mkState (game s) (grid s) (loading s) (submitting s) (timer s) (isPaused s)
    b (selectedCell s) (direction s) (focused s).
Definition setSelectedCell (rc : option (Z * Z)) (s : State) : State :=
  mkState (game s) (grid s) (loading s) (submitting s) (timer s) (isPaused s)
    (isFinished s) rc (direction s) (focused s).
Definition setDirection (d : Direction) (s : State) : State :=
  mkState (game s) (grid s) (loading s) (submitting s) (timer s) (isPaused s)
    (isFinished s) (selectedCell s) d (focused s).
Definition focus (rc : Z * Z) (s : State) : State :=
  mkState (game s) (grid s) (loading s) (submitting s) (timer s) (isPaused s)
    (isFinished s) (selectedCell s) (direction s) (Some rc).

(** [g[r][c]] where the result is dereferenced at once ([g[r][c].isActive],
    [{ ...g[r][c] }] followed by [[...cell.wordIds]], [g[r][c].char]): a
    missing row and a missing cell both end in a [TypeError]; [None] is
    that case. *)
Definition cellAt (g : Grid) (r c : Z) : option CellData.t :=
  match arrayGet g r with
  | Some rowArr => arrayGet rowArr c
  | None => None
  end.

(** [g[r][c] = cell] for a cell that exists. *)
Definition gridSet (g : Grid) (r c : Z) (cell : CellData.t) : Grid :=
  match arrayGet g r with
  | Some rowArr => <[Z.to_nat r := <[Z.to_nat c := cell]> rowArr]> g
  | None => g
  end.

(** *** initializeGrid *)

(** [Array(n)] throws a [RangeError] unless [0 <= n <= 2^32 - 1]. *)
Definition validArrayLength (n : Z) : bool := (0 <=? n) && (n <=? 4294967295).

Definition blankCell : CellData.t := CellData.mk false EmptyString None [] None.

(** [Array(rows).fill(null).map(() => Array(cols).fill({...}))]: the inner
    [Array(cols)] runs once per row, so not at all when [rows] is 0.  The
    filled object is shared by all cells of a row, but it is never mutated:
    every write below stores a fresh copy with a fresh [wordIds] array, and
    the rows are distinct arrays. *)
Definition blankGrid (rows cols : Z) : completion Grid :=
  if negb (validArrayLength rows) then Throw RangeError
  else if rows =? 0 then Normal []
  else if negb (validArrayLength cols) then Throw RangeError
  else Normal (replicate (Z.to_nat rows) (replicate (Z.to_nat cols) blankCell)).

(** The [for] loop over the offsets of one word, at offset [i] with [todo]
    iterations left. *)
Fixpoint initializeGrid_loop (data : GameData.t) (word : WordData.t)
    (i : Z) (todo : nat) (newGrid : Grid) : completion Grid :=
  match todo with
  | O => Normal newGrid
  | S todo' =>
    let r := spanRow (WordData.direction word) (WordData.row_index word) i in
    let c := spanCol (WordData.direction word) (WordData.col_index word) i in
    if (r <? GameData.rows data) && (c <? GameData.cols data) then
      match cellAt newGrid r c with
      | None => Throw TypeError
      | Some old =>
        let cell :=
          CellData.mk true (CellData.char old)
            (if i =? 0 then Some (WordData.number word) else CellData.number old)
            (CellData.wordIds old ++ [WordData.id word])
            (CellData.isCorrect old) in
        initializeGrid_loop data word (i + 1) todo' (gridSet newGrid r c cell)
      end
    else initializeGrid_loop data word (i + 1) todo' newGrid
  end.

(** [data.words.forEach(...)] *)
Fixpoint initializeGrid_words (data : GameData.t) (ws : list WordData.t)
    (newGrid : Grid) : completion Grid :=
  match ws with
  | [] => Normal newGrid
  | word :: rest =>
    match initializeGrid_loop data word 0 (Z.to_nat (WordData.length word)) newGrid with
    | Normal g => initializeGrid_words data rest g
    | Throw e => Throw e
    end
  end.

(** [initializeGrid(data)]: the grid handed to [setGrid], unless an
    exception escapes first. *)
Definition initializeGrid (data : GameData.t) : completion Grid :=
  match blankGrid (GameData.rows data) (GameData.cols data) with
  | Normal newGrid => initializeGrid_words data (GameData.words data) newGrid
  | Throw e => Throw e
  end.

(** *** moveFocus *)

(** [game?.rows || 0] and [game?.cols || 0] *)
Definition gameRows (s : State) : Z :=
  match game s with Some g => GameData.rows g | None => 0 end.
Definition gameCols (s : State) : Z :=
  match game s with Some g => GameData.cols g | None => 0 end.

(** The [while] loop of [moveFocus].  [cl] is the render state the handler
    closes over (it reads [game] and [grid] there); [st] collects the
    effects.  [fuel] bounds the number of iterations of the loop body:
    [None] means the loop was still running when the fuel ran out. *)
Fixpoint moveFocus_loop (cl : State) (step : Z) (dir : Direction) (fuel : nat)
    (currR currC : Z) (found : bool) (attempts : Z) (st : State)
    : option (completion unit * State) :=
  if negb found && (attempts <? 50) then
    match fuel with
    | O => None
    | S fuel' =>
      let currC := match dir with horizontal => currC + step | vertical => currC end in
      let currR := match dir with horizontal => currR | vertical => currR + step end in
      if (currR <? 0) || (currR >=? gameRows cl)
         || (currC <? 0) || (currC >=? gameCols cl)
      then Some (Normal tt, st)
      else
        match arrayGet (grid cl) currR with
        | None => Some (Throw TypeError, st)
        | Some rowArr =>
          match arrayGet rowArr currC with
          | Some cell =>
            if CellData.isActive cell then
              moveFocus_loop cl step dir fuel' currR currC true (attempts + 1)
                (setSelectedCell (Some (currR, currC)) (focus (currR, currC) st))
            else
              moveFocus_loop cl step dir fuel' currR currC found (attempts + 1) st
          | None =>
            moveFocus_loop cl step dir fuel' currR currC found (attempts + 1) st
          end
        end
    end
  else Some (Normal tt, st).

(** [overrideDir || direction] *)
Definition scanDir (cl : State) (overrideDir : option Direction) : Direction :=
  match overrideDir with Some d => d | None => direction cl end.

(** [moveFocus(r, c, step, overrideDir)].  Fifty iterations always suffice
    (lemma [moveFocus_loop_fuel]), so the last branch is never taken. *)
Definition moveFocus (cl : State) (r c step : Z) (overrideDir : option Direction)
    (st : State) : completion unit * State :=
  let dir := scanDir cl overrideDir in
  match moveFocus_loop cl step dir 50 r c false 0 st with
  | Some res => res
  | None => (Normal tt, st)
  end.

(** *** The input handlers *)

(** [val.slice(-1)] *)
Definition sliceLast (val : string) : string :=
  match String.length val with
  | O => EmptyString
  | S n => String.substring n 1 val
  end.

Definition withChar (cell : CellData.t) (ch : string) : CellData.t :=
  CellData.mk (CellData.isActive cell) ch (CellData.number cell)
    (CellData.wordIds cell) (CellData.isCorrect cell).

(** [toUpperCase] on strings of ASCII letters, to run the handlers on
    examples. *)
Definition upperAscii (s : string) : string :=
  string_of_list_ascii (GridBuilder.spec_upper <$> list_ascii_of_string s).

Section Handlers.

(** [String.prototype.toUpperCase] of the host. *)
Variable toUpperCase : string → string.

Definition handleInputChange (s : State) (r c : Z) (val : string)
    : completion unit * State :=
  match cellAt (grid s) r c with
  | None => (Throw TypeError, s)
  | Some cell =>
    if negb (CellData.isActive cell) || isPaused s || isFinished s then (Normal tt, s)
    else
      let char := toUpperCase (sliceLast val) in
      let newGrid := gridSet (grid s) r c (withChar cell char) in
      let st := setGrid newGrid s in
      if bool_decide (char ≠ EmptyString) then moveFocus s r c 1 None st
      else (Normal tt, st)
  end.

End Handlers.

(** [handleKeyDown(e, r, c)], with [key] for [e.key].  [grid[r][c].char] is
    read only when the key is Backspace. *)
Definition handleKeyDown (s : State) (key : string) (r c : Z)
    : completion unit * State :=
  if isPaused s || isFinished s then (Normal tt, s)
  else if bool_decide (key = "Backspace"%string) then
    match cellAt (grid s) r c with
    | None => (Throw TypeError, s)
    | Some cell =>
      if bool_decide (CellData.char cell = EmptyString)
      then moveFocus s r c (-1) None s
      else (Normal tt, s)
    end
  else if bool_decide (key = "ArrowRight"%string) then
    moveFocus s r c 1 (Some horizontal) (setDirection horizontal s)
  else if bool_decide (key = "ArrowDown"%string) then
    moveFocus s r c 1 (Some vertical) (setDirection vertical s)
  else (Normal tt, s).

Definition handleCellClick (s : State) (r c : Z) : completion unit * State :=
  match cellAt (grid s) r c with
  | None => (Throw TypeError, s)
  | Some cell =>
    if negb (CellData.isActive cell) || isPaused s || isFinished s then (Normal tt, s)
    else
      let st :=
        if bool_decide (selectedCell s = Some (r, c))
        then setDirection
               (match direction s with horizontal => vertical | vertical => horizontal end) s
        else s in
      (Normal tt, setSelectedCell (Some (r, c)) st)
  end.

(** *** handleRestart *)

Definition resetCell (cell : CellData.t) : CellData.t :=
  CellData.mk (CellData.isActive cell) EmptyString (CellData.number cell)
    (CellData.wordIds cell) None.

Definition handleRestart (s : State) : State :=
  let st := setIsFinished false (setIsPaused false (setTimer 0 s)) in
  let resetGrid : Grid :=
    (fun rowArr : list CellData.t => resetCell <$> rowArr) <$> grid s in
  setGrid resetGrid st.

(** *** handleSubmit *)

(** The outcome of the [POST .../check] request: the promise is rejected, or
    it resolves with [res.data.data.results]. *)
Inductive Response : Type :=
  | Rejected
  | Resolved (results : list CheckResult.t).

(** [grid[r][c].char || " "] *)
Definition charOrBlank (cell : CellData.t) : string :=
  if bool_decide (CellData.char cell = EmptyString) then " "%string
  else CellData.char cell.

(** The [for] loop that builds [userAnswer] for one word. *)
Fixpoint userAnswer_loop (g : Grid) (w : WordData.t) (i : Z) (todo : nat)
    (userAnswer : string) : completion string :=
  match todo with
  | O => Normal userAnswer
  | S todo' =>
    let r := spanRow (WordData.direction w) (WordData.row_index w) i in
    let c := spanCol (WordData.direction w) (WordData.col_index w) i in
    match cellAt g r c with
    | None => Throw TypeError
    | Some cell =>
      userAnswer_loop g w (i + 1) todo' (userAnswer +:+ charOrBlank cell)
    end
  end.

(** [game.words.map((w) => ...)] *)
Fixpoint answersPayload (g : Grid) (ws : list WordData.t)
    : completion (list Answer.t) :=
  match ws with
  | [] => Normal []
  | w :: rest =>
    match userAnswer_loop g w 0 (Z.to_nat (WordData.length w)) EmptyString with
    | Throw e => Throw e
    | Normal userAnswer =>
      match answersPayload g rest with
      | Throw e => Throw e
      | Normal answers => Normal (Answer.mk (WordData.id w) userAnswer :: answers)
      end
    end
  end.

(** [results.find((r) => r.word_id === w.id)] *)
Definition findResult (results : list CheckResult.t) (wordId : string)
    : option CheckResult.t :=
  List.find (fun r => bool_decide (CheckResult.word_id r = wordId)) results.

(** [result?.is_correct || false] *)
Definition verdict (results : list CheckResult.t) (w : WordData.t) : bool :=
  match findResult results (WordData.id w) with
  | Some result => CheckResult.is_correct result
  | None => false
  end.

Definition withIsCorrect (cell : CellData.t) (b : bool) : CellData.t :=
  CellData.mk (CellData.isActive cell) (CellData.char cell) (CellData.number cell)
    (CellData.wordIds cell) (Some b).

(** [if (!isCorrect) cell.isCorrect = false;
     else if (cell.isCorrect !== false) cell.isCorrect = true;] *)
Definition mergeCell (isCorrect : bool) (cell : CellData.t) : CellData.t :=
  if negb isCorrect then withIsCorrect cell false
  else if bool_decide (CellData.isCorrect cell ≠ Some false) then withIsCorrect cell true
  else cell.

(** The [for] loop of the merge for one word.  [newGrid = [...grid]] copies
    the outer array only: the rows are those of the state's grid and are
    written in place, so the grid is threaded through and returned even
    when an exception ends the loop.  A missing row throws.  For a missing
    cell in an existing row the source stores a fresh object beyond the
    row's cells, which this rows x cols model does not represent; the grid
    proper is unchanged.  Neither case arises inside [handleSubmit], whose
    answer extraction dereferences the same cells first (lemma
    [merge_words_normal]). *)
Fixpoint merge_loop (w : WordData.t) (isCorrect : bool) (i : Z) (todo : nat)
    (newGrid : Grid) : completion unit * Grid :=
  match todo with
  | O => (Normal tt, newGrid)
  | S todo' =>
    let r := spanRow (WordData.direction w) (WordData.row_index w) i in
    let c := spanCol (WordData.direction w) (WordData.col_index w) i in
    match arrayGet newGrid r with
    | None => (Throw TypeError, newGrid)
    | Some rowArr =>
      match arrayGet rowArr c with
      | Some old =>
        merge_loop w isCorrect (i + 1) todo' (gridSet newGrid r c (mergeCell isCorrect old))
      | None => merge_loop w isCorrect (i + 1) todo' newGrid
      end
    end
  end.

(** [game.words.forEach((w) => ...)] of the merge. *)
Fixpoint merge_words (results : list CheckResult.t) (ws : list WordData.t)
    (newGrid : Grid) : completion unit * Grid :=
  match ws with
  | [] => (Normal tt, newGrid)
  | w :: rest =>
    match merge_loop w (verdict results w) 0 (Z.to_nat (WordData.length w)) newGrid with
    | (Normal _, g) => merge_words results rest g
    | (Throw e, g) => (Throw e, g)
    end
  end.

(** [handleSubmit], run to completion with nothing handled between the
    request and its answer; [check] stands for the backend's answer to the
    posted payload.  Every exception inside the [try] is caught (a toast is
    shown) and [finally] clears [submitting].  The handler is asynchronous:
    the two halves around its [await] follow, for the runs in which
    something else is handled in between. *)
Definition handleSubmit (check : list Answer.t → Response) (s : State) : State :=
  match game s with
  | None => s
  | Some game =>
    match answersPayload (grid s) (GameData.words game) with
    | Throw _ => setSubmitting false s
    | Normal answers =>
      match check answers with
      | Rejected => setSubmitting false s
      | Resolved results =>
        match merge_words results (GameData.words game) (grid s) with
        | (Throw _, mutated) => setSubmitting false (setGrid mutated s)
        | (Normal _, newGrid) =>
          let st := setGrid newGrid s in
          let allCorrect := forallb CheckResult.is_correct results in
          setSubmitting false
            (if allCorrect then setIsFinished true (setIsPaused true st) else st)
        end
      end
    end
  end.

(** The first half of [handleSubmit], up to the [await]: the next state
    and, when the request is sent, the payload posted.  When the answer
    extraction throws, [catch] and [finally] run at once and nothing is
    sent. *)
Definition handleSubmit_request (s : State) : State * option (list Answer.t) :=
  match game s with
  | None => (s, None)
  | Some game =>
    match answersPayload (grid s) (GameData.words game) with
    | Throw _ => (setSubmitting false s, None)
    | Normal answers => (setSubmitting true s, Some answers)
    end
  end.

(** The second half of [handleSubmit], run when the request is answered
    with [res].  [cl] is the render state the handler closed over when the
    button was clicked: [game] and [grid] are read there, so [newGrid] is
    built from the grid of that moment.  [st] is the state by the time of
    the answer, which the setters change.  The merge writes into the rows
    of [cl]'s grid in place; the rows then belong to [newGrid], which
    replaces the state's grid.  A merge that throws would leave rows
    shared with the state's grid half written, which grids as values do not
    show: only [submitting] is cleared here.  That case does not arise for
    a request that was sent, because the extraction has read every cell the
    merge reads (lemma [handleSubmit_response_spec]); nor does the first
    case, since a handler without a game returns before it sends
    anything. *)
Definition handleSubmit_response (cl : State) (res : Response) (st : State) : State :=
  match game cl with
  | None => st
  | Some game =>
    match res with
    | Rejected => setSubmitting false st
    | Resolved results =>
      match merge_words results (GameData.words game) (grid cl) with
      | (Throw _, _) => setSubmitting false st
      | (Normal _, newGrid) =>
        let st1 := setGrid newGrid st in
        let allCorrect := forallb CheckResult.is_correct results in
        setSubmitting false
          (if allCorrect then setIsFinished true (setIsPaused true st1) else st1)
      end
    end
  end.

(** *** Vocabulary for the statements about the player *)

(** [covers w r c i]: [(r, c)] is the cell at offset [i] of the span of [w]. *)
Definition covers (w : WordData.t) (r c i : Z) : Prop :=
  0 ≤ i < WordData.length w
  ∧ r = spanRow (WordData.direction w) (WordData.row_index w) i
  ∧ c = spanCol (WordData.direction w) (WordData.col_index w) i.

Definition coversCell (w : WordData.t) (r c : Z) : Prop := ∃ i, covers w r c i.

(** Every cell of every span exists in the grid. *)
Definition spansInGrid (g : Grid) (ws : list WordData.t) : Prop :=
  ∀ w r c i, w ∈ ws → covers w r c i → is_Some (cellAt g r c).

(** [coversCell], decided. *)
Definition coversb (w : WordData.t) (r c : Z) : bool :=
  match WordData.direction w with
  | horizontal =>
    (r =? WordData.row_index w) && (WordData.col_index w <=? c)
    && (c <? WordData.col_index w + WordData.length w)
  | vertical =>
    (c =? WordData.col_index w) && (WordData.row_index w <=? r)
    && (r <? WordData.row_index w + WordData.length w)
  end.

(** The flag a cell at [(r, c)] carries after a merge pass over [ws], from
    the flag [old] it carried before: false as soon as one covering word is
    incorrect; otherwise, when covered, true unless it was false before. *)
Definition mergedFlag (results : list CheckResult.t) (ws : list WordData.t)
    (r c : Z) (old : option bool) : option bool :=
  if existsb (fun w => coversb w r c && negb (verdict results w)) ws then Some false
  else if existsb (fun w => coversb w r c) ws then
    (if bool_decide (old = Some false) then Some false else Some true)
  else old.

Definition mergedCell (results : list CheckResult.t) (ws : list WordData.t)
    (r c : Z) (cell : CellData.t) : CellData.t :=
  CellData.mk (CellData.isActive cell) (CellData.char cell) (CellData.number cell)
    (CellData.wordIds cell) (mergedFlag results ws r c (CellData.isCorrect cell)).

(** The grid has [rows] rows of [cols] cells each. *)
Definition shaped (rows cols : Z) (g : Grid) : Prop :=
  length g = Z.to_nat rows
  ∧ ∀ i rowArr, g !! i = Some rowArr → length rowArr = Z.to_nat cols.

(** The position reached from [(r, c)] after [k] advances of [moveFocus]. *)
Definition scanRow (dir : Direction) (r step k : Z) : Z :=
  match dir with vertical => r + k * step | horizontal => r end.
Definition scanCol (dir : Direction) (c step k : Z) : Z :=
  match dir with horizontal => c + k * step | vertical => c end.

Definition inBounds (s : State) (r c : Z) : Prop :=
  0 ≤ r < gameRows s ∧ 0 ≤ c < gameCols s.

(** [grid[r][c]] exists and is active. *)
Definition activeAt (g : Grid) (r c : Z) : bool :=
  match cellAt g r c with
  | Some cell => CellData.isActive cell
  | None => false
  end.

(** *** A worked example

    The 5 x 5 puzzle of the spec's end-to-end scenario: HELLO across and
    HAT down, both from (0, 0). *)

Definition exampleGame : GameData.t :=
  GameData.mk "g1" "Example" 5 5
    [WordData.mk "w1" 1 horizontal 0 0 5 "greeting";
     WordData.mk "w2" 2 vertical 0 0 3 "headwear"].

Definition exampleGrid : Grid :=
  match initializeGrid exampleGame with
  | Normal g => g
  | Throw _ => []
  end.

(** The state right after the game has loaded. *)
Definition exampleState : State :=
  mkState (Some exampleGame) exampleGrid false false 0 false false None
    horizontal None.

(** Two answers of the backend for it: HAT wrong, then both words right. *)
Definition hatWrong : list CheckResult.t :=
  [CheckResult.mk "w1" true; CheckResult.mk "w2" false].
Definition allRight : list CheckResult.t :=
  [CheckResult.mk "w1" true; CheckResult.mk "w2" true].

(** A puzzle whose only word is longer than the room left in its row. *)
Definition overflowGame : GameData.t :=
  GameData.mk "g2" "Overflow" 3 3 [WordData.mk "w1" 1 horizontal 0 1 5 "long"].

(** *** Loading, the stopwatch and the pause buttons *)

Definition setGame (g : option GameData.t) (s : State) : State :=
  mkState g (grid s) (loading s) (submitting s) (timer s) (isPaused s)
    (isFinished s) (selectedCell s) (direction s) (focused s).
Definition setLoading (b : bool) (s : State) : State :=
  mkState (game s) (grid s) b (submitting s) (timer s) (isPaused s)
    (isFinished s) (selectedCell s) (direction s) (focused s).

(** The [useState] initial values. *)
Definition initialState : State :=
  mkState None [] true false 0 false false None horizontal None.

(** [fetchGame], run to completion.  [response] is [res.data.data] of the
    public request or, failing that, of the private one; [None] when both
    are rejected.  [setGame(data)] runs before [initializeGrid(data)], so an
    exception of the latter leaves the game set and the grid as it was; the
    [catch] then shows a toast and navigates away, and [finally] clears
    [loading]. *)
Definition fetchGame (response : option GameData.t) (s : State) : State :=
  match response with
  | None => setLoading false s
  | Some data =>
    let st := setGame (Some data) s in
    match initializeGrid data with
    | Normal newGrid => setLoading false (setGrid newGrid st)
    | Throw _ => setLoading false st
    end
  end.

(** One firing of the stopwatch interval, which exists only while
    [game && !isPaused && !isFinished]: [setTimer((prev) => prev + 1)]. *)
Definition tick (s : State) : State :=
  match game s with
  | Some _ =>
    if negb (isPaused s) && negb (isFinished s) then setTimer (timer s + 1) s else s
  | None => s
  end.

(** The pause button: [!isFinished && setIsPaused(!isPaused)]. *)
Definition togglePause (s : State) : State :=
  if negb (isFinished s) then setIsPaused (negb (isPaused s)) s else s.

(** The "Resume Game" button of the pause overlay: [setIsPaused(false)]. *)
Definition resume (s : State) : State := setIsPaused false s.

(** *** formatTime *)

(** [n.toString()] for an integer [n]: its decimal digits, with a minus
    sign when negative.  (JavaScript switches to exponent notation from
    10^21 on; a stopwatch that counts seconds stays far below.) *)
Definition toString (n : Z) : string := NilZero.string_of_int (Z.to_int n).

(** [str.padStart(2, "0")] *)
Definition padStart2 (str : string) : string :=
  match String.length str with
  | O => "00"%string
  | 1%nat => ("0" +:+ str)%string
  | _ => str
  end.

(** [formatTime(seconds)] for an integer number of seconds:
    [Math.floor(seconds / 60)] is the floor quotient and [seconds % 60] the
    remainder that takes the sign of [seconds]. *)
Definition formatTime (seconds : Z) : string :=
  let m := padStart2 (toString (seconds / 60)) in
  let s := padStart2 (toString (Z.rem seconds 60)) in
  (m +:+ ":" +:+ s)%string.

(** *** Vocabulary for the statements about whole sessions *)

(** What [initializeGrid] derives from the word list and play never edits:
    the active mask, the clue number and the covering word ids. *)
Definition layout (cell : CellData.t) : bool * option Z * list string :=
  (CellData.isActive cell, CellData.number cell, CellData.wordIds cell).

(** The states of a session in which every check is answered before the
    next event is handled ([handleSubmit] as one step): a load that
    succeeded, from the initial state or (when the route's id changes) from
    a later one, followed by any sequence of input events, checks,
    restarts, stopwatch ticks and pause button presses.  The Resume button
    exists only on the pause overlay, which is rendered while
    [isPaused && !isFinished].  The relation [session] below also has the
    states in which a check is in flight. *)
Inductive reachable (toUpperCase : string → string) : State → Prop :=
  | reach_load data g :
      initializeGrid data = Normal g →
      reachable toUpperCase (fetchGame (Some data) initialState)
  | reach_reload s data g :
      reachable toUpperCase s →
      initializeGrid data = Normal g →
      reachable toUpperCase (fetchGame (Some data) s)
  | reach_input s r c val :
      reachable toUpperCase s →
      reachable toUpperCase (snd (handleInputChange toUpperCase s r c val))
  | reach_key s key r c :
      reachable toUpperCase s → reachable toUpperCase (snd (handleKeyDown s key r c))
  | reach_click s r c :
      reachable toUpperCase s → reachable toUpperCase (snd (handleCellClick s r c))
  | reach_submit s check :
      reachable toUpperCase s → reachable toUpperCase (handleSubmit check s)
  | reach_restart s :
      reachable toUpperCase s → reachable toUpperCase (handleRestart s)
  | reach_tick s :
      reachable toUpperCase s → reachable toUpperCase (tick s)
  | reach_togglePause s :
      reachable toUpperCase s → reachable toUpperCase (togglePause s)
  | reach_resume s :
      reachable toUpperCase s → isPaused s = true → isFinished s = false →
      reachable toUpperCase (resume s).

(** The session invariant: the grid has the shape and the layout that
    [initializeGrid] gave it for the loaded game, the stopwatch is not
    negative, and a finished puzzle is paused. *)
Definition sessionInvariant (s : State) : Prop :=
  ∃ gm g0,
    game s = Some gm
    ∧ initializeGrid gm = Normal g0
    ∧ shaped (GameData.rows gm) (GameData.cols gm) (grid s)
    ∧ (∀ r c, layout <$> cellAt (grid s) r c = layout <$> cellAt g0 r c)
    ∧ 0 ≤ timer s
    ∧ (isFinished s = true → isPaused s = true).

(** *** Sessions with a check in flight

    While the request of [handleSubmit] is pending the component renders
    and handles events as usual: the cell inputs are disabled only while
    [isPaused || isFinished].  A session state is therefore the component's
    state together with the checks in flight, each the render state its
    handler closed over. *)
Record Session : Type := mkSession {
  current : State;
  inFlight : list State
}.

(** An event that needs no request: its handler acts on the current
    state. *)
Definition onCurrent (f : State → State) (ss : Session) : Session :=
  mkSession (f (current ss)) (inFlight ss).

(** A click on the Check button: the first half of [handleSubmit]; when
    the request is sent the handler's closure stays behind. *)
Definition request (ss : Session) : Session :=
  match handleSubmit_request (current ss) with
  | (st, Some _) => mkSession st (current ss :: inFlight ss)
  | (st, None) => mkSession st (inFlight ss)
  end.

(** The answer [res] to the check in flight at position [i]: the second
    half of its handler runs on the state of that moment. *)
Definition respond (i : nat) (res : Response) (ss : Session) : Session :=
  match inFlight ss !! i with
  | Some cl => mkSession (handleSubmit_response cl res (current ss)) (delete i (inFlight ss))
  | None => ss
  end.

(** The states of a session: a load that succeeded, followed by any
    interleaving of input events, clicks on Check, answers to the checks
    in flight, restarts, stopwatch ticks and pause button presses.  Two
    guards come from the markup: the Check button is disabled while
    [submitting] (also while paused or finished, which is not relied on),
    and the Resume button exists only while [isPaused && !isFinished].
    With the first guard at most one check is in flight (lemma
    [session_invariants]), so the rows one merge writes in place are never
    part of another handler's closure.  A load for a new route id is taken
    only while no check is in flight: the answer to a check of the
    previous game would put that game's grid back (example
    [stale_response_after_reload]). *)
Inductive session (toUpperCase : string → string) : Session → Prop :=
  | session_load data g :
      initializeGrid data = Normal g →
      session toUpperCase (mkSession (fetchGame (Some data) initialState) [])
  | session_reload ss data g :
      session toUpperCase ss →
      inFlight ss = [] →
      initializeGrid data = Normal g →
      session toUpperCase (onCurrent (fetchGame (Some data)) ss)
  | session_input ss r c val :
      session toUpperCase ss →
      session toUpperCase
        (onCurrent (fun s => snd (handleInputChange toUpperCase s r c val)) ss)
  | session_key ss key r c :
      session toUpperCase ss →
      session toUpperCase (onCurrent (fun s => snd (handleKeyDown s key r c)) ss)
  | session_click ss r c :
      session toUpperCase ss →
      session toUpperCase (onCurrent (fun s => snd (handleCellClick s r c)) ss)
  | session_request ss :
      session toUpperCase ss →
      submitting (current ss) = false →
      session toUpperCase (request ss)
  | session_response ss i res :
      session toUpperCase ss → session toUpperCase (respond i res ss)
  | session_restart ss :
      session toUpperCase ss → session toUpperCase (onCurrent handleRestart ss)
  | session_tick ss :
      session toUpperCase ss → session toUpperCase (onCurrent tick ss)
  | session_togglePause ss :
      session toUpperCase ss → session toUpperCase (onCurrent togglePause ss)
  | session_resume ss :
      session toUpperCase ss →
      isPaused (current ss) = true → isFinished (current ss) = false →
      session toUpperCase (onCurrent resume ss).

(** What holds of the checks in flight: there is at most one, exactly
    while [submitting] is set; its closure carries the game of the current
    state and a grid with that game's shape and layout, from which the
    answers could be extracted. *)
Definition inFlightInvariant (ss : Session) : Prop :=
  (length (inFlight ss) ≤ 1)%nat
  ∧ (submitting (current ss) = true ↔ inFlight ss ≠ [])
  ∧ ∀ cl, cl ∈ inFlight ss →
      game cl = game (current ss)
      ∧ sessionInvariant cl
      ∧ ∃ gm answers,
          game cl = Some gm
          ∧ answersPayload (grid cl) (GameData.words gm) = Normal answers.

(** A session of the example puzzle: the player clicks Check on the empty
    grid, types an H into cell (0, 0) while the request is pending, and
    then the backend's answer arrives. *)
Definition pendingSession : Session :=
  onCurrent (fun s => snd (handleInputChange upperAscii s 0 0 "h"))
    (request (mkSession (fetchGame (Some exampleGame) initialState) [])).

Definition answeredSession : Session :=
  respond 0 (Resolved allRight) pendingSession.

(** A 2 x 2 puzzle, loaded while a check of the example puzzle is in
    flight. *)
Definition smallGame : GameData.t :=
  GameData.mk "g2" "Small" 2 2 [WordData.mk "v1" 1 horizontal 0 0 2 "pair"].

(** [st'] differs from [st] at most in the selected cell and the focus. *)
Definition sameButFocus (st st' : State) : Prop :=
  game st' = game st ∧ grid st' = grid st ∧ loading st' = loading st
  ∧ submitting st' = submitting st ∧ timer st' = timer st
  ∧ isPaused st' = isPaused st ∧ isFinished st' = isFinished st
  ∧ direction st' = direction st.

(** What the body of [initializeGrid]'s loop stores over [old] for [word];
    [atOrigin] is the test [i === 0]. *)
Definition markCell (word : WordData.t) (atOrigin : bool) (old : CellData.t)
    : CellData.t :=
  CellData.mk true (CellData.char old)
    (if atOrigin then Some (WordData.number word) else CellData.number old)
    (CellData.wordIds old ++ [WordData.id word])
    (CellData.isCorrect old).

(** [(r, c)] is the origin cell of [w]. *)
Definition isOrigin (w : WordData.t) (r c : Z) : bool :=
  (r =? WordData.row_index w) && (c =? WordData.col_index w).

(** The cell that the words of [ws], taken in order, leave at [(r, c)]. *)
Definition placedCell (ws : list WordData.t) (r c : Z) (cell : CellData.t)
    : CellData.t :=
  fold_left
    (fun cell w => if coversb w r c then markCell w (isOrigin w r c) cell else cell)
    ws cell.

(** The character of the decimal digit [d]. *)
Definition digitChar (d : Z) : ascii := ascii_of_nat (48 + Z.to_nat d).

(** Minutes and seconds as two digits each around a colon. *)
Definition clockFace (seconds : Z) : string :=
  String (digitChar (seconds / 600))
    (String (digitChar (seconds / 60 mod 10))
       (String ":"
          (String (digitChar (seconds mod 60 / 10))
             (String (digitChar (seconds mod 10)) EmptyString)))).

End PlayCrossword.

(** * Properties of the grid builder *)

Module GridBuilderFacts.
Import GridBuilder.

Lemma strGet_in_range (s : string) (i : Z) :
  0 ≤ i < strLength s → is_Some (strGet s i).
Proof.
  unfold strGet, strLength. intros [H0 H1].
  destruct (Z.ltb_spec i 0) as [?|_]; [lia|].
  assert (Hn : (Z.to_nat i < String.length s)%nat) by lia.
  clear H0 H1. revert s Hn. generalize (Z.to_nat i) as n.
  induction n as [|n IH]; intros [|a s]; simpl; intros Hn; try lia; eauto.
  apply IH. lia.
Qed.

Lemma strGet_Some_range (s : string) (i : Z) (ch : ascii) :
  strGet s i = Some ch → 0 ≤ i < strLength s.
Proof.
  unfold strGet, strLength.
  destruct (Z.ltb_spec i 0) as [?|H0]; [done|].
  intros H. split; [done|].
  assert (Hn : (Z.to_nat i < String.length s)%nat); [|lia].
  revert s H. generalize (Z.to_nat i) as n.
  induction n as [|n IH]; intros [|a s]; simpl; intros H; try done; try lia.
  apply IH in H. lia.
Qed.

(** One step of [getCharAt]: either the head word covers the cell and
    decides, or the scan goes on. *)
Lemma getCharAt_cons_cases (pw : GridWord) (rest : list GridWord) (r c : Z) :
  (∃ k, covers pw r c k ∧ getCharAt (pw :: rest) r c = strGet (GridWord.word pw) k)
  ∨ ((∀ k, ¬ covers pw r c k) ∧ getCharAt (pw :: rest) r c = getCharAt rest r c).
Proof.
  unfold covers. simpl. destruct (GridWord.direction pw) eqn:Hd; simpl.
  - destruct (Z.eqb_spec r (GridWord.row pw)), (Z.leb_spec (GridWord.col pw) c),
      (Z.ltb_spec c (GridWord.col pw + strLength (GridWord.word pw))); simpl;
      first [ left; exists (c - GridWord.col pw); split; [lia | done]
            | right; split; [intros k; lia | done] ].
  - destruct (Z.eqb_spec c (GridWord.col pw)), (Z.leb_spec (GridWord.row pw) r),
      (Z.ltb_spec r (GridWord.row pw + strLength (GridWord.word pw))); simpl;
      first [ left; exists (r - GridWord.row pw); split; [lia | done]
            | right; split; [intros k; lia | done] ].
Qed.

(** A cell has one offset in a given span. *)
Lemma covers_offset_unique (pw : GridWord) (r c k k' : Z) :
  covers pw r c k → covers pw r c k' → k = k'.
Proof.
  unfold covers. destruct (GridWord.direction pw); simpl; lia.
Qed.

Lemma getCharAt_Some_covers (ws : list GridWord) (r c : Z) (ch : ascii) :
  getCharAt ws r c = Some ch →
  ∃ pw k, pw ∈ ws ∧ covers pw r c k ∧ strGet (GridWord.word pw) k = Some ch.
Proof.
  induction ws as [|pw rest IH]; [done|].
  destruct (getCharAt_cons_cases pw rest r c) as [(k & Hk & ->)|[_ ->]].
  - intros H. exists pw, k. split; [left|done].
  - intros H. destruct (IH H) as (pw' & k & ? & ?). exists pw', k. split; [by right|done].
Qed.

Lemma getCharAt_None_iff (ws : list GridWord) (r c : Z) :
  getCharAt ws r c = None ↔ ∀ pw k, pw ∈ ws → ¬ covers pw r c k.
Proof.
  induction ws as [|pw rest IH].
  - split; [|done]. intros _ pw k Hin. by apply not_elem_of_nil in Hin.
  - destruct (getCharAt_cons_cases pw rest r c) as [(k & Hk & ->)|[Hno ->]].
    + split.
      * intros HN. destruct (strGet_in_range (GridWord.word pw) k) as [ch Hch];
          [apply Hk | congruence].
      * intros H. exfalso. apply (H pw k); [left | done].
    + rewrite IH. split.
      * intros H pw' k [->|Hin]%elem_of_cons; [apply Hno | by apply H].
      * intros H pw' k Hin. apply H. by right.
Qed.

Lemma getCharAt_app (l1 l2 : list GridWord) (r c : Z) :
  getCharAt (l1 ++ l2) r c =
  match getCharAt l1 r c with Some ch => Some ch | None => getCharAt l2 r c end.
Proof.
  induction l1 as [|pw rest IH]; [done|].
  rewrite <- app_comm_cons.
  destruct (getCharAt_cons_cases pw rest r c) as [(k & Hk & ->)|[Hno ->]].
  - destruct (getCharAt_cons_cases pw (rest ++ l2) r c) as [(k' & Hk' & ->)|[Hno' _]].
    + rewrite (covers_offset_unique _ _ _ _ _ Hk' Hk).
      destruct (strGet_in_range (GridWord.word pw) k) as [ch ->]; [apply Hk | done].
    + by destruct (Hno' k).
  - destruct (getCharAt_cons_cases pw (rest ++ l2) r c) as [(k' & Hk' & _)|[_ ->]].
    + by destruct (Hno k').
    + done.
Qed.

(** The overlap loop accepts exactly when every covered offset already
    holds the candidate's own character. *)
Lemma canPlaceWord_loop_true (ws : list GridWord) (w : string) (r c : Z)
    (dir : Direction) (todo : nat) (i : Z) :
  canPlaceWord_loop ws w r c dir i todo = true ↔
  ∀ k ch, i ≤ k < i + Z.of_nat todo →
    getCharAt ws (spanRow dir r k) (spanCol dir c k) = Some ch →
    strGet w k = Some ch.
Proof.
  revert i. induction todo as [|todo IH]; intros i.
  - split; [intros _ k ch ?; lia | done].
  - cbn [canPlaceWord_loop].
    destruct (getCharAt ws (spanRow dir r i) (spanCol dir c i)) as [ex|] eqn:Hex.
    + case_bool_decide as Hne.
      * split; [done|]. intros H. exfalso. apply Hne. symmetry. apply (H i ex); [lia|done].
      * rewrite IH. split.
        -- intros H k ch Hk Hg. destruct (decide (k = i)) as [->|].
           ++ rewrite Hex in Hg. destruct (decide (Some ex = strGet w i)); [congruence|done].
           ++ apply H; [lia|done].
        -- intros H k ch Hk. apply H. lia.
    + rewrite IH. split.
      * intros H k ch Hk Hg. destruct (decide (k = i)) as [->|]; [congruence|].
        apply H; [lia|done].
      * intros H k ch Hk. apply H. lia.
Qed.

Lemma canPlaceWord_loop_false (ws : list GridWord) (w : string) (r c : Z)
    (dir : Direction) (todo : nat) (i : Z) :
  canPlaceWord_loop ws w r c dir i todo = false ↔
  ∃ k ch, i ≤ k < i + Z.of_nat todo
    ∧ getCharAt ws (spanRow dir r k) (spanCol dir c k) = Some ch
    ∧ strGet w k ≠ Some ch.
Proof.
  revert i. induction todo as [|todo IH]; intros i.
  - split; [done | intros (k & ch & ? & _); lia].
  - cbn [canPlaceWord_loop].
    destruct (getCharAt ws (spanRow dir r i) (spanCol dir c i)) as [ex|] eqn:Hex.
    + case_bool_decide as Hne.
      * split; [|done]. intros _. exists i, ex. split; [lia|]. split; [done|congruence].
      * rewrite IH. split.
        -- intros (k & ch & Hk & Hg & Hd). exists k, ch. split; [lia|done].
        -- intros (k & ch & Hk & Hg & Hd). destruct (decide (k = i)) as [->|].
           ++ rewrite Hex in Hg. exfalso. apply Hd.
              destruct (decide (Some ex = strGet w i)); [congruence|done].
           ++ exists k, ch. split; [lia|done].
    + rewrite IH. split.
      * intros (k & ch & Hk & Hg & Hd). exists k, ch. split; [lia|done].
      * intros (k & ch & Hk & Hg & Hd). destruct (decide (k = i)) as [->|]; [congruence|].
        exists k, ch. split; [lia|done].
Qed.

Lemma canPlaceWord_bounds (ws : list GridWord) (w : string) (r c : Z) (dir : Direction) :
  boundsFail w r c dir → canPlaceWord ws w r c dir = false.
Proof.
  unfold boundsFail, canPlaceWord.
  intros [[-> H]|[-> H]]; simpl.
  - destruct (Z.gtb_spec (c + strLength w) GRID_SIZE); [done|lia].
  - destruct (Z.gtb_spec (r + strLength w) GRID_SIZE); [done|lia].
Qed.

Lemma canPlaceWord_in_bounds (ws : list GridWord) (w : string) (r c : Z) (dir : Direction) :
  ¬ boundsFail w r c dir →
  canPlaceWord ws w r c dir = canPlaceWord_loop ws w r c dir 0 (String.length w).
Proof.
  unfold boundsFail, canPlaceWord. intros H.
  destruct dir; simpl.
  - destruct (Z.gtb_spec (c + strLength w) GRID_SIZE); [|done].
    exfalso. apply H. left. split; [done|lia].
  - destruct (Z.gtb_spec (r + strLength w) GRID_SIZE); [|done].
    exfalso. apply H. right. split; [done|lia].
Qed.

Lemma boundsFail_dec (w : string) (r c : Z) (dir : Direction) :
  boundsFail w r c dir ∨ ¬ boundsFail w r c dir.
Proof.
  unfold boundsFail. destruct dir.
  - destruct (Z_gt_dec (c + strLength w) GRID_SIZE); [left; by left|].
    right. intros [[_ ?]|[? _]]; [lia|done].
  - destruct (Z_gt_dec (r + strLength w) GRID_SIZE); [left; by right|].
    right. intros [[? _]|[_ ?]]; [done|lia].
Qed.

(** Acceptance, spelled out: the bounds tests pass and every offset whose
    cell already holds a character holds the candidate's own. *)
Lemma canPlaceWord_true (ws : list GridWord) (w : string) (r c : Z) (dir : Direction) :
  canPlaceWord ws w r c dir = true ↔
  ¬ boundsFail w r c dir
  ∧ ∀ k ch, 0 ≤ k < strLength w →
      getCharAt ws (spanRow dir r k) (spanCol dir c k) = Some ch →
      strGet w k = Some ch.
Proof.
  destruct (boundsFail_dec w r c dir) as [Hb|Hb].
  - rewrite canPlaceWord_bounds by done. split; [done | by intros [? _]].
  - rewrite canPlaceWord_in_bounds, canPlaceWord_loop_true by done.
    unfold strLength. split.
    + intros H. split; [done|]. intros k ch Hk. apply H. lia.
    + intros [_ H] k ch Hk. apply H. lia.
Qed.


(** Renumbering changes neither membership up to the number nor lookups. *)
Lemma getCharAt_imap_number (h : nat → Z) (l : list GridWord) (r c : Z) :
  getCharAt
    (imap (fun i pw =>
             GridWord.mk (GridWord.word pw) (GridWord.clue pw) (GridWord.row pw)
               (GridWord.col pw) (GridWord.direction pw) (h i)) l) r c
  = getCharAt l r c.
Proof.
  revert h. induction l as [|pw l IH]; intros h; [done|].
  cbn [imap getCharAt GridWord.direction GridWord.row GridWord.col GridWord.word].
  rewrite <- (IH (fun i => h (S i))). done.
Qed.

Lemma getCharAt_renumber (l : list GridWord) (r c : Z) :
  getCharAt (renumber l) r c = getCharAt l r c.
Proof. apply (getCharAt_imap_number (fun i => Z.of_nat i + 1)). Qed.

Lemma elem_of_renumber (l : list GridWord) (pw' : GridWord) :
  pw' ∈ renumber l → ∃ pw, pw ∈ l ∧ position pw' = position pw.
Proof.
  unfold renumber. intros (i & pw & -> & Hl)%elem_of_lookup_imap_1.
  exists pw. split; [|done]. apply list_elem_of_lookup. eauto.
Qed.

Lemma covers_position (pw pw' : GridWord) (r c k : Z) :
  position pw' = position pw → covers pw' r c k → covers pw r c k.
Proof.
  unfold position, covers. intros [= -> _ -> -> ->]. done.
Qed.

(** The consistency invariant: in a list placed without conflict, a lookup
    at a cell of any word's span returns that word's own character. *)
Lemma placedWithoutConflict_consistent (ws : list GridWord) :
  placedWithoutConflict ws →
  ∀ pw r c k, pw ∈ ws → covers pw r c k →
    getCharAt ws r c = strGet (GridWord.word pw) k.
Proof.
  induction 1 as [|ws w cl r0 c0 dir n _ IH Hcan|ws index _ IH];
    intros pw r c k Hin Hcov.
  - by apply not_elem_of_nil in Hin.
  - rewrite getCharAt_app.
    apply elem_of_app in Hin as [Hin|Hin].
    + rewrite (IH pw r c k Hin Hcov).
      destruct (strGet_in_range (GridWord.word pw) k) as [ch ->]; [apply Hcov|done].
    + apply list_elem_of_singleton in Hin as ->.
      apply canPlaceWord_true in Hcan as [_ Hcan].
      set (x := GridWord.mk w cl r0 c0 dir n) in *.
      assert (Hrc : r = spanRow dir r0 k ∧ c = spanCol dir c0 k) by (split; apply Hcov).
      assert (Hk : 0 ≤ k < strLength w) by apply Hcov.
      destruct Hrc as [Hr Hc].
      destruct (getCharAt ws r c) as [ch|] eqn:Hg.
      * symmetry. rewrite Hr, Hc in Hg. by apply Hcan.
      * destruct (getCharAt_cons_cases x [] r c) as [(k' & Hk' & ->)|[Hno _]].
        -- by rewrite (covers_offset_unique _ _ _ _ _ Hk' Hcov).
        -- by destruct (Hno k).
  - rewrite getCharAt_renumber.
    apply elem_of_renumber in Hin as (pw0 & Hin0 & Hpos).
    assert (Hw : GridWord.word pw = GridWord.word pw0)
      by (unfold position in Hpos; congruence).
    rewrite Hw. apply (covers_position pw0) in Hcov; [|done].
    destruct (getCharAt (delete index ws) r c) as [ch|] eqn:Hg.
    + apply getCharAt_Some_covers in Hg as (pw1 & k1 & Hin1 & Hcov1 & Hch1).
      apply list_elem_of_delete_inv in Hin1.
      rewrite <- Hch1, <- (IH pw1 r c k1 Hin1 Hcov1).
      apply IH; [|done]. by apply list_elem_of_delete_inv in Hin0.
    + exfalso. rewrite getCharAt_None_iff in Hg. by apply (Hg pw0 k).
Qed.

(** C1, as the code has it: [canPlaceWord] returns false exactly when a
    bounds test fails or some offset [i] of the candidate's span lies on a
    cell where [getCharAt] (the first placed word covering it) returns a
    character that is not identical to [word[i]]; the comparison is exact,
    so letters that agree only up to case conflict. *)
Theorem canPlaceWord_false_iff (ws : list GridWord) (w : string) (r c : Z)
    (dir : Direction) :
  canPlaceWord ws w r c dir = false ↔
  boundsFail w r c dir
  ∨ ∃ i ch, 0 ≤ i < strLength w
      ∧ getCharAt ws (spanRow dir r i) (spanCol dir c i) = Some ch
      ∧ strGet w i ≠ Some ch.
Proof.
  destruct (boundsFail_dec w r c dir) as [Hb|Hb].
  - rewrite canPlaceWord_bounds by done. split; [by left | done].
  - rewrite canPlaceWord_in_bounds, canPlaceWord_loop_false by done.
    unfold strLength. split.
    + intros (k & ch & Hk & H). right. exists k, ch. split; [lia|done].
    + intros [?|(k & ch & Hk & H)]; [done|]. exists k, ch. split; [lia|done].
Qed.

(** C1 with a case-insensitive comparison does not hold: a placed "a" at (0,0) and the
    candidate "A" on the same cell agree up to letter case, yet the
    placement is rejected. *)
Lemma canPlaceWord_case_sensitive_counterexample :
  ¬ (canPlaceWord [GridWord.mk "a" EmptyString 0 0 horizontal 1] "A" 0 0 horizontal = false
     ↔ spec_caseInsensitiveConflict
         [GridWord.mk "a" EmptyString 0 0 horizontal 1] "A" 0 0 horizontal).
Proof.
  intros [Hfwd _].
  destruct (Hfwd eq_refl) as (i & pw & k & a & b & Hi & Hin & Hcov & Ha & Hb & Hne).
  apply list_elem_of_singleton in Hin as ->.
  assert (i = 0) as -> by (unfold strLength in Hi; simpl in Hi; lia).
  assert (k = 0) as ->.
  { destruct Hcov as [Hk _]. unfold strLength in Hk. simpl in Hk. lia. }
  vm_compute in Ha, Hb. injection Ha as <-. injection Hb as <-.
  apply Hne. reflexivity.
Qed.


(** C5: [getCharAt] returns the character, at the matching offset, of a
    placed word whose span covers the cell; it returns none exactly when no
    placed word covers the cell; and in a list of words placed without
    conflict it returns, at every cell of every word's span, that word's
    own character. *)
Theorem getCharAt_spec (ws : list GridWord) (r c : Z) :
  (∀ ch, getCharAt ws r c = Some ch →
     ∃ pw k, pw ∈ ws ∧ covers pw r c k ∧ strGet (GridWord.word pw) k = Some ch)
  ∧ (getCharAt ws r c = None ↔ ∀ pw k, pw ∈ ws → ¬ covers pw r c k)
  ∧ (placedWithoutConflict ws →
     ∀ pw k, pw ∈ ws → covers pw r c k →
       ∃ ch, strGet (GridWord.word pw) k = Some ch ∧ getCharAt ws r c = Some ch).
Proof.
  split; [|split].
  - apply getCharAt_Some_covers.
  - apply getCharAt_None_iff.
  - intros Hpwc pw k Hin Hcov.
    destruct (strGet_in_range (GridWord.word pw) k) as [ch Hch]; [apply Hcov|].
    exists ch. split; [done|].
    by rewrite (placedWithoutConflict_consistent ws Hpwc pw r c k Hin Hcov).
Qed.

Lemma getCharAt_spec_witness :
  ∃ ch, strGet "COW" 2 = Some ch
    ∧ getCharAt ([GridWord.mk "CAT" "pet" 0 0 horizontal 1]
                   ++ [GridWord.mk "COW" "farm" 0 0 vertical 2]) 2 0 = Some ch.
Proof.
  refine (proj2 (proj2 (getCharAt_spec _ 2 0)) _
            (GridWord.mk "COW" "farm" 0 0 vertical 2) 2 _ _).
  - apply pwc_place; [|reflexivity].
    apply (pwc_place [] "CAT" "pet" 0 0 horizontal 1 pwc_empty). reflexivity.
  - apply elem_of_app. right. apply list_elem_of_singleton. reflexivity.
  - unfold covers, strLength. simpl. lia.
Defined.

(** The crossing test of the spec, with concrete letters: CAR down from the
    C of CAT fits; CAR down from the T of CAT does not; any word fits an
    empty grid when its far end stays inside. *)
Example canPlaceWord_crossing_agrees :
  canPlaceWord [GridWord.mk "CAT" "pet" 0 0 horizontal 1] "CAR" 0 0 vertical = true.
Proof. reflexivity. Qed.

Example canPlaceWord_crossing_conflicts :
  canPlaceWord [GridWord.mk "CAT" "pet" 0 0 horizontal 1] "CAR" 0 2 vertical = false.
Proof. reflexivity. Qed.

Lemma canPlaceWord_empty_grid (w : string) (r c : Z) (dir : Direction) :
  ¬ boundsFail w r c dir → canPlaceWord [] w r c dir = true.
Proof.
  intros Hb. apply canPlaceWord_true. split; [done|]. intros k ch _ Hg. done.
Qed.

(** In a list placed without conflict every covering word decides alike, so
    a rejection past the bounds tests means that some placed word holds a
    different character on a cell of the candidate's span. *)
Corollary canPlaceWord_false_some_word (ws : list GridWord) (w : string) (r c : Z)
    (dir : Direction) :
  placedWithoutConflict ws →
  ¬ boundsFail w r c dir →
  (canPlaceWord ws w r c dir = false ↔
   ∃ i pw k ch, 0 ≤ i < strLength w
     ∧ pw ∈ ws
     ∧ covers pw (spanRow dir r i) (spanCol dir c i) k
     ∧ strGet (GridWord.word pw) k = Some ch
     ∧ strGet w i ≠ Some ch).
Proof.
  intros Hpwc Hb. rewrite canPlaceWord_in_bounds, canPlaceWord_loop_false by done.
  unfold strLength. split.
  - intros (i & ch & Hi & Hg & Hne).
    apply getCharAt_Some_covers in Hg as (pw & k & Hin & Hcov & Hch).
    exists i, pw, k, ch. split; [lia|done].
  - intros (i & pw & k & ch & Hi & Hin & Hcov & Hch & Hne).
    exists i, ch. split; [lia|]. split; [|done].
    by rewrite (placedWithoutConflict_consistent ws Hpwc pw _ _ k Hin Hcov).
Qed.


(** *** Numbering *)

Lemma dense_snoc (ws : list GridWord) (pw : GridWord) :
  dense ws → GridWord.number pw = Z.of_nat (length ws) + 1 → dense (ws ++ [pw]).
Proof.
  unfold dense, numbers. intros Hd Hn.
  rewrite fmap_app, length_app, Hd. simpl.
  replace (length ws + 1)%nat with (S (length ws)) by lia.
  rewrite seqZ_S, Hn. f_equal. f_equal. lia.
Qed.

Lemma length_renumber (ws : list GridWord) : length (renumber ws) = length ws.
Proof. apply length_imap. Qed.

Lemma dense_renumber (ws : list GridWord) : dense (renumber ws).
Proof.
  unfold dense, numbers. rewrite length_renumber. apply list_eq. intros i.
  unfold renumber. rewrite list_lookup_fmap, list_lookup_imap.
  destruct (ws !! i) as [pw|] eqn:Hi; simpl.
  - apply lookup_lt_Some in Hi. rewrite lookup_seqZ_lt by lia. f_equal. lia.
  - apply lookup_ge_None in Hi. rewrite lookup_seqZ_ge by lia. done.
Qed.

Lemma position_renumber (ws : list GridWord) :
  position <$> renumber ws = position <$> ws.
Proof.
  apply list_eq. intros i. unfold renumber.
  rewrite !list_lookup_fmap, list_lookup_imap. by destruct (ws !! i).
Qed.

Lemma handleCellClick_placed (p : Props) (s : State) (r c : Z)
    (str : string) (input : InputWord.t) :
  selectedWord s = Some str →
  canPlaceWord (placedWords s) str r c (direction s) = true →
  findInput (initialWords p) str = Some input →
  handleCellClick p s r c =
  mkState
    (placedWords s ++
       [GridWord.mk str (InputWord.clue input) r c (direction s)
          (Z.of_nat (length (placedWords s)) + 1)])
    (List.filter (fun w => negb (bool_decide (w = str))) (availableWords s))
    None (direction s).
Proof. unfold handleCellClick. by intros -> -> ->. Qed.

Lemma handleCellClick_dense (p : Props) (s : State) (r c : Z) :
  dense (placedWords s) → dense (placedWords (handleCellClick p s r c)).
Proof.
  intros Hd. unfold handleCellClick.
  destruct (selectedWord s) as [str|]; [|done].
  destruct (canPlaceWord (placedWords s) str r c (direction s)); [|done]. simpl.
  destruct (findInput (initialWords p) str) as [input|]; [|done]. simpl.
  by apply dense_snoc.
Qed.

Lemma placedWords_remove (s : State) (index : nat) :
  placedWords (snd (handleRemovePlacedWord s index))
  = renumber (delete index (placedWords s)).
Proof. unfold handleRemovePlacedWord. by destruct (placedWords s !! index). Qed.

Lemma reconcile_fold_dense (iw : list InputWord.t) (pre : list Position.t)
    (acc : list GridWord * list string) :
  dense acc.1 → dense (fold_left (reconcileStep iw) pre acc).1.
Proof.
  revert acc. induction pre as [|pw pre IH]; intros [valid strs] Hd; [done|].
  simpl. apply IH. destruct (findInput iw (Position.word pw)); [|done].
  simpl. by apply dense_snoc.
Qed.

Lemma reconcile_dense (p : Props) (s : State) : dense (placedWords (reconcile p s)).
Proof.
  unfold reconcile.
  pose proof (reconcile_fold_dense (initialWords p) (prePlacedWords p) ([], [])) as H.
  destruct (fold_left _ _ _) as [valid strs]. simpl in *. by apply H.
Qed.

Lemma reachable_dense (s : State) : reachable s → dense (placedWords s).
Proof.
  induction 1 as [|p s _ IH|p s r c _ IH|s index _ IH|s w _ IH|s _ IH]; try done.
  - apply reconcile_dense.
  - by apply handleCellClick_dense.
  - rewrite placedWords_remove. apply dense_renumber.
Qed.

(** C6: in every state the builder can reach, the placed words carry the
    numbers 1..N in list order; a successful placement appends the word
    with number N+1; a removal leaves the other words in their order,
    renumbered 1..N-1. *)
Theorem placedWords_numbering (s : State) :
  reachable s →
  dense (placedWords s)
  ∧ (∀ p r c str input,
       selectedWord s = Some str →
       canPlaceWord (placedWords s) str r c (direction s) = true →
       findInput (initialWords p) str = Some input →
       placedWords (handleCellClick p s r c) =
         placedWords s ++
           [GridWord.mk str (InputWord.clue input) r c (direction s)
              (Z.of_nat (length (placedWords s)) + 1)])
  ∧ (∀ index, (index < length (placedWords s))%nat →
       let s' := snd (handleRemovePlacedWord s index) in
       numbers (placedWords s') = seqZ 1 (Z.of_nat (length (placedWords s)) - 1)
       ∧ position <$> placedWords s' = delete index (position <$> placedWords s)).
Proof.
  intros Hr. split; [by apply reachable_dense|]. split.
  - intros p r c str input H1 H2 H3.
    by rewrite (handleCellClick_placed p s r c str input).
  - intros index Hi s'. subst s'. rewrite placedWords_remove. split.
    + rewrite (dense_renumber (delete index (placedWords s))).
      rewrite length_renumber, length_delete by (by apply lookup_lt_is_Some_2).
      f_equal. lia.
    + by rewrite position_renumber, list_fmap_delete.
Qed.

Lemma placedWords_numbering_witness :
  dense
    (placedWords
       (handleCellClick (mkProps [InputWord.mk "CAT" "pet"] [])
          (selectWord (reconcile (mkProps [InputWord.mk "CAT" "pet"] []) initialState) "CAT")
          0 0)).
Proof.
  apply placedWords_numbering.
  apply reach_click, reach_select, reach_reconcile, reach_initial.
Defined.


(** * More about the builder *)

(** *** Reconciliation *)

Lemma reconcile_fold_spec (iw : list InputWord.t) (pre : list Position.t) :
  ∀ acc,
    (∀ w, w ∈ acc.2 ↔ w ∈ GridWord.word <$> acc.1) →
    position <$> (fold_left (reconcileStep iw) pre acc).1
    = (position <$> acc.1) ++ omap (keptPosition iw) pre
    ∧ ∀ w, w ∈ (fold_left (reconcileStep iw) pre acc).2
           ↔ w ∈ GridWord.word <$> (fold_left (reconcileStep iw) pre acc).1.
Proof.
  induction pre as [|pw pre IH]; intros [valid strs] Hacc.
  - simpl. by rewrite app_nil_r.
  - cbn [fold_left].
    destruct (findInput iw (Position.word pw)) as [input|] eqn:Hfind.
    + assert (Hstep : reconcileStep iw (valid, strs) pw =
                (valid ++ [GridWord.mk (Position.word pw) (InputWord.clue input)
                             (Position.row pw) (Position.col pw)
                             (Position.direction pw)
                             (Z.of_nat (length valid) + 1)],
                 Position.word pw :: strs))
        by (unfold reconcileStep; by rewrite Hfind).
      assert (Hkept : omap (keptPosition iw) (pw :: pre) =
                Position.mk (Position.word pw) (InputWord.clue input)
                  (Position.row pw) (Position.col pw) (Position.direction pw)
                :: omap (keptPosition iw) pre)
        by (cbn [omap list_omap]; unfold keptPosition at 1; by rewrite Hfind).
      rewrite Hstep, Hkept.
      destruct (IH (valid ++ [GridWord.mk (Position.word pw) (InputWord.clue input)
                                (Position.row pw) (Position.col pw)
                                (Position.direction pw)
                                (Z.of_nat (length valid) + 1)],
                    Position.word pw :: strs)) as [Hpos Hstr].
      { intros w. simpl in *. rewrite elem_of_cons, fmap_app, elem_of_app, Hacc.
        simpl. rewrite list_elem_of_singleton. tauto. }
      split; [|done]. rewrite Hpos. simpl. by rewrite fmap_app, <- app_assoc.
    + assert (Hstep : reconcileStep iw (valid, strs) pw = (valid, strs))
        by (unfold reconcileStep; by rewrite Hfind).
      assert (Hkept : omap (keptPosition iw) (pw :: pre) = omap (keptPosition iw) pre)
        by (cbn [omap list_omap]; unfold keptPosition at 1; by rewrite Hfind).
      rewrite Hstep, Hkept. by apply IH.
Qed.

(** X15: the reconciliation keeps, in their stored order, exactly the
    pre-placed positions whose word is still among the input words, each
    with the clue of the first input word of that text; the other
    pre-placed positions are dropped.  No position is checked against the
    grid or against the other words. *)
Theorem reconcile_placed (p : Props) (s : State) :
  position <$> placedWords (reconcile p s)
  = omap (keptPosition (initialWords p)) (prePlacedWords p)
  ∧ selectedWordStr (reconcile p s) = selectedWordStr s
  ∧ direction (reconcile p s) = direction s.
Proof.
  unfold reconcile.
  destruct (reconcile_fold_spec (initialWords p) (prePlacedWords p) ([], []))
    as [Hpos _]; [done|].
  destruct (fold_left _ _ _) as [valid strs]. by simpl in *.
Qed.

(** X16: after a reconciliation the available words are the input words
    that are not placed, in input order; every placed word is an input
    word; so each input word is either placed or available, never both. *)
Theorem reconcile_available (p : Props) (s : State) (w : string) :
  (w ∈ availableWords (reconcile p s) ↔
   w ∈ InputWord.word <$> initialWords p
   ∧ w ∉ GridWord.word <$> placedWords (reconcile p s))
  ∧ (w ∈ GridWord.word <$> placedWords (reconcile p s) →
     w ∈ InputWord.word <$> initialWords p).
Proof.
  unfold reconcile.
  destruct (reconcile_fold_spec (initialWords p) (prePlacedWords p) ([], []))
    as [Hpos Hstr]; [done|].
  destruct (fold_left _ _ _) as [valid strs]. simpl in *. split.
  - rewrite <- Hstr. split.
    + intros [Hin Hneg]%list_elem_of_In%filter_In.
      apply list_elem_of_In in Hin. by apply negb_true_iff, bool_decide_eq_false in Hneg.
    + intros [Hin Hneg]. apply list_elem_of_In, filter_In.
      split; [by apply list_elem_of_In|]. by apply negb_true_iff, bool_decide_eq_false.
  - intros Hin.
    assert (Hw : w ∈ Position.word <$> (position <$> valid)).
    { rewrite <- list_fmap_compose. by destruct valid. }
    rewrite Hpos in Hw.
    apply list_elem_of_fmap in Hw as (pos & -> & Hpos').
    apply list_elem_of_omap in Hpos' as (pw & Hpw & Hkept).
    unfold keptPosition in Hkept.
    destruct (findInput (initialWords p) (Position.word pw)) as [input|] eqn:Hfind;
      [|done].
    injection Hkept as <-. simpl.
    unfold findInput in Hfind. apply find_some in Hfind as [Hin' Heq].
    apply bool_decide_eq_true in Heq. rewrite <- Heq.
    apply list_elem_of_fmap. exists input. split; [done|]. by apply list_elem_of_In.
Qed.

Lemma reconcile_available_witness :
  "DOG"%string
  ∈ availableWords
      (reconcile
         (mkProps [InputWord.mk "CAT" "pet"; InputWord.mk "DOG" "barks"]
            [Position.mk "CAT" "old clue" 0 0 horizontal;
             Position.mk "COW" "gone" 5 5 vertical])
         initialState).
Proof.
  apply (reconcile_available
           (mkProps [InputWord.mk "CAT" "pet"; InputWord.mk "DOG" "barks"]
              [Position.mk "CAT" "old clue" 0 0 horizontal;
               Position.mk "COW" "gone" 5 5 vertical])
           initialState "DOG").
  split.
  - right. left.
  - intros Hin. apply list_elem_of_singleton in Hin. discriminate Hin.
Defined.

(** *** Placing and removing *)

(** X17: a click never changes what an occupied cell holds: a character
    that [getCharAt] returned before the click is returned after it,
    whether the click placed a word or was rejected. *)
Theorem handleCellClick_keeps_characters (p : Props) (s : State) (r c r' c' : Z)
    (ch : ascii) :
  getCharAt (placedWords s) r' c' = Some ch →
  getCharAt (placedWords (handleCellClick p s r c)) r' c' = Some ch.
Proof.
  intros Hch. unfold handleCellClick.
  destruct (selectedWord s) as [str|]; [|done].
  destruct (canPlaceWord _ _ _ _ _); [|done]. simpl.
  destruct (findInput _ _); [|done]. simpl.
  by rewrite getCharAt_app, Hch.
Qed.

Lemma handleCellClick_keeps_characters_witness :
  getCharAt
    (placedWords
       (handleCellClick (mkProps [InputWord.mk "COW" "farm"] [])
          (mkState [GridWord.mk "CAT" "pet" 0 0 horizontal 1] ["COW"%string]
             (Some "COW"%string) vertical) 0 0)) 0 0
  = Some "C"%char.
Proof.
  apply (handleCellClick_keeps_characters (mkProps [InputWord.mk "COW" "farm"] [])
           (mkState [GridWord.mk "CAT" "pet" 0 0 horizontal 1] ["COW"%string]
              (Some "COW"%string) vertical) 0 0 0 0).
  reflexivity.
Defined.

Lemma renumber_dense (ws : list GridWord) : dense ws → renumber ws = ws.
Proof.
  unfold dense, numbers. intros Hd. apply list_eq. intros i.
  unfold renumber. rewrite list_lookup_imap.
  destruct (ws !! i) as [pw|] eqn:Hi; [|done]. simpl. f_equal.
  assert (Hn : (GridWord.number <$> ws) !! i = Some (GridWord.number pw))
    by (by rewrite list_lookup_fmap, Hi).
  rewrite Hd in Hn. apply lookup_seqZ in Hn as [Hn _].
  destruct pw as [w cl r c d n]. simpl in *. f_equal. lia.
Qed.

(** X18: in a reachable state, removing the word that a click has just
    placed gives back the placed list as it was before the click, numbers
    included, and returns the word to the available words; removing at an
    index past the end throws a [TypeError] and leaves both lists as they
    are. *)
Theorem place_then_remove (p : Props) (s : State) (r c : Z) (str : string)
    (input : InputWord.t) :
  reachable s →
  (selectedWord s = Some str →
   canPlaceWord (placedWords s) str r c (direction s) = true →
   findInput (initialWords p) str = Some input →
   placedWords
     (snd (handleRemovePlacedWord (handleCellClick p s r c) (length (placedWords s))))
   = placedWords s
   ∧ str ∈ availableWords
             (snd (handleRemovePlacedWord (handleCellClick p s r c)
                     (length (placedWords s)))))
  ∧ (∀ index, (length (placedWords s) ≤ index)%nat →
     fst (handleRemovePlacedWord s index) = Throw TypeError
     ∧ placedWords (snd (handleRemovePlacedWord s index)) = placedWords s
     ∧ availableWords (snd (handleRemovePlacedWord s index)) = availableWords s).
Proof.
  intros Hreach. pose proof (reachable_dense s Hreach) as Hd. split.
  - intros Hsel Hcan Hfind.
    rewrite (handleCellClick_placed p s r c str input Hsel Hcan Hfind).
    unfold handleRemovePlacedWord. cbn [placedWords availableWords].
    rewrite lookup_app_r by lia. rewrite Nat.sub_diag. cbn [lookup list_lookup].
    cbn [snd placedWords availableWords GridWord.word].
    split.
    + rewrite (delete_middle (placedWords s) []), app_nil_r. by apply renumber_dense.
    + apply elem_of_app. right. by apply list_elem_of_singleton.
  - intros index Hidx. unfold handleRemovePlacedWord.
    rewrite (proj2 (lookup_ge_None _ _) Hidx). cbn [fst snd placedWords availableWords].
    split; [done|]. split; [|done].
    rewrite delete_take_drop, take_ge, drop_ge, app_nil_r by lia.
    by apply renumber_dense.
Qed.

Lemma place_then_remove_witness :
  placedWords
    (snd (handleRemovePlacedWord
            (handleCellClick (mkProps [InputWord.mk "CAT" "pet"] [])
               (selectWord (reconcile (mkProps [InputWord.mk "CAT" "pet"] []) initialState)
                  "CAT") 3 4)
            (length (placedWords
                       (selectWord
                          (reconcile (mkProps [InputWord.mk "CAT" "pet"] []) initialState)
                          "CAT")))))
  = placedWords
      (selectWord (reconcile (mkProps [InputWord.mk "CAT" "pet"] []) initialState) "CAT")
  ∧ "CAT"%string
    ∈ availableWords
        (snd (handleRemovePlacedWord
                (handleCellClick (mkProps [InputWord.mk "CAT" "pet"] [])
                   (selectWord
                      (reconcile (mkProps [InputWord.mk "CAT" "pet"] []) initialState)
                      "CAT") 3 4)
                (length (placedWords
                           (selectWord
                              (reconcile (mkProps [InputWord.mk "CAT" "pet"] [])
                                 initialState)
                              "CAT"))))).
Proof.
  refine (proj1 (place_then_remove (mkProps [InputWord.mk "CAT" "pet"] [])
                   (selectWord
                      (reconcile (mkProps [InputWord.mk "CAT" "pet"] []) initialState)
                      "CAT") 3 4 "CAT" (InputWord.mk "CAT" "pet") _) eq_refl eq_refl eq_refl).
  apply reach_select, reach_reconcile, reach_initial.
Defined.

(** *** More about canPlaceWord *)

(** X19: where none of the cells of the candidate's span is covered (an
    empty grid in particular), [canPlaceWord] accepts exactly when the two
    bounds tests pass. *)
Theorem canPlaceWord_free_cells (ws : list GridWord) (w : string) (r c : Z)
    (dir : Direction) :
  (∀ i, 0 ≤ i < strLength w →
     getCharAt ws (spanRow dir r i) (spanCol dir c i) = None) →
  (canPlaceWord ws w r c dir = true ↔ ¬ boundsFail w r c dir).
Proof.
  intros Hfree. rewrite canPlaceWord_true. split; [by intros [? _]|].
  intros Hb. split; [done|]. intros k ch Hk Hg. by rewrite Hfree in Hg.
Qed.

Lemma canPlaceWord_free_cells_witness :
  canPlaceWord [GridWord.mk "CAT" "pet" 0 0 horizontal 1] "DOG" 5 17 horizontal = true
  ↔ ¬ boundsFail "DOG" 5 17 horizontal.
Proof.
  apply (canPlaceWord_free_cells [GridWord.mk "CAT" "pet" 0 0 horizontal 1]
           "DOG" 5 17 horizontal).
  intros i Hi. unfold strLength in Hi. simpl in Hi.
  destruct (decide (i = 0)) as [->|]; [reflexivity|].
  destruct (decide (i = 1)) as [->|]; [reflexivity|].
  assert (i = 2) as -> by lia. reflexivity.
Defined.

Lemma placedWithoutConflict_bounds (ws : list GridWord) :
  placedWithoutConflict ws →
  ∀ pw, pw ∈ ws →
    ¬ boundsFail (GridWord.word pw) (GridWord.row pw) (GridWord.col pw)
        (GridWord.direction pw).
Proof.
  induction 1 as [|ws w cl r0 c0 dir n _ IH Hcan|ws index _ IH]; intros pw Hin.
  - by apply not_elem_of_nil in Hin.
  - apply elem_of_app in Hin as [Hin|Hin]; [by apply IH|].
    apply list_elem_of_singleton in Hin as ->. simpl.
    by apply canPlaceWord_true in Hcan as [? _].
  - apply elem_of_renumber in Hin as (pw0 & Hin0 & Hpos).
    unfold position in Hpos. injection Hpos as -> _ -> -> ->.
    apply IH. by apply list_elem_of_delete_inv in Hin0.
Qed.

(** X20: [canPlaceWord] does not notice that a word is already on the grid:
    in a list placed without conflict, placing any placed word again on its
    own cells is accepted. *)
Theorem canPlaceWord_accepts_duplicate (ws : list GridWord) (pw : GridWord) :
  placedWithoutConflict ws → pw ∈ ws →
  canPlaceWord ws (GridWord.word pw) (GridWord.row pw) (GridWord.col pw)
    (GridWord.direction pw) = true.
Proof.
  intros Hpwc Hin. apply canPlaceWord_true.
  split; [by apply (placedWithoutConflict_bounds ws)|].
  intros k ch Hk Hg.
  by rewrite (placedWithoutConflict_consistent ws Hpwc pw _ _ k Hin) in Hg.
Qed.

Lemma canPlaceWord_accepts_duplicate_witness :
  canPlaceWord ([] ++ [GridWord.mk "CAT" "pet" 2 3 horizontal 1]) "CAT" 2 3 horizontal
  = true.
Proof.
  apply (canPlaceWord_accepts_duplicate
           ([] ++ [GridWord.mk "CAT" "pet" 2 3 horizontal 1])
           (GridWord.mk "CAT" "pet" 2 3 horizontal 1)).
  - apply (pwc_place [] "CAT" "pet" 2 3 horizontal 1 pwc_empty). reflexivity.
  - left.
Defined.

(** X21: whatever [handleFinish] hands to [onSave] in a reachable state is
    the placed list with its numbers 1..N and the fixed 20 x 20 dimensions;
    nothing is saved exactly when some word is still available and the
    author declines the confirmation. *)
Theorem handleFinish_saves (confirmed : bool) (s : State) :
  reachable s →
  (handleFinish confirmed s = None ↔ availableWords s ≠ [] ∧ confirmed = false)
  ∧ ∀ ws rows cols,
      handleFinish confirmed s = Some (ws, rows, cols) →
      ws = placedWords s ∧ rows = 20 ∧ cols = 20
      ∧ numbers ws = seqZ 1 (Z.of_nat (length ws)).
Proof.
  intros Hreach. unfold handleFinish. split.
  - destruct (availableWords s) as [|w l]; simpl.
    + split; [done | by intros [? _]].
    + destruct confirmed; simpl; split; try done. by intros [_ ?].
  - intros ws rows cols.
    destruct (_ && _); [done|]. intros [= <- <- <-].
    repeat split. by apply reachable_dense.
Qed.

Lemma handleFinish_saves_witness :
  handleFinish false (reconcile (mkProps [InputWord.mk "CAT" "pet"] []) initialState)
  = None.
Proof.
  apply (handleFinish_saves false
           (reconcile (mkProps [InputWord.mk "CAT" "pet"] []) initialState)).
  - apply reach_reconcile, reach_initial.
  - split; [discriminate | reflexivity].
Defined.

(** *** renderGrid *)

Lemma arrayGet_lookup {A : Type} (a : list A) (i : Z) (x : A) :
  arrayGet a i = Some x ↔ 0 ≤ i ∧ a !! Z.to_nat i = Some x.
Proof.
  unfold arrayGet. destruct (Z.ltb_spec i 0); split.
  - done.
  - intros [? _]. lia.
  - intros Hx. by split.
  - by intros [_ ?].
Qed.

Lemma displayAt_set (d : DisplayGrid) (rowArr : list (option (option ascii)))
    (r c : Z) (v : option ascii) (r' c' : Z) :
  arrayGet d r = Some rowArr →
  0 ≤ c → (Z.to_nat c < length rowArr)%nat →
  displayAt (<[Z.to_nat r := arraySet rowArr c v]> d) r' c' =
  if decide (r' = r ∧ c' = c) then Some v else displayAt d r' c'.
Proof.
  intros Hrow Hc Hlen.
  pose proof Hrow as [Hr Hrow']%arrayGet_lookup.
  assert (Hset : arraySet rowArr c v = <[Z.to_nat c := Some v]> rowArr).
  { unfold arraySet. destruct (Z.ltb_spec c 0); [lia|].
    by rewrite (proj2 (Nat.ltb_lt _ _) Hlen). }
  rewrite Hset. unfold displayAt at 1. unfold arrayGet at 1.
  destruct (Z.ltb_spec r' 0) as [Hr'|Hr'].
  { rewrite decide_False by lia. unfold displayAt, arrayGet.
    destruct (Z.ltb_spec r' 0); [done|lia]. }
  destruct (decide (r' = r)) as [->|Hne].
  - rewrite list_lookup_insert_eq by (by eapply lookup_lt_Some).
    unfold displayAt. rewrite Hrow. unfold arrayGet.
    destruct (Z.ltb_spec c' 0) as [Hc'|Hc']; [by rewrite decide_False by lia|].
    destruct (decide (c' = c)) as [->|Hnc].
    + rewrite decide_True by done. by rewrite list_lookup_insert_eq.
    + rewrite decide_False by (by intros [_ ?]).
      by rewrite list_lookup_insert_ne by lia.
  - rewrite decide_False by (by intros [? _]).
    rewrite list_lookup_insert_ne by lia.
    unfold displayAt, arrayGet. destruct (Z.ltb_spec r' 0); [lia|done].
Qed.

Lemma displayShaped_set (d : DisplayGrid) (rowArr : list (option (option ascii)))
    (r c : Z) (v : option ascii) :
  displayShaped d → arrayGet d r = Some rowArr →
  0 ≤ c < GRID_SIZE →
  displayShaped (<[Z.to_nat r := arraySet rowArr c v]> d).
Proof.
  intros [Hlen Hrows] [Hr Hrow]%arrayGet_lookup Hc.
  destruct (Hrows _ _ Hrow) as [Hl Hfull].
  assert (Hset : arraySet rowArr c v = <[Z.to_nat c := Some v]> rowArr).
  { unfold arraySet. destruct (Z.ltb_spec c 0); [lia|].
    rewrite (proj2 (Nat.ltb_lt (Z.to_nat c) (length rowArr))); [done|]. rewrite Hl.
    unfold GRID_SIZE in *. lia. }
  rewrite Hset. split; [by rewrite length_insert|].
  intros i rowArr' Hi.
  destruct (decide (i = Z.to_nat r)) as [->|Hne].
  - rewrite list_lookup_insert_eq in Hi by (by eapply lookup_lt_Some).
    injection Hi as <-. rewrite length_insert. split; [done|].
    intros j x Hj. destruct (decide (j = Z.to_nat c)) as [->|Hnj].
    + rewrite list_lookup_insert_eq in Hj by (rewrite Hl; unfold GRID_SIZE in *; lia).
      injection Hj as <-. by eexists.
    + rewrite list_lookup_insert_ne in Hj by done. by eapply Hfull.
  - rewrite list_lookup_insert_ne in Hi by done. by eapply Hrows.
Qed.

Lemma displayShaped_row (d : DisplayGrid) (r : Z) :
  displayShaped d → 0 ≤ r < GRID_SIZE →
  ∃ rowArr, arrayGet d r = Some rowArr ∧ length rowArr = Z.to_nat GRID_SIZE.
Proof.
  intros [Hlen Hrows] Hr.
  destruct (lookup_lt_is_Some_2 d (Z.to_nat r)) as [rowArr Hrow]; [lia|].
  exists rowArr. split; [|by apply (Hrows _ _ Hrow)].
  apply arrayGet_lookup. split; [lia|done].
Qed.

(** The letters of one word go to the cells of its span, and only there. *)
Lemma renderGrid_loop_spec (pw : GridWord) (todo : nat) :
  ∀ i d,
    displayShaped d →
    (∀ k, i ≤ k < i + Z.of_nat todo →
       0 ≤ spanRow (GridWord.direction pw) (GridWord.row pw) k < GRID_SIZE
       ∧ 0 ≤ spanCol (GridWord.direction pw) (GridWord.col pw) k < GRID_SIZE) →
    ∃ d', renderGrid_loop pw i todo d = Normal d'
      ∧ displayShaped d'
      ∧ ∀ r c,
          (∀ k, i ≤ k < i + Z.of_nat todo →
             r = spanRow (GridWord.direction pw) (GridWord.row pw) k →
             c = spanCol (GridWord.direction pw) (GridWord.col pw) k →
             displayAt d' r c = Some (strGet (GridWord.word pw) k))
          ∧ (¬ (∃ k, i ≤ k < i + Z.of_nat todo
                ∧ r = spanRow (GridWord.direction pw) (GridWord.row pw) k
                ∧ c = spanCol (GridWord.direction pw) (GridWord.col pw) k) →
             displayAt d' r c = displayAt d r c).
Proof.
  induction todo as [|todo IH]; intros i d Hshape Hgrid.
  - exists d. split; [done|]. split; [done|]. intros r c. split; [|done]. intros k ?. lia.
  - cbn [renderGrid_loop].
    set (ri := spanRow (GridWord.direction pw) (GridWord.row pw) i).
    set (ci := spanCol (GridWord.direction pw) (GridWord.col pw) i).
    destruct (Hgrid i) as [Hri Hci]; [lia|]. fold ri ci in Hri, Hci.
    destruct (displayShaped_row d ri Hshape Hri) as (rowArr & Hrow & Hlen).
    rewrite Hrow.
    set (d1 := <[Z.to_nat ri := arraySet rowArr ci (strGet (GridWord.word pw) i)]> d).
    assert (Hd1 : ∀ r c, displayAt d1 r c =
              if decide (r = ri ∧ c = ci) then Some (strGet (GridWord.word pw) i)
              else displayAt d r c).
    { intros r c. apply displayAt_set; [done|lia|]. rewrite Hlen. unfold GRID_SIZE in *. lia. }
    assert (Huniq : ∀ k, ri = spanRow (GridWord.direction pw) (GridWord.row pw) k →
              ci = spanCol (GridWord.direction pw) (GridWord.col pw) k → k = i).
    { intros k. subst ri ci. destruct (GridWord.direction pw); simpl; lia. }
    destruct (IH (i + 1) d1) as (d' & Hrun & Hshape' & Hcells).
    { by apply displayShaped_set. }
    { intros k Hk. apply Hgrid. lia. }
    exists d'. split; [done|]. split; [done|]. intros r c.
    destruct (Hcells r c) as [Hin Hout].
    destruct (decide (r = ri ∧ c = ci)) as [[-> ->]|Hne].
    + split; [|intros Hno; exfalso; apply Hno; exists i; split; [lia|done]].
      intros k Hk Hkr Hkc. rewrite (Huniq k Hkr Hkc). rewrite Hout.
      2:{ intros (k' & Hk' & Hr' & Hc'). pose proof (Huniq k' Hr' Hc'). lia. }
      by rewrite Hd1, decide_True.
    + split.
      * intros k Hk Hkr Hkc.
        assert (k ≠ i) by (intros ->; by destruct Hne).
        apply Hin; [lia|done|done].
      * intros Hno. rewrite Hout, Hd1; [by rewrite decide_False|].
        intros (k & Hk & Hrc). apply Hno. exists k. split; [lia|done].
Qed.

Lemma getCharAt_single (pw : GridWord) (r c : Z) :
  (∀ k, covers pw r c k → getCharAt [pw] r c = strGet (GridWord.word pw) k)
  ∧ ((∀ k, ¬ covers pw r c k) → getCharAt [pw] r c = None).
Proof.
  destruct (getCharAt_cons_cases pw [] r c) as [(k & Hk & ->)|[Hno ->]]; split.
  - intros k' Hk'. by rewrite (covers_offset_unique _ _ _ _ _ Hk' Hk).
  - intros Hno. by destruct (Hno k).
  - intros k Hk. by destruct (Hno k).
  - done.
Qed.

(** All words, in order: a later word overwrites an earlier one. *)
Lemma renderGrid_words_spec (ws : list GridWord) :
  spansOnGrid ws →
  ∀ d, displayShaped d →
    ∃ d', renderGrid_words ws d = Normal d'
      ∧ displayShaped d'
      ∧ ∀ r c,
          displayAt d' r c =
          match getCharAt (reverse ws) r c with
          | Some ch => Some (Some ch)
          | None => displayAt d r c
          end.
Proof.
  induction ws as [|pw rest IH]; intros Hspans d Hshape.
  - exists d. split; [done|]. by split.
  - cbn [renderGrid_words].
    destruct (renderGrid_loop_spec pw (String.length (GridWord.word pw)) 0 d Hshape)
      as (d1 & -> & Hshape1 & Hcells1).
    { intros k Hk. apply (Hspans pw _ _ k); [by left|]. unfold covers, strLength. lia. }
    destruct (IH (fun pw' r c k Hin => Hspans pw' r c k (list_elem_of_further _ _ _ Hin))
                d1 Hshape1) as (d' & Hrun & Hshape' & Hcells).
    exists d'. split; [done|]. split; [done|]. intros r c.
    rewrite Hcells, reverse_cons, getCharAt_app.
    destruct (getCharAt (reverse rest) r c) as [ch|]; [done|].
    destruct (Hcells1 r c) as [Hin Hout].
    destruct (getCharAt_single pw r c) as [Hcov Hnocov].
    destruct (getCharAt_cons_cases pw [] r c) as [(k & Hk & Heq)|[Hno Heq]].
    + rewrite (Hin k); [|unfold covers, strLength in Hk; lia|apply Hk|apply Hk].
      rewrite (Hcov k Hk).
      destruct (strGet_in_range (GridWord.word pw) k) as [ch ->]; [apply Hk | done].
    + rewrite (Hnocov Hno), Hout; [done|].
      intros (k & Hk & Hr & Hc). apply (Hno k). unfold covers, strLength. split; [lia|done].
Qed.

Lemma displayShaped_blank :
  displayShaped
    (replicate (Z.to_nat GRID_SIZE) (replicate (Z.to_nat GRID_SIZE) (Some None))).
Proof.
  split; [by rewrite length_replicate|].
  intros i rowArr [-> _]%lookup_replicate. split; [by rewrite length_replicate|].
  intros j x [-> _]%lookup_replicate. by eexists.
Qed.

Lemma displayAt_blank (r c : Z) :
  0 ≤ r < GRID_SIZE → 0 ≤ c < GRID_SIZE →
  displayAt
    (replicate (Z.to_nat GRID_SIZE) (replicate (Z.to_nat GRID_SIZE) (Some None))) r c
  = Some None.
Proof.
  intros Hr Hc. unfold displayAt, arrayGet.
  destruct (Z.ltb_spec r 0); [lia|].
  rewrite lookup_replicate_2 by lia.
  destruct (Z.ltb_spec c 0); [lia|].
  by rewrite lookup_replicate_2 by lia.
Qed.

(** X22: when every span lies on the grid, [renderGrid] completes with 20
    rows of 20 cells and shows in each cell the letter of the last placed
    word, in list order, that covers it, or nothing when no word does. *)
Theorem renderGrid_shows_last (ws : list GridWord) :
  spansOnGrid ws →
  ∃ d, renderGrid ws = Normal d
    ∧ displayShaped d
    ∧ ∀ r c, 0 ≤ r < GRID_SIZE → 0 ≤ c < GRID_SIZE →
        displayAt d r c = Some (getCharAt (reverse ws) r c).
Proof.
  intros Hspans.
  destruct (renderGrid_words_spec ws Hspans _ displayShaped_blank)
    as (d & Hrun & Hshape & Hcells).
  exists d. split; [done|]. split; [done|]. intros r c Hr Hc.
  rewrite Hcells, displayAt_blank by done. by destruct (getCharAt _ r c).
Qed.

Lemma renderGrid_shows_last_witness :
  ∃ d, renderGrid [GridWord.mk "CAT" "pet" 0 0 horizontal 1;
                   GridWord.mk "DOG" "barks" 0 0 vertical 2] = Normal d
    ∧ displayShaped d
    ∧ ∀ r c, 0 ≤ r < GRID_SIZE → 0 ≤ c < GRID_SIZE →
        displayAt d r c
        = Some (getCharAt (reverse [GridWord.mk "CAT" "pet" 0 0 horizontal 1;
                                    GridWord.mk "DOG" "barks" 0 0 vertical 2]) r c).
Proof.
  apply (renderGrid_shows_last [GridWord.mk "CAT" "pet" 0 0 horizontal 1;
                                GridWord.mk "DOG" "barks" 0 0 vertical 2]).
  intros pw r c k Hin (Hk & -> & ->).
  apply elem_of_cons in Hin as [->|Hin].
  - unfold strLength, GRID_SIZE in *. simpl in *. lia.
  - apply list_elem_of_singleton in Hin as ->.
    unfold strLength, GRID_SIZE in *. simpl in *. lia.
Defined.

Lemma placedOnGrid_spec (ws : list GridWord) :
  placedOnGrid ws → placedWithoutConflict ws ∧ spansOnGrid ws.
Proof.
  induction 1 as [|ws w cl r0 c0 dir n _ [IHc IHg] Hr Hc Hcan|ws index _ [IHc IHg]].
  - split; [constructor|]. intros pw r c k Hin. by apply not_elem_of_nil in Hin.
  - split; [by constructor|]. intros pw r c k Hin Hcov.
    apply elem_of_app in Hin as [Hin|Hin]; [by eapply IHg|].
    apply list_elem_of_singleton in Hin as ->.
    apply canPlaceWord_true in Hcan as [Hb _].
    destruct Hcov as (Hk & -> & ->). simpl in *.
    unfold boundsFail in Hb. destruct dir; simpl; split; try done.
    + split; [lia|]. destruct (Z_gt_dec (c0 + strLength w) GRID_SIZE) as [Hgt|]; [|lia].
      exfalso. apply Hb. by left.
    + split; [lia|]. destruct (Z_gt_dec (r0 + strLength w) GRID_SIZE) as [Hgt|]; [|lia].
      exfalso. apply Hb. by right.
  - split; [by constructor|]. intros pw r c k Hin Hcov.
    apply elem_of_renumber in Hin as (pw0 & Hin0 & Hpos).
    apply (covers_position pw0) in Hcov; [|done].
    apply (IHg pw0 r c k); [|done]. by apply list_elem_of_delete_inv in Hin0.
Qed.

Lemma getCharAt_reverse (ws : list GridWord) (r c : Z) :
  placedWithoutConflict ws → getCharAt (reverse ws) r c = getCharAt ws r c.
Proof.
  intros Hpwc. destruct (getCharAt (reverse ws) r c) as [ch|] eqn:Hrev.
  - apply getCharAt_Some_covers in Hrev as (pw & k & Hin & Hcov & Hch).
    rewrite elem_of_reverse in Hin.
    by rewrite (placedWithoutConflict_consistent ws Hpwc pw r c k Hin Hcov).
  - symmetry. apply getCharAt_None_iff. intros pw k Hin.
    rewrite getCharAt_None_iff in Hrev. apply Hrev. by rewrite elem_of_reverse.
Qed.

(** X23: for words placed by clicks on the grid the author sees what the
    validator checks: [renderGrid] completes and shows in every cell of the
    20 x 20 grid exactly the character [getCharAt] returns for it, nothing
    where it returns null. *)
Theorem renderGrid_shows_getCharAt (ws : list GridWord) :
  placedOnGrid ws →
  ∃ d, renderGrid ws = Normal d
    ∧ displayShaped d
    ∧ ∀ r c, 0 ≤ r < GRID_SIZE → 0 ≤ c < GRID_SIZE →
        displayAt d r c = Some (getCharAt ws r c).
Proof.
  intros [Hpwc Hspans]%placedOnGrid_spec.
  destruct (renderGrid_words_spec ws Hspans _ displayShaped_blank)
    as (d & Hrun & Hshape & Hcells).
  exists d. split; [done|]. split; [done|]. intros r c Hr Hc.
  rewrite Hcells, displayAt_blank, getCharAt_reverse by done.
  by destruct (getCharAt ws r c).
Qed.

Lemma renderGrid_shows_getCharAt_witness :
  ∃ d, renderGrid (([] ++ [GridWord.mk "CAT" "pet" 0 0 horizontal 1])
                   ++ [GridWord.mk "COW" "farm" 0 0 vertical 2]) = Normal d
    ∧ displayShaped d
    ∧ ∀ r c, 0 ≤ r < GRID_SIZE → 0 ≤ c < GRID_SIZE →
        displayAt d r c
        = Some (getCharAt (([] ++ [GridWord.mk "CAT" "pet" 0 0 horizontal 1])
                           ++ [GridWord.mk "COW" "farm" 0 0 vertical 2]) r c).
Proof.
  apply (renderGrid_shows_getCharAt
           (([] ++ [GridWord.mk "CAT" "pet" 0 0 horizontal 1])
            ++ [GridWord.mk "COW" "farm" 0 0 vertical 2])).
  apply pog_place; [|unfold GRID_SIZE; lia|unfold GRID_SIZE; lia|reflexivity].
  apply (pog_place [] "CAT" "pet" 0 0 horizontal 1 pog_empty);
    [unfold GRID_SIZE; lia|unfold GRID_SIZE; lia|reflexivity].
Defined.

Lemma renderGrid_loop_length (pw : GridWord) (todo : nat) :
  ∀ i d, match renderGrid_loop pw i todo d with
         | Normal d' => length d' = length d
         | Throw e => e = TypeError
         end.
Proof.
  induction todo as [|todo IH]; intros i d; [done|].
  cbn [renderGrid_loop]. destruct (arrayGet d _) as [rowArr|]; [|done].
  specialize (IH (i + 1)
    (<[Z.to_nat (spanRow (GridWord.direction pw) (GridWord.row pw) i) :=
         arraySet rowArr (spanCol (GridWord.direction pw) (GridWord.col pw) i)
           (strGet (GridWord.word pw) i)]> d)).
  destruct (renderGrid_loop pw (i + 1) todo _); [|done].
  by rewrite IH, length_insert.
Qed.

Lemma renderGrid_words_off_grid (ws : list GridWord) (pw : GridWord) :
  pw ∈ ws → GridWord.word pw ≠ EmptyString →
  ¬ (0 ≤ GridWord.row pw < GRID_SIZE) →
  ∀ d, length d = Z.to_nat GRID_SIZE → renderGrid_words ws d = Throw TypeError.
Proof.
  intros Hin Hne Hrow.
  induction ws as [|pw' rest IH]; intros d Hlen; [by apply not_elem_of_nil in Hin|].
  cbn [renderGrid_words].
  apply elem_of_cons in Hin as [<-|Hin].
  - destruct (GridWord.word pw) as [|a w] eqn:Hw; [done|].
    cbn [String.length renderGrid_loop].
    assert (Hr : spanRow (GridWord.direction pw) (GridWord.row pw) 0 = GridWord.row pw)
      by (destruct (GridWord.direction pw); simpl; lia).
    rewrite Hr.
    assert (Hnone : arrayGet d (GridWord.row pw) = None).
    { unfold arrayGet. destruct (Z.ltb_spec (GridWord.row pw) 0); [done|].
      apply lookup_ge_None. rewrite Hlen. unfold GRID_SIZE in *. lia. }
    by rewrite Hnone.
  - pose proof (renderGrid_loop_length pw' (String.length (GridWord.word pw')) 0 d) as Hl.
    destruct (renderGrid_loop pw' 0 _ d) as [d1|e]; [|by rewrite Hl].
    apply IH; [done|]. by rewrite Hl.
Qed.

(** X24: a placed word of at least one letter whose row is not one of the
    grid's 20 rows (the reconciliation accepts such a stored position
    unchecked) makes [renderGrid] throw a [TypeError]: the builder cannot
    render. *)
Theorem renderGrid_off_grid_row (ws : list GridWord) (pw : GridWord) :
  pw ∈ ws → GridWord.word pw ≠ EmptyString →
  ¬ (0 ≤ GridWord.row pw < GRID_SIZE) →
  renderGrid ws = Throw TypeError.
Proof.
  intros Hin Hne Hrow. unfold renderGrid.
  apply (renderGrid_words_off_grid ws pw Hin Hne Hrow). by rewrite length_replicate.
Qed.

Lemma renderGrid_off_grid_row_witness :
  renderGrid
    (placedWords
       (reconcile (mkProps [InputWord.mk "CAT" "pet"]
                     [Position.mk "CAT" "pet" 20 0 horizontal]) initialState))
  = Throw TypeError.
Proof.
  apply (renderGrid_off_grid_row _ (GridWord.mk "CAT" "pet" 20 0 horizontal 1)).
  - left.
  - discriminate.
  - unfold GRID_SIZE. simpl. lia.
Defined.


(** ** The bounds tests and the cells that can be clicked *)

Lemma renderGrid_words_length (ws : list GridWord) :
  ∀ d d', renderGrid_words ws d = Normal d' → length d' = length d.
Proof.
  induction ws as [|pw rest IH]; intros d d'; [by intros [= <-]|].
  cbn [renderGrid_words].
  pose proof (renderGrid_loop_length pw (String.length (GridWord.word pw)) 0 d) as Hl.
  destruct (renderGrid_loop pw 0 _ d) as [d1|e]; [|done].
  intros Hrun. by rewrite (IH _ _ Hrun).
Qed.

(** [renderGrid] never adds a row and no index is negative: a cell that can
    be clicked has a row index of the grid and a column index from 0 on. *)
Lemma clickable_row (ws : list GridWord) (r c : Z) :
  clickable ws r c → 0 ≤ r < GRID_SIZE ∧ 0 ≤ c.
Proof.
  intros (d & Hrun & [v Hv]).
  apply renderGrid_words_length in Hrun. rewrite length_replicate in Hrun.
  unfold displayAt in Hv.
  destruct (arrayGet d r) as [rowArr|] eqn:Hrow; [|done].
  destruct (arrayGet rowArr c) as [[x|]|] eqn:Hcell; [|done|done].
  apply arrayGet_lookup in Hrow as [Hr Hrow]. apply arrayGet_lookup in Hcell as [Hc _].
  apply lookup_lt_Some in Hrow. unfold GRID_SIZE in *. lia.
Qed.

(** While every span lies on the grid, the cells that can be clicked are
    cells of the grid. *)
Lemma clickable_on_grid (ws : list GridWord) (r c : Z) :
  spansOnGrid ws → clickable ws r c → 0 ≤ r < GRID_SIZE ∧ 0 ≤ c < GRID_SIZE.
Proof.
  intros Hspans Hclick.
  destruct (clickable_row ws r c Hclick) as [Hr Hc]. split; [done|]. split; [done|].
  destruct Hclick as (d & Hrun & [v Hv]).
  destruct (renderGrid_words_spec ws Hspans _ displayShaped_blank)
    as (d' & Hrun' & [_ Hrows] & _).
  unfold renderGrid in Hrun. rewrite Hrun' in Hrun. injection Hrun as ->.
  unfold displayAt in Hv.
  destruct (arrayGet d r) as [rowArr|] eqn:Hrow; [|done].
  destruct (arrayGet rowArr c) as [[x|]|] eqn:Hcell; [|done|done].
  apply arrayGet_lookup in Hrow as [_ Hrow]. apply arrayGet_lookup in Hcell as [_ Hcell].
  destruct (Hrows _ _ Hrow) as [Hlen _].
  apply lookup_lt_Some in Hcell. unfold GRID_SIZE in *. lia.
Qed.

(** From an origin inside the grid, a span that leaves the grid fails one
    of the two bounds tests. *)
Lemma boundsFail_leaves_grid (w : string) (r c : Z) (dir : Direction) :
  0 ≤ r < GRID_SIZE → 0 ≤ c < GRID_SIZE →
  (∃ i, 0 ≤ i < strLength w
     ∧ ¬ (0 ≤ spanRow dir r i < GRID_SIZE ∧ 0 ≤ spanCol dir c i < GRID_SIZE)) →
  boundsFail w r c dir.
Proof.
  intros Hr Hc (i & Hi & Hout).
  unfold boundsFail. destruct dir; simpl in Hout; [left|right]; split; try done; lia.
Qed.

(** A word accepted at an origin inside the grid stays on the grid. *)
Lemma spansOnGrid_place (ws : list GridWord) (w cl : string) (r c : Z)
    (dir : Direction) (n : Z) :
  spansOnGrid ws →
  0 ≤ r < GRID_SIZE → 0 ≤ c < GRID_SIZE →
  canPlaceWord ws w r c dir = true →
  spansOnGrid (ws ++ [GridWord.mk w cl r c dir n]).
Proof.
  intros Hspans Hr Hc Hcan pw r' c' k Hin Hcov.
  apply elem_of_app in Hin as [Hin|Hin]; [by eapply Hspans|].
  apply list_elem_of_singleton in Hin as ->.
  destruct (boundsFail_dec w r c dir) as [Hb|Hb].
  { by rewrite canPlaceWord_bounds in Hcan. }
  destruct Hcov as (Hk & -> & ->). simpl in *.
  unfold boundsFail in Hb. destruct dir; simpl; split; try done.
  - split; [lia|]. destruct (Z_gt_dec (c + strLength w) GRID_SIZE) as [Hgt|]; [|lia].
    exfalso. apply Hb. by left.
  - split; [lia|]. destruct (Z_gt_dec (r + strLength w) GRID_SIZE) as [Hgt|]; [|lia].
    exfalso. apply Hb. by right.
Qed.

(** C2, as the code has it.  [canPlaceWord] returns false when the far end
    of the span passes the last column (horizontal) or the last row
    (vertical), hence, from an origin inside the grid, whenever some cell
    of the span lies outside the grid.  It tests nothing else of the
    origin: it is called for the cells that [renderGrid] renders, whose row
    index is one of the grid's and whose column index is not negative.
    While every placed span lies on the grid these are the cells of the
    grid, so there every placement with a cell outside the grid is
    rejected, and an accepted word lies on the grid again. *)
Theorem canPlaceWord_bounds_check (ws : list GridWord) (w : string) (r c : Z)
    (dir : Direction) :
  (dir = horizontal → c + strLength w > GRID_SIZE → canPlaceWord ws w r c dir = false)
  ∧ (dir = vertical → r + strLength w > GRID_SIZE → canPlaceWord ws w r c dir = false)
  ∧ (0 ≤ r < GRID_SIZE → 0 ≤ c < GRID_SIZE →
     (∃ i, 0 ≤ i < strLength w
        ∧ ¬ (0 ≤ spanRow dir r i < GRID_SIZE ∧ 0 ≤ spanCol dir c i < GRID_SIZE)) →
     canPlaceWord ws w r c dir = false)
  ∧ (clickable ws r c → 0 ≤ r < GRID_SIZE ∧ 0 ≤ c)
  ∧ (spansOnGrid ws → clickable ws r c →
     c < GRID_SIZE
     ∧ ((∃ i, 0 ≤ i < strLength w
           ∧ ¬ (0 ≤ spanRow dir r i < GRID_SIZE ∧ 0 ≤ spanCol dir c i < GRID_SIZE)) →
        canPlaceWord ws w r c dir = false)
     ∧ (canPlaceWord ws w r c dir = true →
        ∀ cl n, spansOnGrid (ws ++ [GridWord.mk w cl r c dir n]))).
Proof.
  split; [|split; [|split; [|split]]].
  - intros Hd Hc. apply canPlaceWord_bounds. by left.
  - intros Hd Hr. apply canPlaceWord_bounds. by right.
  - intros Hr Hc Hout. by apply canPlaceWord_bounds, boundsFail_leaves_grid.
  - apply clickable_row.
  - intros Hspans Hclick.
    destruct (clickable_on_grid ws r c Hspans Hclick) as [Hr Hc].
    split; [lia|]. split.
    + intros Hout. by apply canPlaceWord_bounds, boundsFail_leaves_grid.
    + intros Hcan cl n. by apply spansOnGrid_place.
Qed.

Lemma canPlaceWord_bounds_check_witness :
  canPlaceWord [GridWord.mk "COW" "farm" 0 0 vertical 1] "CAT" 0 18 horizontal = false.
Proof.
  destruct (canPlaceWord_bounds_check [GridWord.mk "COW" "farm" 0 0 vertical 1]
              "CAT" 0 18 horizontal) as (_ & _ & _ & _ & H).
  destruct H as (_ & H & _).
  - intros pw r c k Hin Hcov. apply list_elem_of_singleton in Hin as ->.
    destruct Hcov as (Hk & -> & ->). unfold strLength, GRID_SIZE in *. simpl in *. lia.
  - eexists. split; [vm_compute; reflexivity|]. vm_compute. by eexists.
  - apply H. exists 2. unfold strLength, GRID_SIZE. simpl. lia.
Defined.

(** C2 does not hold for every origin [canPlaceWord] is called with.  After
    the reconciliation has taken over the stored position of AB, which ends
    in column 20, row 0 of the rendered grid has a 21st cell.  A click on
    it with BA selected, vertical, calls [canPlaceWord] for a span that
    lies in column 20, outside the grid: it is accepted and BA is placed
    there. *)
Lemma canPlaceWord_off_grid_column_counterexample :
  reachable spillState
  ∧ clickable (placedWords spillState) 0 20
  ∧ (0 ≤ 0 < strLength "BA"
     ∧ ¬ (0 ≤ spanRow vertical 0 0 < GRID_SIZE ∧ 0 ≤ spanCol vertical 20 0 < GRID_SIZE))
  ∧ canPlaceWord (placedWords spillState) "BA" 0 20 vertical = true
  ∧ placedWords (handleCellClick spillProps spillState 0 20)
    = placedWords spillState ++ [GridWord.mk "BA" "second" 0 20 vertical 2].
Proof.
  split; [|split; [|split; [|split]]].
  - apply reach_select, reach_toggle, reach_reconcile, reach_initial.
  - eexists. split; [vm_compute; reflexivity|]. vm_compute. by eexists.
  - unfold strLength, GRID_SIZE. simpl. lia.
  - reflexivity.
  - reflexivity.
Qed.

End GridBuilderFacts.

(** * Properties of the crossword player *)

Module PlayCrosswordFacts.
Import PlayCrossword.

(** *** Arrays and grids *)

Lemma arrayGet_Some {A : Type} (a : list A) (i : Z) (x : A) :
  arrayGet a i = Some x ↔ 0 ≤ i ∧ a !! Z.to_nat i = Some x.
Proof.
  unfold arrayGet. destruct (Z.ltb_spec i 0); split.
  - done.
  - intros [? _]. lia.
  - intros Hx. by split.
  - by intros [_ ?].
Qed.

Lemma cellAt_Some (g : Grid) (r c : Z) (cell : CellData.t) :
  cellAt g r c = Some cell ↔
  ∃ rowArr, arrayGet g r = Some rowArr ∧ arrayGet rowArr c = Some cell.
Proof.
  unfold cellAt. destruct (arrayGet g r) as [rowArr|]; split.
  - intros H. by exists rowArr.
  - by intros (rowArr' & [= <-] & H).
  - done.
  - by intros (? & ? & _).
Qed.

(** Writing an existing cell changes that cell and no other. *)
Lemma cellAt_gridSet (g : Grid) (r c : Z) (x : CellData.t) (r' c' : Z) :
  is_Some (cellAt g r c) →
  cellAt (gridSet g r c x) r' c' =
  if decide (r' = r ∧ c' = c) then Some x else cellAt g r' c'.
Proof.
  intros [old Hold]. apply cellAt_Some in Hold as (rowArr & Hrow & Hcell).
  unfold gridSet. rewrite Hrow.
  apply arrayGet_Some in Hrow as [Hr Hrow]. apply arrayGet_Some in Hcell as [Hc Hcell].
  unfold cellAt at 1. unfold arrayGet at 1.
  destruct (Z.ltb_spec r' 0) as [Hr'|Hr'].
  { rewrite decide_False by lia. unfold cellAt, arrayGet.
    destruct (Z.ltb_spec r' 0); [done|lia]. }
  destruct (decide (r' = r)) as [->|Hne].
  - rewrite list_lookup_insert_eq by (by eapply lookup_lt_Some).
    unfold arrayGet at 1. destruct (Z.ltb_spec c' 0) as [Hc'|Hc'].
    { rewrite decide_False by lia. unfold cellAt. rewrite (proj2 (arrayGet_Some g r rowArr)) by done.
      unfold arrayGet. destruct (Z.ltb_spec c' 0); [done|lia]. }
    destruct (decide (c' = c)) as [->|Hnc].
    + rewrite decide_True by done.
      by rewrite list_lookup_insert_eq by (by eapply lookup_lt_Some).
    + rewrite decide_False by (intros [_ ?]; done).
      rewrite list_lookup_insert_ne by lia.
      unfold cellAt. rewrite (proj2 (arrayGet_Some g r rowArr)) by done.
      unfold arrayGet. destruct (Z.ltb_spec c' 0); [lia|done].
  - rewrite decide_False by (intros [? _]; done).
    rewrite list_lookup_insert_ne by lia.
    unfold cellAt, arrayGet. destruct (Z.ltb_spec r' 0); [lia|done].
Qed.

Lemma shaped_gridSet (rows cols : Z) (g : Grid) (r c : Z) (x : CellData.t) :
  shaped rows cols g → shaped rows cols (gridSet g r c x).
Proof.
  intros [Hlen Hrows]. unfold gridSet.
  destruct (arrayGet g r) as [rowArr|] eqn:Hrow; [|done].
  apply arrayGet_Some in Hrow as [Hr Hrow].
  split; [by rewrite length_insert|].
  intros i rowArr' Hi.
  destruct (decide (i = Z.to_nat r)) as [->|Hne].
  - rewrite list_lookup_insert_eq in Hi by (by eapply lookup_lt_Some).
    injection Hi as <-. rewrite length_insert. by eapply Hrows.
  - rewrite list_lookup_insert_ne in Hi by done. by eapply Hrows.
Qed.

Lemma shaped_cellAt (rows cols : Z) (g : Grid) (r c : Z) :
  shaped rows cols g →
  (is_Some (cellAt g r c) ↔ 0 ≤ r < rows ∧ 0 ≤ c < cols).
Proof.
  intros [Hlen Hrows]. split.
  - intros [cell (rowArr & Hrow & Hcell)%cellAt_Some].
    apply arrayGet_Some in Hrow as [Hr Hrow]. apply arrayGet_Some in Hcell as [Hc Hcell].
    pose proof (Hrows _ _ Hrow) as Hl.
    apply lookup_lt_Some in Hrow. apply lookup_lt_Some in Hcell. lia.
  - intros [Hr Hc].
    destruct (lookup_lt_is_Some_2 g (Z.to_nat r)) as [rowArr Hrow]; [lia|].
    pose proof (Hrows _ _ Hrow) as Hl.
    destruct (lookup_lt_is_Some_2 rowArr (Z.to_nat c)) as [cell Hcell]; [lia|].
    exists cell. apply cellAt_Some. exists rowArr.
    split; apply arrayGet_Some; (split; [lia|done]).
Qed.


(** *** handleRestart *)

Lemma cellAt_fmap (f : CellData.t → CellData.t) (g : Grid) (r c : Z) :
  cellAt ((fun rowArr : list CellData.t => f <$> rowArr) <$> g) r c
  = f <$> cellAt g r c.
Proof.
  unfold cellAt, arrayGet. destruct (r <? 0); [done|].
  rewrite list_lookup_fmap. destruct (g !! Z.to_nat r) as [rowArr|]; [|done]. simpl.
  destruct (c <? 0); [done|]. by rewrite list_lookup_fmap.
Qed.

(** C7: [handleRestart] zeroes the timer, blanks every cell's character
    and correctness flag, and keeps the game (with its word list), the
    grid's rows, and every cell's active mask, clue number and word ids. *)
Theorem handleRestart_spec (s : State) :
  timer (handleRestart s) = 0
  ∧ game (handleRestart s) = game s
  ∧ length (grid (handleRestart s)) = length (grid s)
  ∧ ∀ r c,
      match cellAt (grid s) r c with
      | Some cell =>
        ∃ cell', cellAt (grid (handleRestart s)) r c = Some cell'
          ∧ CellData.char cell' = EmptyString
          ∧ CellData.isCorrect cell' = None
          ∧ CellData.isActive cell' = CellData.isActive cell
          ∧ CellData.number cell' = CellData.number cell
          ∧ CellData.wordIds cell' = CellData.wordIds cell
      | None => cellAt (grid (handleRestart s)) r c = None
      end.
Proof.
  repeat split; simpl.
  - by rewrite length_fmap.
  - intros r c. rewrite cellAt_fmap.
    destruct (cellAt (grid s) r c) as [cell|]; [|done].
    by exists (resetCell cell).
Qed.

(** *** The pause and finish gate *)

(** C8: while the puzzle is paused or finished, the three input handlers
    return the state they were given: no character, selection, focus or
    direction changes, whatever the cell, value or key. *)
Theorem input_handlers_gated (toUpperCase : string → string) (s : State)
    (r c : Z) (val key : string) :
  isPaused s = true ∨ isFinished s = true →
  snd (handleInputChange toUpperCase s r c val) = s
  ∧ snd (handleKeyDown s key r c) = s
  ∧ snd (handleCellClick s r c) = s.
Proof.
  intros Hgate.
  assert (Hor : isPaused s || isFinished s = true)
    by (destruct Hgate as [-> | ->]; [done | apply orb_true_r]).
  split; [|split].
  - unfold handleInputChange. destruct (cellAt (grid s) r c) as [cell|]; [|done].
    by rewrite <- orb_assoc, Hor, orb_true_r.
  - unfold handleKeyDown. by rewrite Hor.
  - unfold handleCellClick. destruct (cellAt (grid s) r c) as [cell|]; [|done].
    by rewrite <- orb_assoc, Hor, orb_true_r.
Qed.

Lemma input_handlers_gated_witness :
  let s :=
    mkState None [[CellData.mk true "A" (Some 1) ["w1"%string] None]]
      false false 7 true false (Some (0, 0)) horizontal (Some (0, 0)) in
  snd (handleInputChange upperAscii s 0 0 "b") = s
  ∧ snd (handleKeyDown s "ArrowRight" 0 0) = s
  ∧ snd (handleCellClick s 0 0) = s.
Proof.
  intros s. apply (input_handlers_gated upperAscii s 0 0 "b" "ArrowRight").
  left. reflexivity.
Defined.


(** *** moveFocus *)

Lemma outside_false_iff (cl : State) (r c : Z) :
  (r <? 0) || (r >=? gameRows cl) || (c <? 0) || (c >=? gameCols cl) = false
  ↔ inBounds cl r c.
Proof.
  unfold inBounds. rewrite !orb_false_iff, !Z.ltb_ge, !Z.geb_leb, !Z.leb_gt. lia.
Qed.

Lemma scan_shift (dir : Direction) (r c step k : Z) :
  scanRow dir (scanRow dir r step 1) step k = scanRow dir r step (k + 1)
  ∧ scanCol dir (scanCol dir c step 1) step k = scanCol dir c step (k + 1).
Proof. destruct dir; simpl; lia. Qed.

Lemma scan_first (dir : Direction) (r c step : Z) :
  match dir with horizontal => r | vertical => r + step end = scanRow dir r step 1
  ∧ match dir with horizontal => c + step | vertical => c end = scanCol dir c step 1.
Proof. destruct dir; simpl; lia. Qed.

(** The loop is over as soon as the remaining attempts fit in the fuel. *)
Lemma moveFocus_loop_is_Some (cl : State) (step : Z) (dir : Direction) (fuel : nat) :
  ∀ currR currC found attempts st,
    50 - attempts ≤ Z.of_nat fuel →
    is_Some (moveFocus_loop cl step dir fuel currR currC found attempts st).
Proof.
  induction fuel as [|fuel IH]; intros currR currC found attempts st Hfuel.
  - simpl. destruct found; simpl; [by eexists|].
    destruct (Z.ltb_spec attempts 50); [lia | by eexists].
  - cbn [moveFocus_loop].
    destruct (negb found && (attempts <? 50)); [|by eexists].
    destruct (_ || _ || _ || _); [by eexists|].
    destruct (arrayGet (grid cl) _) as [rowArr|]; [|by eexists].
    destruct (arrayGet rowArr _) as [cell|]; [destruct (CellData.isActive cell)|];
      apply IH; lia.
Qed.

(** More fuel does not change the outcome of a loop that has ended. *)
Lemma moveFocus_loop_more_fuel (cl : State) (step : Z) (dir : Direction) (fuel : nat) :
  ∀ fuel' currR currC found attempts st res,
    (fuel ≤ fuel')%nat →
    moveFocus_loop cl step dir fuel currR currC found attempts st = Some res →
    moveFocus_loop cl step dir fuel' currR currC found attempts st = Some res.
Proof.
  induction fuel as [|fuel IH]; intros fuel' currR currC found attempts st res Hle.
  - simpl. destruct fuel'; simpl; destruct (negb found && (attempts <? 50)); done.
  - destruct fuel' as [|fuel']; [lia|]. cbn [moveFocus_loop].
    destruct (negb found && (attempts <? 50)); [|done].
    destruct (_ || _ || _ || _); [done|].
    destruct (arrayGet (grid cl) _) as [rowArr|]; [|done].
    destruct (arrayGet rowArr _) as [cell|]; [destruct (CellData.isActive cell)|];
      apply IH; lia.
Qed.

Lemma moveFocus_loop_fuel (cl : State) (step : Z) (dir : Direction) (fuel : nat)
    (r c : Z) (st : State) :
  (50 ≤ fuel)%nat →
  is_Some (moveFocus_loop cl step dir 50 r c false 0 st)
  ∧ moveFocus_loop cl step dir fuel r c false 0 st
    = moveFocus_loop cl step dir 50 r c false 0 st.
Proof.
  intros Hfuel.
  destruct (moveFocus_loop_is_Some cl step dir 50 r c false 0 st) as [res Hres]; [lia|].
  split; [by exists res|].
  rewrite Hres. by apply (moveFocus_loop_more_fuel cl step dir 50).
Qed.

(** A scan that meets no active cell before it leaves the bounds or uses up
    its attempts ends with the effects it started with. *)
Lemma moveFocus_loop_no_target (cl : State) (step : Z) (dir : Direction) (fuel : nat) :
  ∀ currR currC attempts st res,
    (∀ k, 1 ≤ k ≤ 50 - attempts →
       (∀ j, 1 ≤ j ≤ k →
          inBounds cl (scanRow dir currR step j) (scanCol dir currC step j)) →
       activeAt (grid cl) (scanRow dir currR step k) (scanCol dir currC step k) = false) →
    moveFocus_loop cl step dir fuel currR currC false attempts st = Some res →
    snd res = st.
Proof.
  induction fuel as [|fuel IH]; intros currR currC attempts st res Hscan.
  - simpl. destruct (attempts <? 50); [done | by intros [= <-]].
  - cbn [moveFocus_loop]. simpl negb. rewrite andb_true_l.
    destruct (Z.ltb_spec attempts 50) as [Hatt|_]; [|by intros [= <-]].
    destruct (scan_first dir currR currC step) as [-> ->].
    destruct (_ || _ || _ || _) eqn:Hout; [by intros [= <-]|].
    apply outside_false_iff in Hout.
    assert (Hfirst : activeAt (grid cl) (scanRow dir currR step 1)
                       (scanCol dir currC step 1) = false).
    { apply Hscan; [lia|]. intros j Hj. by replace j with 1 by lia. }
    assert (Hnext : ∀ k, 1 ≤ k ≤ 50 - (attempts + 1) →
       (∀ j, 1 ≤ j ≤ k →
          inBounds cl (scanRow dir (scanRow dir currR step 1) step j)
            (scanCol dir (scanCol dir currC step 1) step j)) →
       activeAt (grid cl) (scanRow dir (scanRow dir currR step 1) step k)
         (scanCol dir (scanCol dir currC step 1) step k) = false).
    { intros k Hk Hin.
      destruct (scan_shift dir currR currC step k) as [-> ->].
      apply Hscan; [lia|]. intros j Hj.
      destruct (decide (j = 1)) as [->|Hne]; [exact Hout|].
      specialize (Hin (j - 1)).
      destruct (scan_shift dir currR currC step (j - 1)) as [E3 E4].
      rewrite E3, E4 in Hin. replace (j - 1 + 1) with j in Hin by lia.
      apply Hin. lia. }
    unfold activeAt, cellAt in Hfirst.
    destruct (arrayGet (grid cl) _) as [rowArr|]; [|by intros [= <-]].
    destruct (arrayGet rowArr _) as [cell|].
    + rewrite Hfirst. by apply IH.
    + by apply IH.
Qed.


Lemma moveFocus_loop_leaves (cl : State) (step : Z) (dir : Direction) (fuel : nat)
    (r c : Z) (st : State) :
  ¬ inBounds cl (scanRow dir r step 1) (scanCol dir c step 1) →
  moveFocus_loop cl step dir (S fuel) r c false 0 st = Some (Normal tt, st).
Proof.
  intros Hout. cbn [moveFocus_loop]. simpl negb. simpl andb.
  destruct (scan_first dir r c step) as [-> ->].
  destruct (_ || _ || _ || _) eqn:Htest; [done|].
  by apply outside_false_iff in Htest.
Qed.

(** C4: the scan of [moveFocus] is over within 50 iterations of its loop
    (more fuel changes nothing); if no active cell is met before the
    position leaves the bounds or the 50 attempts are used up, the effects
    are untouched (no focus call, no new selected cell); in particular a
    first step that leaves the bounds yields nothing. *)
Theorem moveFocus_bounded_scan (cl : State) (r c step : Z)
    (overrideDir : option Direction) (st : State) :
  (∀ fuel, (50 ≤ fuel)%nat →
     is_Some (moveFocus_loop cl step (scanDir cl overrideDir) 50 r c false 0 st)
     ∧ moveFocus_loop cl step (scanDir cl overrideDir) fuel r c false 0 st
       = moveFocus_loop cl step (scanDir cl overrideDir) 50 r c false 0 st)
  ∧ ((∀ k, 1 ≤ k ≤ 50 →
        (∀ j, 1 ≤ j ≤ k →
           inBounds cl (scanRow (scanDir cl overrideDir) r step j)
             (scanCol (scanDir cl overrideDir) c step j)) →
        activeAt (grid cl) (scanRow (scanDir cl overrideDir) r step k)
          (scanCol (scanDir cl overrideDir) c step k) = false) →
     snd (moveFocus cl r c step overrideDir st) = st)
  ∧ (¬ inBounds cl (scanRow (scanDir cl overrideDir) r step 1)
         (scanCol (scanDir cl overrideDir) c step 1) →
     moveFocus cl r c step overrideDir st = (Normal tt, st)).
Proof.
  split; [|split].
  - intros fuel Hfuel. by apply moveFocus_loop_fuel.
  - intros Hscan. unfold moveFocus.
    destruct (moveFocus_loop _ _ _ _ _ _ _ _ _) as [res|] eqn:Hres; [|done].
    apply (moveFocus_loop_no_target cl step (scanDir cl overrideDir) 50 r c 0 st res);
      [|done].
    intros k Hk. apply Hscan. lia.
  - intros Hout. unfold moveFocus.
    change 50%nat with (S 49). by rewrite moveFocus_loop_leaves.
Qed.

Lemma moveFocus_bounded_scan_witness :
  snd (moveFocus exampleState 2 0 1 (Some vertical) exampleState) = exampleState
  ∧ moveFocus exampleState 0 4 1 None exampleState = (Normal tt, exampleState).
Proof.
  split.
  - refine (proj1 (proj2 (moveFocus_bounded_scan exampleState 2 0 1 (Some vertical)
                            exampleState)) _).
    intros k Hk Hin.
    destruct (decide (k = 1)) as [->|]; [reflexivity|].
    destruct (decide (k = 2)) as [->|]; [reflexivity|].
    assert (H3 : 1 ≤ 3 ≤ k) by lia.
    destruct (Hin 3 H3) as [[_ Hr] _]. vm_compute in Hr. discriminate Hr.
  - refine (proj2 (proj2 (moveFocus_bounded_scan exampleState 0 4 1 None
                            exampleState)) _).
    intros [_ [_ Hc]]. vm_compute in Hc. discriminate Hc.
Defined.


(** *** initializeGrid *)

Lemma blankGrid_Normal (rows cols : Z) (g : Grid) :
  blankGrid rows cols = Normal g →
  shaped rows cols g ∧ ∀ r c cell, cellAt g r c = Some cell → cell = blankCell.
Proof.
  unfold blankGrid, validArrayLength.
  destruct (negb _) eqn:Hrows; [done|].
  destruct (Z.eqb_spec rows 0) as [->|Hnz].
  { intros [= <-]. split; [by split|]. intros r c cell.
    unfold cellAt, arrayGet. by destruct (r <? 0). }
  destruct (negb ((0 <=? cols) && _)) eqn:Hcols; [done|].
  intros [= <-]. split.
  - split; [by rewrite length_replicate|].
    intros i rowArr [-> _]%lookup_replicate. by rewrite length_replicate.
  - intros r c cell (rowArr & Hrow & Hcell)%cellAt_Some.
    apply arrayGet_Some in Hrow as [_ [-> _]%lookup_replicate].
    by apply arrayGet_Some in Hcell as [_ [-> _]%lookup_replicate].
Qed.

Lemma blankGrid_Throw (rows cols : Z) (e : exn) :
  blankGrid rows cols = Throw e → e = RangeError.
Proof.
  unfold blankGrid. destruct (negb _); [by intros [= <-]|].
  destruct (rows =? 0); [done|]. destruct (negb _); [by intros [= <-] | done].
Qed.

(** One word: with an origin at non-negative coordinates the loop
    completes, keeps the grid's shape, and activates exactly the cells of
    the grid that lie on the offsets it ran through. *)
Lemma initializeGrid_loop_spec (data : GameData.t) (word : WordData.t) (todo : nat) :
  0 ≤ WordData.row_index word → 0 ≤ WordData.col_index word →
  ∀ i g, 0 ≤ i →
    shaped (GameData.rows data) (GameData.cols data) g →
    ∃ g', initializeGrid_loop data word i todo g = Normal g'
      ∧ shaped (GameData.rows data) (GameData.cols data) g'
      ∧ ∀ r c cell', cellAt g' r c = Some cell' →
          ∃ cell, cellAt g r c = Some cell
            ∧ (CellData.isActive cell' = true ↔
               CellData.isActive cell = true
               ∨ ∃ k, i ≤ k < i + Z.of_nat todo
                   ∧ r = spanRow (WordData.direction word) (WordData.row_index word) k
                   ∧ c = spanCol (WordData.direction word) (WordData.col_index word) k).
Proof.
  intros Hrow Hcol. induction todo as [|todo IH]; intros i g Hi Hshape.
  - exists g. split; [done|]. split; [done|]. intros r c cell' Hcell.
    exists cell'. split; [done|]. split; [by left|].
    intros [?|(k & ? & _)]; [done|lia].
  - cbn [initializeGrid_loop].
    set (ri := spanRow (WordData.direction word) (WordData.row_index word) i).
    set (ci := spanCol (WordData.direction word) (WordData.col_index word) i).
    assert (Hri : 0 ≤ ri) by (subst ri; destruct (WordData.direction word); simpl; lia).
    assert (Hci : 0 ≤ ci) by (subst ci; destruct (WordData.direction word); simpl; lia).
    assert (Hsplit : ∀ r c, ¬ (r = ri ∧ c = ci) →
      ((∃ k, i + 1 ≤ k < i + 1 + Z.of_nat todo
          ∧ r = spanRow (WordData.direction word) (WordData.row_index word) k
          ∧ c = spanCol (WordData.direction word) (WordData.col_index word) k)
       ↔ ∃ k, i ≤ k < i + Z.of_nat (S todo)
          ∧ r = spanRow (WordData.direction word) (WordData.row_index word) k
          ∧ c = spanCol (WordData.direction word) (WordData.col_index word) k)).
    { intros r c Hne. split; intros (k & Hk & Hrc); exists k; (split; [|done]); [lia|].
      destruct (decide (k = i)) as [->|]; [by destruct Hne | lia]. }
    destruct ((ri <? GameData.rows data) && (ci <? GameData.cols data)) eqn:Hguard.
    + apply andb_true_iff in Hguard as [Hr%Z.ltb_lt Hc%Z.ltb_lt].
      assert (Hex : is_Some (cellAt g ri ci)) by (apply (shaped_cellAt _ _ _ _ _ Hshape); lia).
      destruct Hex as [old Hold]. rewrite Hold.
      set (cell1 := CellData.mk true _ _ _ _).
      destruct (IH (i + 1) (gridSet g ri ci cell1)) as (g' & Hrun & Hshape' & Hcells);
        [lia | by apply shaped_gridSet |].
      exists g'. split; [done|]. split; [done|].
      intros r c cell' Hcell'.
      destruct (Hcells r c cell' Hcell') as (cellm & Hm & Hiff).
      rewrite cellAt_gridSet in Hm by (by exists old).
      destruct (decide (r = ri ∧ c = ci)) as [[-> ->]|Hne].
      * injection Hm as <-. exists old. split; [done|].
        split; [|intros _; apply Hiff; by left].
        intros _. right. exists i. split; [lia|done].
      * exists cellm. split; [done|]. by rewrite Hiff, (Hsplit r c Hne).
    + destruct (IH (i + 1) g) as (g' & Hrun & Hshape' & Hcells); [lia|done|].
      exists g'. split; [done|]. split; [done|].
      intros r c cell' Hcell'.
      destruct (Hcells r c cell' Hcell') as (cell & Hc & Hiff).
      exists cell. split; [done|]. rewrite Hiff.
      assert (Hne : ¬ (r = ri ∧ c = ci)).
      { intros [-> ->].
        assert (Hin : is_Some (cellAt g ri ci)) by (by exists cell).
        apply (shaped_cellAt _ _ _ _ _ Hshape) in Hin.
        apply andb_false_iff in Hguard as [?%Z.ltb_ge|?%Z.ltb_ge]; lia. }
      by rewrite (Hsplit r c Hne).
Qed.

(** All words. *)
Lemma initializeGrid_words_spec (data : GameData.t) (ws : list WordData.t) :
  (∀ w, w ∈ ws → 0 ≤ WordData.row_index w ∧ 0 ≤ WordData.col_index w) →
  ∀ g, shaped (GameData.rows data) (GameData.cols data) g →
    ∃ g', initializeGrid_words data ws g = Normal g'
      ∧ shaped (GameData.rows data) (GameData.cols data) g'
      ∧ ∀ r c cell', cellAt g' r c = Some cell' →
          ∃ cell, cellAt g r c = Some cell
            ∧ (CellData.isActive cell' = true ↔
               CellData.isActive cell = true ∨ ∃ w, w ∈ ws ∧ coversCell w r c).
Proof.
  induction ws as [|word rest IH]; intros Horig g Hshape.
  - exists g. split; [done|]. split; [done|]. intros r c cell' Hcell.
    exists cell'. split; [done|]. split; [by left|].
    intros [?|(w & Hin & _)]; [done | by apply not_elem_of_nil in Hin].
  - cbn [initializeGrid_words].
    destruct (Horig word) as [Hrow Hcol]; [by left|].
    destruct (initializeGrid_loop_spec data word (Z.to_nat (WordData.length word))
                Hrow Hcol 0 g) as (g1 & -> & Hshape1 & Hcells1); [lia|done|].
    destruct (IH (fun w Hin => Horig w (list_elem_of_further _ _ _ Hin)) g1 Hshape1)
      as (g' & Hrun & Hshape' & Hcells).
    exists g'. split; [done|]. split; [done|].
    intros r c cell' Hcell'.
    destruct (Hcells r c cell' Hcell') as (cell1 & Hc1 & Hiff1).
    destruct (Hcells1 r c cell1 Hc1) as (cell & Hc & Hiff).
    exists cell. split; [done|]. rewrite Hiff1, Hiff. split.
    + intros [[?|(k & Hk & Hrc)]|(w & Hin & Hcov)].
      * by left.
      * right. exists word. split; [by left|]. exists k. split; [lia|done].
      * right. exists w. split; [by right|done].
    + intros [?|(w & [->|Hin]%elem_of_cons & Hcov)].
      * left. by left.
      * left. right. destruct Hcov as (k & Hk & Hrc). exists k. split; [lia|done].
      * right. by exists w.
Qed.

(** C9: for a word list with non-negative origins, [initializeGrid] never
    fails on a word: unless the array allocation itself is refused, it
    returns a grid of exactly [rows] rows of [cols] cells, in which a cell
    is active exactly when some word's span passes over it; offsets that
    fall at or beyond [rows] or [cols] have no cell and are skipped. *)
Theorem initializeGrid_truncates (data : GameData.t) :
  (∀ w, w ∈ GameData.words data →
     0 ≤ WordData.row_index w ∧ 0 ≤ WordData.col_index w) →
  match initializeGrid data with
  | Normal g =>
    shaped (GameData.rows data) (GameData.cols data) g
    ∧ ∀ r c cell, cellAt g r c = Some cell →
        (0 ≤ r < GameData.rows data ∧ 0 ≤ c < GameData.cols data)
        ∧ (CellData.isActive cell = true ↔
           ∃ w, w ∈ GameData.words data ∧ coversCell w r c)
  | Throw e =>
    e = RangeError
    ∧ blankGrid (GameData.rows data) (GameData.cols data) = Throw RangeError
  end.
Proof.
  intros Horig. unfold initializeGrid.
  destruct (blankGrid (GameData.rows data) (GameData.cols data)) as [g0|e] eqn:Hblank.
  - apply blankGrid_Normal in Hblank as [Hshape0 Hblank].
    destruct (initializeGrid_words_spec data (GameData.words data) Horig g0 Hshape0)
      as (g & -> & Hshape & Hcells).
    split; [done|]. intros r c cell Hcell. split.
    + apply (shaped_cellAt _ _ g r c Hshape). by exists cell.
    + destruct (Hcells r c cell Hcell) as (cell0 & Hc0 & ->).
      rewrite (Hblank r c cell0 Hc0). simpl. split; [|by right].
      by intros [?|?].
  - by rewrite (blankGrid_Throw _ _ _ Hblank).
Qed.

Lemma initializeGrid_truncates_witness :
  match initializeGrid overflowGame with
  | Normal g =>
    shaped (GameData.rows overflowGame) (GameData.cols overflowGame) g
    ∧ ∀ r c cell, cellAt g r c = Some cell →
        (0 ≤ r < GameData.rows overflowGame ∧ 0 ≤ c < GameData.cols overflowGame)
        ∧ (CellData.isActive cell = true ↔
           ∃ w, w ∈ GameData.words overflowGame ∧ coversCell w r c)
  | Throw e =>
    e = RangeError
    ∧ blankGrid (GameData.rows overflowGame) (GameData.cols overflowGame)
      = Throw RangeError
  end.
Proof.
  apply (initializeGrid_truncates overflowGame).
  intros w Hin. apply list_elem_of_singleton in Hin. rewrite Hin. simpl. lia.
Defined.

(** The overflowing word is cut at the edge: its first two cells are active
    and the grid keeps its three columns. *)
Example initializeGrid_overflow_run :
  ∃ g, initializeGrid overflowGame = Normal g
    ∧ (CellData.isActive <$> (g !!! 0%nat)) = [false; true; true]
    ∧ length g = 3%nat.
Proof. eexists. split; [reflexivity|]. split; reflexivity. Qed.


(** *** handleSubmit: answer extraction and result merge *)

Lemma coversb_spec (w : WordData.t) (r c : Z) :
  coversb w r c = true ↔ coversCell w r c.
Proof.
  unfold coversb, coversCell, covers.
  destruct (WordData.direction w); simpl;
    rewrite !andb_true_iff, Z.eqb_eq, Z.leb_le, Z.ltb_lt; split.
  - intros [[-> ?] ?]. exists (c - WordData.col_index w). lia.
  - intros (i & ? & -> & ->). lia.
  - intros [[-> ?] ?]. exists (r - WordData.row_index w). lia.
  - intros (i & ? & -> & ->). lia.
Qed.

(** The merge loop of one word rewrites the cells on the offsets it runs
    through, each once, and no other cell. *)
Lemma merge_loop_spec (w : WordData.t) (b : bool) (todo : nat) :
  ∀ i g,
    (∀ k, i ≤ k < i + Z.of_nat todo →
       is_Some (cellAt g (spanRow (WordData.direction w) (WordData.row_index w) k)
                  (spanCol (WordData.direction w) (WordData.col_index w) k))) →
    ∃ g', merge_loop w b i todo g = (Normal tt, g')
      ∧ ∀ r c,
          ((∃ k, i ≤ k < i + Z.of_nat todo
              ∧ r = spanRow (WordData.direction w) (WordData.row_index w) k
              ∧ c = spanCol (WordData.direction w) (WordData.col_index w) k) →
           cellAt g' r c = mergeCell b <$> cellAt g r c)
          ∧ (¬ (∃ k, i ≤ k < i + Z.of_nat todo
              ∧ r = spanRow (WordData.direction w) (WordData.row_index w) k
              ∧ c = spanCol (WordData.direction w) (WordData.col_index w) k) →
             cellAt g' r c = cellAt g r c).
Proof.
  induction todo as [|todo IH]; intros i g Hex.
  - exists g. split; [done|]. intros r c. split; [|done]. intros (k & ? & _). lia.
  - cbn [merge_loop].
    set (ri := spanRow (WordData.direction w) (WordData.row_index w) i).
    set (ci := spanCol (WordData.direction w) (WordData.col_index w) i).
    destruct (Hex i) as [old Hold]; [lia|]. fold ri ci in Hold.
    pose proof Hold as Hold'. apply cellAt_Some in Hold' as (rowArr & -> & ->).
    set (g1 := gridSet g ri ci (mergeCell b old)).
    assert (Hg1 : ∀ r c, cellAt g1 r c =
              if decide (r = ri ∧ c = ci) then Some (mergeCell b old) else cellAt g r c).
    { intros r c. apply cellAt_gridSet. by exists old. }
    destruct (IH (i + 1) g1) as (g' & Hrun & Hcells).
    { intros k Hk. rewrite Hg1. case_decide; [by eexists | apply Hex; lia]. }
    exists g'. split; [done|]. intros r c.
    destruct (Hcells r c) as [Hin Hout].
    destruct (decide (r = ri ∧ c = ci)) as [[-> ->]|Hne].
    + split; [|intros Hno; exfalso; apply Hno; exists i; split; [lia|done]].
      intros _. rewrite Hout, Hg1, Hold.
      * by rewrite decide_True.
      * intros (k & Hk & Hr & Hc). subst ri ci.
        destruct (WordData.direction w); simpl in *; lia.
    + assert (Hsplit :
        (∃ k, i + 1 ≤ k < i + 1 + Z.of_nat todo
           ∧ r = spanRow (WordData.direction w) (WordData.row_index w) k
           ∧ c = spanCol (WordData.direction w) (WordData.col_index w) k)
        ↔ ∃ k, i ≤ k < i + Z.of_nat (S todo)
           ∧ r = spanRow (WordData.direction w) (WordData.row_index w) k
           ∧ c = spanCol (WordData.direction w) (WordData.col_index w) k).
      { split; intros (k & Hk & Hrc); exists k; (split; [|done]); [lia|].
        destruct (decide (k = i)) as [->|]; [by destruct Hne | lia]. }
      rewrite <- Hsplit. specialize (Hg1 r c). rewrite decide_False in Hg1 by done.
      rewrite <- Hg1. done.
Qed.

Lemma mergedCell_cons (results : list CheckResult.t) (w : WordData.t)
    (rest : list WordData.t) (r c : Z) (cell : CellData.t) :
  mergedCell results (w :: rest) r c cell =
  mergedCell results rest r c
    (if coversb w r c then mergeCell (verdict results w) cell else cell).
Proof.
  unfold mergedCell, mergedFlag, mergeCell, withIsCorrect. cbn [existsb].
  destruct (coversb w r c), (verdict results w), cell as [a ch n ids [[|]|]]; simpl;
    repeat case_bool_decide; simpl; try done;
    destruct (existsb _ rest); simpl; try done;
    destruct (existsb _ rest); simpl; repeat case_bool_decide; done.
Qed.

(** The whole merge pass, cell by cell. *)
Lemma merge_words_spec (results : list CheckResult.t) (ws : list WordData.t) :
  ∀ g, spansInGrid g ws →
    ∃ g', merge_words results ws g = (Normal tt, g')
      ∧ ∀ r c, cellAt g' r c = mergedCell results ws r c <$> cellAt g r c.
Proof.
  induction ws as [|w rest IH]; intros g Hspans.
  - exists g. split; [done|]. intros r c.
    destruct (cellAt g r c) as [[a ch n ids cor]|]; done.
  - cbn [merge_words].
    destruct (merge_loop_spec w (verdict results w) (Z.to_nat (WordData.length w)) 0 g)
      as (g1 & -> & Hcells1).
    { intros k Hk. apply (Hspans w _ _ k); [by left|]. unfold covers. lia. }
    assert (Hcell1 : ∀ r c, cellAt g1 r c =
              (fun cell => if coversb w r c then mergeCell (verdict results w) cell else cell)
                <$> cellAt g r c).
    { intros r c. destruct (Hcells1 r c) as [Hin Hout].
      destruct (coversb w r c) eqn:Hcov.
      - apply Hin. apply coversb_spec in Hcov as (k & Hk & Hrc). exists k. split; [lia|done].
      - rewrite Hout; [by destruct (cellAt g r c)|].
        intros (k & Hk & Hrc). apply not_true_iff_false in Hcov. apply Hcov.
        apply coversb_spec. exists k. unfold covers. split; [lia|done]. }
    destruct (IH g1) as (g' & Hrun & Hcells).
    { intros w' r c k Hin Hcov. rewrite Hcell1. apply fmap_is_Some.
      apply (Hspans w' r c k); [by right|done]. }
    exists g'. split; [done|]. intros r c.
    rewrite Hcells, Hcell1. destruct (cellAt g r c) as [cell|]; [|done]. simpl.
    by rewrite mergedCell_cons.
Qed.

Lemma userAnswer_loop_cells (g : Grid) (w : WordData.t) (todo : nat) :
  ∀ i acc answer,
    userAnswer_loop g w i todo acc = Normal answer →
    ∀ k, i ≤ k < i + Z.of_nat todo →
      is_Some (cellAt g (spanRow (WordData.direction w) (WordData.row_index w) k)
                 (spanCol (WordData.direction w) (WordData.col_index w) k)).
Proof.
  induction todo as [|todo IH]; intros i acc answer Hrun k Hk; [lia|].
  cbn [userAnswer_loop] in Hrun.
  destruct (cellAt g _ _) as [cell|] eqn:Hcell; [|done].
  destruct (decide (k = i)) as [->|]; [by exists cell|].
  apply (IH _ _ _ Hrun). lia.
Qed.

(** An extraction that completes has read every cell of every span. *)
Lemma answersPayload_spans (g : Grid) (ws : list WordData.t) (answers : list Answer.t) :
  answersPayload g ws = Normal answers → spansInGrid g ws.
Proof.
  revert answers. induction ws as [|w rest IH]; intros answers Hrun w' r c k Hin Hcov.
  - by apply not_elem_of_nil in Hin.
  - cbn [answersPayload] in Hrun.
    destruct (userAnswer_loop g w 0 _ _) as [ua|] eqn:Hua; [|done].
    destruct (answersPayload g rest) as [answers'|] eqn:Hrest; [|done].
    apply elem_of_cons in Hin as [->|Hin].
    + destruct Hcov as (Hk & -> & ->). apply (userAnswer_loop_cells _ _ _ _ _ _ Hua). lia.
    + by apply (IH answers' eq_refl w' r c k).
Qed.

(** The merge inside [handleSubmit] always completes: the grid handed to
    [setGrid] is the merged one. *)
Lemma merge_words_normal (check : list Answer.t → Response) (s : State)
    (gm : GameData.t) (answers : list Answer.t) (results : list CheckResult.t) :
  game s = Some gm →
  answersPayload (grid s) (GameData.words gm) = Normal answers →
  check answers = Resolved results →
  merge_words results (GameData.words gm) (grid s)
    = (Normal tt, grid (handleSubmit check s))
  ∧ ∀ r c, cellAt (grid (handleSubmit check s)) r c
           = mergedCell results (GameData.words gm) r c <$> cellAt (grid s) r c.
Proof.
  intros Hgame Hans Hcheck.
  destruct (merge_words_spec results (GameData.words gm) (grid s))
    as (g' & Hrun & Hcells); [by eapply answersPayload_spans|].
  unfold handleSubmit. rewrite Hgame, Hans, Hcheck, Hrun.
  split; [|intros r c; rewrite <- Hcells]; by destruct (forallb _ _).
Qed.


Lemma existsb_elem_of {A : Type} (f : A → bool) (l : list A) :
  existsb f l = true ↔ ∃ x, x ∈ l ∧ f x = true.
Proof.
  rewrite existsb_exists. split; intros (x & Hin & Hf); exists x;
    (split; [by apply list_elem_of_In | done]).
Qed.

Lemma existsb_Permutation {A : Type} (f : A → bool) (l l' : list A) :
  l ≡ₚ l' → existsb f l = existsb f l'.
Proof.
  intros Hperm. apply eq_true_iff_eq. rewrite !existsb_elem_of.
  split; intros (x & Hin & Hf); exists x; (split; [|done]).
  - by rewrite <- Hperm.
  - by rewrite Hperm.
Qed.

Lemma mergedFlag_incorrect (results : list CheckResult.t) (ws : list WordData.t)
    (r c : Z) (old : option bool) :
  (∃ w, w ∈ ws ∧ coversCell w r c ∧ verdict results w = false) →
  mergedFlag results ws r c old = Some false.
Proof.
  intros (w & Hin & Hcov & Hv). unfold mergedFlag.
  rewrite (proj2 (existsb_elem_of _ ws)); [done|].
  exists w. split; [done|]. rewrite Hv. by rewrite (proj2 (coversb_spec w r c)).
Qed.

Lemma mergedFlag_correct (results : list CheckResult.t) (ws : list WordData.t)
    (r c : Z) (old : option bool) :
  (∃ w, w ∈ ws ∧ coversCell w r c) →
  (∀ w, w ∈ ws → coversCell w r c → verdict results w = true) →
  old ≠ Some false →
  mergedFlag results ws r c old = Some true.
Proof.
  intros (w & Hin & Hcov) Hall Hold. unfold mergedFlag.
  destruct (existsb (fun w => coversb w r c && negb (verdict results w)) ws) eqn:Hbad.
  - apply existsb_elem_of in Hbad as (w' & Hin' & [Hc Hv]%andb_true_iff).
    apply coversb_spec in Hc. rewrite (Hall w' Hin' Hc) in Hv. done.
  - rewrite (proj2 (existsb_elem_of _ ws)).
    + by rewrite bool_decide_eq_false_2.
    + exists w. split; [done|]. by apply coversb_spec.
Qed.

Lemma mergedCell_Permutation (results : list CheckResult.t) (ws ws' : list WordData.t)
    (r c : Z) (cell : CellData.t) :
  ws ≡ₚ ws' → mergedCell results ws r c cell = mergedCell results ws' r c cell.
Proof.
  intros Hperm. unfold mergedCell, mergedFlag.
  by rewrite !(existsb_Permutation _ ws ws' Hperm).
Qed.

Lemma spansInGrid_Permutation (g : Grid) (ws ws' : list WordData.t) :
  ws ≡ₚ ws' → spansInGrid g ws → spansInGrid g ws'.
Proof.
  intros Hperm Hspans w r c k Hin. apply Hspans. by rewrite Hperm.
Qed.

(** C3, as the code has it: after the merge pass of [handleSubmit], a
    covered cell is flagged false if some word covering it is incorrect (its
    verdict: [is_correct] of the first result with its id, false when there
    is none); it is flagged true if every word covering it is correct and
    its flag was not already false before the pass; and the cell's outcome
    is the same for every processing order of the words. *)
Theorem handleSubmit_merge_flags (check : list Answer.t → Response) (s : State)
    (gm : GameData.t) (answers : list Answer.t) (results : list CheckResult.t)
    (r c : Z) (w0 : WordData.t) :
  game s = Some gm →
  answersPayload (grid s) (GameData.words gm) = Normal answers →
  check answers = Resolved results →
  w0 ∈ GameData.words gm → coversCell w0 r c →
  ∃ cell cell',
    cellAt (grid s) r c = Some cell
    ∧ cellAt (grid (handleSubmit check s)) r c = Some cell'
    ∧ ((∃ w, w ∈ GameData.words gm ∧ coversCell w r c ∧ verdict results w = false) →
       CellData.isCorrect cell' = Some false)
    ∧ ((∀ w, w ∈ GameData.words gm → coversCell w r c → verdict results w = true) →
       CellData.isCorrect cell ≠ Some false →
       CellData.isCorrect cell' = Some true)
    ∧ (∀ ws', ws' ≡ₚ GameData.words gm →
       cellAt (snd (merge_words results ws' (grid s))) r c = Some cell').
Proof.
  intros Hgame Hans Hcheck Hin0 Hcov0.
  destruct (merge_words_normal check s gm answers results Hgame Hans Hcheck)
    as [_ Hcells].
  pose proof (answersPayload_spans _ _ _ Hans) as Hspans.
  destruct Hcov0 as [k0 Hk0].
  destruct (Hspans w0 r c k0 Hin0 Hk0) as [cell Hcell].
  exists cell, (mergedCell results (GameData.words gm) r c cell).
  split; [done|]. split; [by rewrite Hcells, Hcell|]. split; [|split].
  - intros Hbad. by apply mergedFlag_incorrect.
  - intros Hall Hold. apply mergedFlag_correct; [|done|done].
    exists w0. split; [done | by exists k0].
  - intros ws' Hperm.
    destruct (merge_words_spec results ws' (grid s)) as (g' & -> & Hcells').
    { by apply (spansInGrid_Permutation _ (GameData.words gm)). }
    simpl. rewrite Hcells', Hcell. simpl. f_equal.
    by apply mergedCell_Permutation.
Qed.

Lemma handleSubmit_merge_flags_witness :
  ∃ cell cell',
    cellAt (grid exampleState) 0 0 = Some cell
    ∧ cellAt (grid (handleSubmit (fun _ => Resolved hatWrong) exampleState)) 0 0
      = Some cell'
    ∧ ((∃ w, w ∈ GameData.words exampleGame ∧ coversCell w 0 0
          ∧ verdict hatWrong w = false) →
       CellData.isCorrect cell' = Some false)
    ∧ ((∀ w, w ∈ GameData.words exampleGame → coversCell w 0 0 →
          verdict hatWrong w = true) →
       CellData.isCorrect cell ≠ Some false →
       CellData.isCorrect cell' = Some true)
    ∧ (∀ ws', ws' ≡ₚ GameData.words exampleGame →
       cellAt (snd (merge_words hatWrong ws' (grid exampleState))) 0 0 = Some cell').
Proof.
  refine (handleSubmit_merge_flags (fun _ => Resolved hatWrong) exampleState
            exampleGame _ hatWrong 0 0 (WordData.mk "w1" 1 horizontal 0 0 5 "greeting")
            eq_refl _ eq_refl _ _).
  - reflexivity.
  - left.
  - exists 0. unfold covers. simpl. lia.
Defined.

(** C3 without a condition on the earlier flag does not hold.  After a first
    check that found HAT wrong, a check that finds both words right leaves
    the cell (1, 0), which only HAT covers, flagged false. *)
Lemma handleSubmit_stale_flag_counterexample :
  (∀ w, w ∈ GameData.words exampleGame → coversCell w 1 0 →
     verdict allRight w = true)
  ∧ CellData.isCorrect <$>
      cellAt (grid (handleSubmit (fun _ => Resolved allRight)
                      (handleSubmit (fun _ => Resolved hatWrong) exampleState))) 1 0
    = Some (Some false).
Proof.
  split; [|reflexivity].
  intros w Hin _. unfold exampleGame in Hin. simpl in Hin.
  apply elem_of_cons in Hin as [->|Hin]; [reflexivity|].
  apply list_elem_of_singleton in Hin as ->. reflexivity.
Qed.


(** *** A word without a result *)

Lemma findResult_app (results extra : list CheckResult.t) (wordId : string) :
  findResult (results ++ extra) wordId =
  match findResult results wordId with
  | Some result => Some result
  | None => findResult extra wordId
  end.
Proof.
  unfold findResult. induction results as [|x results IH]; [done|].
  simpl. by case_bool_decide.
Qed.

Lemma verdict_app_incorrect (results : list CheckResult.t) (wordId : string)
    (w : WordData.t) :
  verdict (results ++ [CheckResult.mk wordId false]) w = verdict results w.
Proof.
  unfold verdict. rewrite findResult_app.
  destruct (findResult results (WordData.id w)); [done|].
  unfold findResult. simpl. by case_bool_decide.
Qed.

Lemma merge_words_ext (results results' : list CheckResult.t) (ws : list WordData.t) :
  (∀ w, verdict results w = verdict results' w) →
  ∀ g, merge_words results ws g = merge_words results' ws g.
Proof.
  intros Hv. induction ws as [|w rest IH]; intros g; [done|].
  cbn [merge_words]. rewrite Hv.
  destruct (merge_loop w _ 0 _ g) as [[[]|e] g1]; [apply IH | done].
Qed.

(** C10: a word of the game for whose id the results hold no entry is
    merged exactly as an incorrect word: every cell of its span ends up
    flagged false, and the pass as a whole is the one obtained with an
    explicit incorrect result for that word. *)
Theorem handleSubmit_missing_result (check : list Answer.t → Response) (s : State)
    (gm : GameData.t) (answers : list Answer.t) (results : list CheckResult.t)
    (w : WordData.t) :
  game s = Some gm →
  answersPayload (grid s) (GameData.words gm) = Normal answers →
  check answers = Resolved results →
  w ∈ GameData.words gm →
  findResult results (WordData.id w) = None →
  (∀ r c, coversCell w r c →
     ∃ cell', cellAt (grid (handleSubmit check s)) r c = Some cell'
       ∧ CellData.isCorrect cell' = Some false)
  ∧ merge_words (results ++ [CheckResult.mk (WordData.id w) false])
      (GameData.words gm) (grid s)
    = (Normal tt, grid (handleSubmit check s)).
Proof.
  intros Hgame Hans Hcheck Hin Hnone.
  destruct (merge_words_normal check s gm answers results Hgame Hans Hcheck)
    as [Hrun Hcells].
  split.
  - intros r c [k Hk].
    destruct (answersPayload_spans _ _ _ Hans w r c k Hin Hk) as [cell Hcell].
    exists (mergedCell results (GameData.words gm) r c cell).
    split; [by rewrite Hcells, Hcell|].
    apply mergedFlag_incorrect. exists w. split; [done|]. split; [by exists k|].
    unfold verdict. by rewrite Hnone.
  - rewrite <- Hrun. apply merge_words_ext. intros w'. apply verdict_app_incorrect.
Qed.

Lemma handleSubmit_missing_result_witness :
  (∀ r c, coversCell (WordData.mk "w2" 2 vertical 0 0 3 "headwear") r c →
     ∃ cell',
       cellAt (grid (handleSubmit (fun _ => Resolved [CheckResult.mk "w1" true])
                       exampleState)) r c = Some cell'
       ∧ CellData.isCorrect cell' = Some false)
  ∧ merge_words ([CheckResult.mk "w1" true] ++ [CheckResult.mk "w2" false])
      (GameData.words exampleGame) (grid exampleState)
    = (Normal tt,
       grid (handleSubmit (fun _ => Resolved [CheckResult.mk "w1" true]) exampleState)).
Proof.
  refine (handleSubmit_missing_result (fun _ => Resolved [CheckResult.mk "w1" true])
            exampleState exampleGame _ [CheckResult.mk "w1" true]
            (WordData.mk "w2" 2 vertical 0 0 3 "headwear") eq_refl _ eq_refl _ _).
  - reflexivity.
  - right. left.
  - reflexivity.
Defined.

(** With no result for HAT, the cells of HAT are flagged false although
    every result that did arrive is correct (and the puzzle is finished). *)
Example handleSubmit_missing_result_run :
  CellData.isCorrect <$>
    cellAt (grid (handleSubmit (fun _ => Resolved [CheckResult.mk "w1" true])
                    exampleState)) 2 0
  = Some (Some false)
  ∧ isFinished (handleSubmit (fun _ => Resolved [CheckResult.mk "w1" true])
                  exampleState) = true.
Proof. split; reflexivity. Qed.

(** *** The end-to-end scenario *)

(** Typing a letter stores it upper-cased and moves on to the next active
    cell along the current direction. *)
Example handleInputChange_run :
  let st := snd (handleInputChange upperAscii exampleState 0 0 "h") in
  CellData.char <$> cellAt (grid st) 0 0 = Some "H"%string
  ∧ selectedCell st = Some (0, 1)
  ∧ focused st = Some (0, 1).
Proof. repeat split; reflexivity. Qed.

(** Both words right: every covered cell is flagged true and the puzzle is
    finished. *)
Example handleSubmit_all_right_run :
  let st := handleSubmit (fun _ => Resolved allRight) exampleState in
  (CellData.isCorrect <$> (grid st !!! 0%nat))
    = [Some true; Some true; Some true; Some true; Some true]
  ∧ (CellData.isCorrect <$> (grid st !!! 1%nat))
    = [Some true; None; None; None; None]
  ∧ isFinished st = true.
Proof. repeat split; reflexivity. Qed.

(** Only HAT wrong: the shared cell (0, 0) is flagged false, the rest of
    HELLO true, and the puzzle goes on. *)
Example handleSubmit_hat_wrong_run :
  let st := handleSubmit (fun _ => Resolved hatWrong) exampleState in
  (CellData.isCorrect <$> (grid st !!! 0%nat))
    = [Some false; Some true; Some true; Some true; Some true]
  ∧ isFinished st = false.
Proof. repeat split; reflexivity. Qed.


(** * Whole sessions *)

(** *** moveFocus: what it can change, and when it throws *)

Lemma sameButFocus_refl (st : State) : sameButFocus st st.
Proof. by repeat split. Qed.

Lemma moveFocus_loop_frame (cl : State) (step : Z) (dir : Direction) (fuel : nat) :
  ∀ currR currC found attempts st res,
    moveFocus_loop cl step dir fuel currR currC found attempts st = Some res →
    sameButFocus st (snd res).
Proof.
  induction fuel as [|fuel IH]; intros currR currC found attempts st res.
  - simpl. destruct (negb found && (attempts <? 50)); [done|].
    intros [= <-]. apply sameButFocus_refl.
  - cbn [moveFocus_loop].
    destruct (negb found && (attempts <? 50)); [|intros [= <-]; apply sameButFocus_refl].
    destruct (_ || _ || _ || _); [intros [= <-]; apply sameButFocus_refl|].
    destruct (arrayGet (grid cl) _) as [rowArr|]; [|intros [= <-]; apply sameButFocus_refl].
    destruct (arrayGet rowArr _) as [cell|]; [destruct (CellData.isActive cell)|];
      intros Hrun; apply IH in Hrun; [|done|done].
    destruct Hrun as (? & ? & ? & ? & ? & ? & ? & ?). by repeat split.
Qed.

Lemma moveFocus_frame (cl : State) (r c step : Z) (overrideDir : option Direction)
    (st : State) :
  sameButFocus st (snd (moveFocus cl r c step overrideDir st)).
Proof.
  unfold moveFocus.
  destruct (moveFocus_loop _ _ _ _ _ _ _ _ _) as [res|] eqn:Hres.
  - by eapply moveFocus_loop_frame.
  - apply sameButFocus_refl.
Qed.

Lemma moveFocus_loop_normal (cl : State) (step : Z) (dir : Direction) (fuel : nat) :
  shaped (gameRows cl) (gameCols cl) (grid cl) →
  ∀ currR currC found attempts st res,
    moveFocus_loop cl step dir fuel currR currC found attempts st = Some res →
    fst res = Normal tt.
Proof.
  intros Hshape.
  induction fuel as [|fuel IH]; intros currR currC found attempts st res.
  - simpl. destruct (negb found && (attempts <? 50)); [done | by intros [= <-]].
  - cbn [moveFocus_loop].
    destruct (negb found && (attempts <? 50)); [|by intros [= <-]].
    destruct (_ || _ || _ || _) eqn:Hout; [by intros [= <-]|].
    apply outside_false_iff in Hout.
    destruct (proj2 (shaped_cellAt _ _ _ _ _ Hshape) Hout) as [cell Hcell].
    apply cellAt_Some in Hcell as (rowArr & -> & ->).
    destruct (CellData.isActive cell); apply IH.
Qed.

(** *** The session invariant *)

Lemma initializeGrid_loop_shaped (data : GameData.t) (word : WordData.t)
    (rows cols : Z) (todo : nat) :
  ∀ i g g', shaped rows cols g →
    initializeGrid_loop data word i todo g = Normal g' → shaped rows cols g'.
Proof.
  induction todo as [|todo IH]; intros i g g' Hshape; [by intros [= <-]|].
  cbn [initializeGrid_loop]. destruct (_ && _); [|by apply IH].
  destruct (cellAt g _ _); [|done]. apply IH. by apply shaped_gridSet.
Qed.

Lemma initializeGrid_words_shaped (data : GameData.t) (rows cols : Z)
    (ws : list WordData.t) :
  ∀ g g', shaped rows cols g →
    initializeGrid_words data ws g = Normal g' → shaped rows cols g'.
Proof.
  induction ws as [|w rest IH]; intros g g' Hshape; [by intros [= <-]|].
  cbn [initializeGrid_words].
  destruct (initializeGrid_loop data w 0 _ g) as [g1|] eqn:Hloop; [|done].
  apply IH. by eapply initializeGrid_loop_shaped.
Qed.

(** Whatever the word list, a grid that [initializeGrid] returns has the
    game's dimensions. *)
Lemma initializeGrid_shaped (data : GameData.t) (g : Grid) :
  initializeGrid data = Normal g →
  shaped (GameData.rows data) (GameData.cols data) g.
Proof.
  unfold initializeGrid.
  destruct (blankGrid _ _) as [g0|] eqn:Hblank; [|done].
  apply blankGrid_Normal in Hblank as [Hshape _].
  by apply initializeGrid_words_shaped.
Qed.

Lemma merge_loop_shaped (w : WordData.t) (b : bool) (rows cols : Z) (todo : nat) :
  ∀ i g, shaped rows cols g → shaped rows cols (snd (merge_loop w b i todo g)).
Proof.
  induction todo as [|todo IH]; intros i g Hshape; [done|].
  cbn [merge_loop]. destruct (arrayGet g _) as [rowArr|]; [|done].
  destruct (arrayGet rowArr _); apply IH; [by apply shaped_gridSet | done].
Qed.

Lemma merge_words_shaped (results : list CheckResult.t) (rows cols : Z)
    (ws : list WordData.t) :
  ∀ g, shaped rows cols g → shaped rows cols (snd (merge_words results ws g)).
Proof.
  induction ws as [|w rest IH]; intros g Hshape; [done|].
  cbn [merge_words].
  pose proof (merge_loop_shaped w (verdict results w) rows cols
                (Z.to_nat (WordData.length w)) 0 g Hshape) as H1.
  destruct (merge_loop w _ 0 _ g) as [[[]|e] g1]; [by apply IH | done].
Qed.

Lemma sessionInvariant_sameButFocus (st st' : State) :
  sameButFocus st st' → sessionInvariant st → sessionInvariant st'.
Proof.
  intros (Hg & Hgrid & _ & _ & Ht & Hp & Hf & _) (gm & g0 & ? & ? & ? & ? & ? & ?).
  exists gm, g0. rewrite Hg, Hgrid, Ht, Hp, Hf. done.
Qed.

Lemma sessionInvariant_setCell (s : State) (r c : Z) (old new : CellData.t) :
  cellAt (grid s) r c = Some old → layout new = layout old →
  sessionInvariant s → sessionInvariant (setGrid (gridSet (grid s) r c new) s).
Proof.
  intros Hold Hlay (gm & g0 & Hgame & Hinit & Hshape & Hlayout & Ht & Hf).
  exists gm, g0. simpl. split; [done|]. split; [done|].
  split; [by apply shaped_gridSet|]. split; [|done].
  intros r' c'. rewrite cellAt_gridSet by (by exists old).
  case_decide as Heq; [|done]. destruct Heq as [-> ->].
  by rewrite <- Hlayout, Hold; simpl; rewrite Hlay.
Qed.

Lemma sessionInvariant_load (data : GameData.t) (g : Grid) (s : State) :
  initializeGrid data = Normal g →
  0 ≤ timer s → (isFinished s = true → isPaused s = true) →
  sessionInvariant (fetchGame (Some data) s).
Proof.
  intros Hinit Ht Hf. unfold fetchGame. rewrite Hinit.
  exists data, g. simpl. split; [done|]. split; [done|].
  split; [by apply initializeGrid_shaped | done].
Qed.

Lemma sessionInvariant_handleInputChange (toUpperCase : string → string) (s : State)
    (r c : Z) (val : string) :
  sessionInvariant s → sessionInvariant (snd (handleInputChange toUpperCase s r c val)).
Proof.
  intros Hinv. unfold handleInputChange.
  destruct (cellAt (grid s) r c) as [cell|] eqn:Hcell; [|done].
  destruct (_ || _ || _); [done|].
  assert (Hst : sessionInvariant
    (setGrid (gridSet (grid s) r c (withChar cell (toUpperCase (sliceLast val)))) s))
    by (by apply (sessionInvariant_setCell s r c cell)).
  case_bool_decide; [|done].
  eapply sessionInvariant_sameButFocus; [apply moveFocus_frame | done].
Qed.

Lemma sessionInvariant_setDirection (d : Direction) (s : State) :
  sessionInvariant s → sessionInvariant (setDirection d s).
Proof. intros (gm & g0 & ?). by exists gm, g0. Qed.

Lemma sessionInvariant_handleKeyDown (s : State) (key : string) (r c : Z) :
  sessionInvariant s → sessionInvariant (snd (handleKeyDown s key r c)).
Proof.
  intros Hinv. unfold handleKeyDown.
  destruct (_ || _); [done|].
  repeat case_bool_decide; try done.
  - destruct (cellAt (grid s) r c) as [cell|]; [|done].
    case_bool_decide; [|done].
    eapply sessionInvariant_sameButFocus; [apply moveFocus_frame | done].
  - eapply sessionInvariant_sameButFocus; [apply moveFocus_frame |].
    by apply sessionInvariant_setDirection.
  - eapply sessionInvariant_sameButFocus; [apply moveFocus_frame |].
    by apply sessionInvariant_setDirection.
Qed.

Lemma sessionInvariant_handleCellClick (s : State) (r c : Z) :
  sessionInvariant s → sessionInvariant (snd (handleCellClick s r c)).
Proof.
  intros Hinv. unfold handleCellClick.
  destruct (cellAt (grid s) r c) as [cell|]; [|done].
  destruct (_ || _ || _); [done|]. simpl.
  destruct Hinv as (gm & g0 & ?). exists gm, g0. by case_bool_decide.
Qed.

Lemma layout_mergedCell (results : list CheckResult.t) (ws : list WordData.t)
    (r c : Z) (cell : CellData.t) :
  layout (mergedCell results ws r c cell) = layout cell.
Proof. done. Qed.

Lemma sessionInvariant_handleSubmit (check : list Answer.t → Response) (s : State) :
  sessionInvariant s → sessionInvariant (handleSubmit check s).
Proof.
  intros Hinv.
  destruct Hinv as (gm & g0 & Hgame & Hinit & Hshape & Hlayout & Ht & Hf).
  destruct (answersPayload (grid s) (GameData.words gm)) as [answers|e] eqn:Hans.
  2:{ unfold handleSubmit. rewrite Hgame, Hans. by exists gm, g0. }
  destruct (check answers) as [|results] eqn:Hcheck.
  { unfold handleSubmit. rewrite Hgame, Hans, Hcheck. by exists gm, g0. }
  destruct (merge_words_normal check s gm answers results Hgame Hans Hcheck)
    as [Hrun Hcells].
  pose proof (merge_words_shaped results _ _ (GameData.words gm) (grid s) Hshape) as Hsh.
  rewrite Hrun in Hsh. simpl in Hsh.
  assert (Hlay : ∀ r c, layout <$> cellAt (grid (handleSubmit check s)) r c
                        = layout <$> cellAt g0 r c).
  { intros r c. rewrite Hcells, <- Hlayout. by destruct (cellAt (grid s) r c). }
  exists gm, g0. revert Hsh Hlay. unfold handleSubmit.
  rewrite Hgame, Hans, Hcheck, Hrun.
  destruct (forallb _ results); simpl; intros Hsh Hlay;
    do 4 (split; [done|]); split; done.
Qed.

Lemma sessionInvariant_handleRestart (s : State) :
  sessionInvariant s → sessionInvariant (handleRestart s).
Proof.
  intros (gm & g0 & Hgame & Hinit & [Hlen Hrows] & Hlayout & Ht & Hf).
  exists gm, g0. simpl. split; [done|]. split; [done|]. split; [|split; [|done]].
  - split; [by rewrite length_fmap|].
    intros i rowArr. rewrite list_lookup_fmap.
    destruct (grid s !! i) as [rowArr0|] eqn:Hi; [|done]. simpl.
    intros [= <-]. rewrite length_fmap. by eapply Hrows.
  - intros r c. rewrite cellAt_fmap, <- Hlayout.
    by destruct (cellAt (grid s) r c).
Qed.

Lemma sessionInvariant_tick (s : State) : sessionInvariant s → sessionInvariant (tick s).
Proof.
  intros (gm & g0 & Hgame & Hinit & Hshape & Hlayout & Ht & Hf).
  exists gm, g0. unfold tick. rewrite Hgame.
  destruct (negb (isPaused s) && negb (isFinished s)); simpl;
    do 4 (split; [done|]); split; try done; lia.
Qed.

Lemma sessionInvariant_togglePause (s : State) :
  sessionInvariant s → sessionInvariant (togglePause s).
Proof.
  intros (gm & g0 & Hgame & Hinit & Hshape & Hlayout & Ht & Hf).
  exists gm, g0. unfold togglePause.
  destruct (isFinished s) eqn:Hfin; simpl; do 4 (split; [done|]); (split; [done|]).
  - intros _. by apply Hf.
  - by rewrite Hfin.
Qed.

(** Without a check in flight: the invariant holds in every state of
    [reachable]. *)
Lemma reachable_sessionInvariant (toUpperCase : string → string) (s : State) :
  reachable toUpperCase s → sessionInvariant s.
Proof.
  induction 1 as [data g Hinit|s data g _ IH Hinit|s r c val _ IH|s key r c _ IH
                 |s r c _ IH|s check _ IH|s _ IH|s _ IH|s _ IH|s _ IH Hp Hf].
  - by apply (sessionInvariant_load data g).
  - destruct IH as (gm & g0 & _ & _ & _ & _ & Ht & Hf).
    by apply (sessionInvariant_load data g).
  - by apply sessionInvariant_handleInputChange.
  - by apply sessionInvariant_handleKeyDown.
  - by apply sessionInvariant_handleCellClick.
  - by apply sessionInvariant_handleSubmit.
  - by apply sessionInvariant_handleRestart.
  - by apply sessionInvariant_tick.
  - by apply sessionInvariant_togglePause.
  - destruct IH as (gm & g0 & Hgame & Hinit & Hshape & Hlayout & Ht & _).
    exists gm, g0. simpl. do 4 (split; [done|]). split; [done|]. congruence.
Qed.

(** *** The two halves of a check *)

(** The second half of a check whose request was sent: the merge
    completes, cell by cell as [mergedCell] says, on the grid of the
    closure. *)
Lemma handleSubmit_response_spec (cl st : State) (res : Response)
    (gm : GameData.t) (answers : list Answer.t) :
  game cl = Some gm →
  answersPayload (grid cl) (GameData.words gm) = Normal answers →
  match res with
  | Rejected => handleSubmit_response cl res st = setSubmitting false st
  | Resolved results =>
    ∃ newGrid,
      merge_words results (GameData.words gm) (grid cl) = (Normal tt, newGrid)
      ∧ (∀ r c, cellAt newGrid r c
                = mergedCell results (GameData.words gm) r c <$> cellAt (grid cl) r c)
      ∧ handleSubmit_response cl res st
        = setSubmitting false
            (if forallb CheckResult.is_correct results
             then setIsFinished true (setIsPaused true (setGrid newGrid st))
             else setGrid newGrid st)
  end.
Proof.
  intros Hgame Hans. unfold handleSubmit_response. rewrite Hgame.
  destruct res as [|results]; [done|].
  destruct (merge_words_spec results (GameData.words gm) (grid cl))
    as (g' & Hrun & Hcells); [by eapply answersPayload_spans|].
  exists g'. by rewrite Hrun.
Qed.

(** [handleSubmit] as one step is the first half followed at once by the
    second. *)
Lemma handleSubmit_uninterrupted (check : list Answer.t → Response) (s : State) :
  handleSubmit check s =
  match handleSubmit_request s with
  | (st, Some answers) => handleSubmit_response s (check answers) st
  | (st, None) => st
  end.
Proof.
  destruct (game s) as [gm|] eqn:Hgame.
  2:{ unfold handleSubmit, handleSubmit_request. by rewrite Hgame. }
  destruct (answersPayload (grid s) (GameData.words gm)) as [answers|e] eqn:Hans.
  2:{ unfold handleSubmit, handleSubmit_request. by rewrite Hgame, Hans. }
  pose proof (handleSubmit_response_spec s (setSubmitting true s) (check answers)
                gm answers Hgame Hans) as Hspec.
  unfold handleSubmit, handleSubmit_request. rewrite Hgame, Hans.
  destruct (check answers) as [|results]; [by rewrite Hspec|].
  destruct Hspec as (newGrid & Hrun & _ & ->). rewrite Hrun.
  by destruct (forallb _ results).
Qed.

(** *** The invariant with a check in flight *)

Lemma sessionInvariant_setSubmitting (b : bool) (s : State) :
  sessionInvariant s → sessionInvariant (setSubmitting b s).
Proof. intros (gm & g0 & ?). by exists gm, g0. Qed.

Lemma handleInputChange_keeps (toUpperCase : string → string) (s : State)
    (r c : Z) (val : string) :
  game (snd (handleInputChange toUpperCase s r c val)) = game s
  ∧ submitting (snd (handleInputChange toUpperCase s r c val)) = submitting s.
Proof.
  unfold handleInputChange.
  destruct (cellAt (grid s) r c) as [cell|]; [|done].
  destruct (_ || _ || _); [done|]. case_bool_decide; [|done].
  destruct (moveFocus_frame s r c 1 None
              (setGrid (gridSet (grid s) r c (withChar cell (toUpperCase (sliceLast val)))) s))
    as (Hg & _ & _ & Hs & _).
  by rewrite Hg, Hs.
Qed.

Lemma handleKeyDown_keeps (s : State) (key : string) (r c : Z) :
  game (snd (handleKeyDown s key r c)) = game s
  ∧ submitting (snd (handleKeyDown s key r c)) = submitting s.
Proof.
  unfold handleKeyDown.
  destruct (_ || _); [done|].
  repeat case_bool_decide; try done.
  - destruct (cellAt (grid s) r c) as [cell|]; [|done].
    case_bool_decide; [|done].
    destruct (moveFocus_frame s r c (-1) None s) as (Hg & _ & _ & Hs & _).
    by rewrite Hg, Hs.
  - destruct (moveFocus_frame s r c 1 (Some horizontal) (setDirection horizontal s))
      as (Hg & _ & _ & Hs & _).
    by rewrite Hg, Hs.
  - destruct (moveFocus_frame s r c 1 (Some vertical) (setDirection vertical s))
      as (Hg & _ & _ & Hs & _).
    by rewrite Hg, Hs.
Qed.

Lemma handleCellClick_keeps (s : State) (r c : Z) :
  game (snd (handleCellClick s r c)) = game s
  ∧ submitting (snd (handleCellClick s r c)) = submitting s.
Proof.
  unfold handleCellClick.
  destruct (cellAt (grid s) r c) as [cell|]; [|done].
  destruct (_ || _ || _); [done|]. by case_bool_decide.
Qed.

Lemma tick_keeps (s : State) :
  game (tick s) = game s ∧ submitting (tick s) = submitting s.
Proof.
  unfold tick. destruct (game s) as [gm|] eqn:Hgame; [|by rewrite Hgame].
  destruct (negb (isPaused s) && negb (isFinished s)); simpl; by rewrite Hgame.
Qed.

Lemma togglePause_keeps (s : State) :
  game (togglePause s) = game s ∧ submitting (togglePause s) = submitting s.
Proof. unfold togglePause. by destruct (negb (isFinished s)). Qed.

Lemma sessionInvariant_resume (s : State) :
  isFinished s = false → sessionInvariant s → sessionInvariant (resume s).
Proof.
  intros Hf (gm & g0 & Hgame & Hinit & Hshape & Hlayout & Ht & _).
  exists gm, g0. simpl. do 4 (split; [done|]). split; [done|]. congruence.
Qed.

(** An event handled on the current state keeps the invariants when its
    handler keeps the state's invariant, the game and [submitting]. *)
Lemma invariants_onCurrent (f : State → State) (ss : Session) :
  (sessionInvariant (current ss) → sessionInvariant (f (current ss))) →
  game (f (current ss)) = game (current ss)
  ∧ submitting (f (current ss)) = submitting (current ss) →
  sessionInvariant (current ss) ∧ inFlightInvariant ss →
  sessionInvariant (current (onCurrent f ss)) ∧ inFlightInvariant (onCurrent f ss).
Proof.
  intros Hf [Hg Hs] [Hinv (Hlen & Hsub & Hcl)]. split; [by apply Hf|].
  unfold inFlightInvariant. simpl. by rewrite Hg, Hs.
Qed.

Lemma invariants_request (ss : Session) :
  submitting (current ss) = false →
  sessionInvariant (current ss) ∧ inFlightInvariant ss →
  sessionInvariant (current (request ss)) ∧ inFlightInvariant (request ss).
Proof.
  intros Hsub [Hinv (Hlen & Hiff & Hcl)].
  assert (Hnil : inFlight ss = []).
  { destruct (inFlight ss) as [|cl rest] eqn:Hfl; [done|].
    assert (submitting (current ss) = true) by (by apply Hiff). congruence. }
  pose proof Hinv as (gm & g0 & Hgame & _).
  unfold request, handleSubmit_request. rewrite Hgame, Hnil.
  destruct (answersPayload (grid (current ss)) (GameData.words gm))
    as [answers|e] eqn:Hans; simpl.
  - split; [by apply sessionInvariant_setSubmitting|].
    split; [done|]. split; [done|].
    intros cl ->%list_elem_of_singleton. split; [done|]. split; [done|].
    by exists gm, answers.
  - split; [by apply sessionInvariant_setSubmitting|].
    split; [simpl; lia|]. split; [done|].
    intros cl Hin. by apply not_elem_of_nil in Hin.
Qed.

Lemma invariants_respond (i : nat) (res : Response) (ss : Session) :
  sessionInvariant (current ss) ∧ inFlightInvariant ss →
  sessionInvariant (current (respond i res ss)) ∧ inFlightInvariant (respond i res ss).
Proof.
  intros [Hinv (Hlen & Hiff & Hcl)]. unfold respond.
  destruct (inFlight ss !! i) as [cl|] eqn:Hi; [|done].
  assert (Hone : inFlight ss = [cl] ∧ i = 0%nat).
  { destruct (inFlight ss) as [|cl0 [|cl1 rest]]; [done| |simpl in Hlen; lia].
    destruct i as [|i]; [|done]. by injection Hi as ->. }
  destruct Hone as [Hfl ->].
  destruct (Hcl cl) as (Hgame & Hclinv & gm & answers & Hgm & Hans);
    [rewrite Hfl; by left|].
  rewrite Hfl. simpl.
  assert (Hres : sessionInvariant (handleSubmit_response cl res (current ss))
                 ∧ submitting (handleSubmit_response cl res (current ss)) = false).
  { pose proof (handleSubmit_response_spec cl (current ss) res gm answers Hgm Hans)
      as Hspec.
    destruct res as [|results].
    - rewrite Hspec. split; [by apply sessionInvariant_setSubmitting | done].
    - destruct Hspec as (newGrid & Hrun & Hcells & ->).
      split; [|done].
      destruct Hinv as (gm' & g0 & Hgame' & Hinit & _ & _ & Ht & Hf).
      destruct Hclinv as (gm'' & g0' & Hgame'' & Hinit' & Hshape & Hlayout & _).
      assert (gm'' = gm) as -> by congruence.
      assert (gm' = gm) as -> by congruence.
      assert (g0' = g0) as -> by congruence.
      pose proof (merge_words_shaped results _ _ (GameData.words gm) (grid cl) Hshape)
        as Hsh.
      rewrite Hrun in Hsh. simpl in Hsh.
      assert (Hlay : ∀ r c, layout <$> cellAt newGrid r c = layout <$> cellAt g0 r c).
      { intros r c. rewrite Hcells, <- Hlayout. by destruct (cellAt (grid cl) r c). }
      exists gm, g0.
      destruct (forallb _ results); simpl; do 4 (split; [done|]); split; done. }
  destruct Hres as [Hinv' Hsub']. split; [done|].
  split; [simpl; lia|]. split.
  - simpl. rewrite Hsub'. split; [done | by intros []].
  - intros cl' Hin. by apply not_elem_of_nil in Hin.
Qed.

(** The invariants of a session, with or without a check in flight. *)
Lemma session_invariants (toUpperCase : string → string) (ss : Session) :
  session toUpperCase ss → sessionInvariant (current ss) ∧ inFlightInvariant ss.
Proof.
  induction 1 as [data g Hinit|ss data g _ IH Hnil Hinit|ss r c val _ IH|ss key r c _ IH
                 |ss r c _ IH|ss _ IH Hsub|ss i res _ IH|ss _ IH|ss _ IH|ss _ IH
                 |ss _ IH Hp Hf].
  - split; [by apply (sessionInvariant_load data g)|].
    unfold inFlightInvariant, fetchGame. rewrite Hinit. simpl.
    split; [lia|]. split; [split; [done | by intros []]|].
    intros cl Hin. by apply not_elem_of_nil in Hin.
  - destruct IH as [(gm & g0 & _ & _ & _ & _ & Ht & Hf) (_ & Hiff & _)].
    split; [by apply (sessionInvariant_load data g)|].
    unfold inFlightInvariant, onCurrent, fetchGame. rewrite Hinit, Hnil in *. simpl.
    split; [lia|]. split; [done|].
    intros cl Hin. by apply not_elem_of_nil in Hin.
  - apply (invariants_onCurrent
             (fun s => snd (handleInputChange toUpperCase s r c val)));
      [apply sessionInvariant_handleInputChange | apply handleInputChange_keeps | done].
  - apply (invariants_onCurrent (fun s => snd (handleKeyDown s key r c)));
      [apply sessionInvariant_handleKeyDown | apply handleKeyDown_keeps | done].
  - apply (invariants_onCurrent (fun s => snd (handleCellClick s r c)));
      [apply sessionInvariant_handleCellClick | apply handleCellClick_keeps | done].
  - by apply invariants_request.
  - by apply invariants_respond.
  - apply invariants_onCurrent; [apply sessionInvariant_handleRestart | done | done].
  - apply invariants_onCurrent; [apply sessionInvariant_tick | apply tick_keeps | done].
  - apply invariants_onCurrent;
      [apply sessionInvariant_togglePause | apply togglePause_keeps | done].
  - apply invariants_onCurrent; [by apply sessionInvariant_resume | done | done].
Qed.

(** Every state of [reachable] is a session state with nothing in flight. *)
Lemma reachable_session (toUpperCase : string → string) (s : State) :
  reachable toUpperCase s → session toUpperCase (mkSession s []).
Proof.
  induction 1 as [data g Hinit|s data g _ IH Hinit|s r c val _ IH|s key r c _ IH
                 |s r c _ IH|s check _ IH|s _ IH|s _ IH|s _ IH|s _ IH Hp Hf].
  - by apply (session_load toUpperCase data g).
  - by apply (session_reload toUpperCase (mkSession s []) data g).
  - apply (session_input toUpperCase (mkSession s []) r c val IH).
  - apply (session_key toUpperCase (mkSession s []) key r c IH).
  - apply (session_click toUpperCase (mkSession s []) r c IH).
  - assert (Hsub : submitting s = false).
    { destruct (session_invariants _ _ IH) as [_ (_ & Hiff & _)]. simpl in Hiff.
      destruct (submitting s); [|done]. by destruct (proj1 Hiff eq_refl). }
    pose proof (session_request toUpperCase (mkSession s []) IH Hsub) as Hreq.
    rewrite handleSubmit_uninterrupted.
    unfold request in Hreq. simpl in Hreq.
    destruct (handleSubmit_request s) as [st [answers|]]; [|done].
    apply (session_response toUpperCase _ 0 (check answers) Hreq).
  - apply (session_restart toUpperCase (mkSession s []) IH).
  - apply (session_tick toUpperCase (mkSession s []) IH).
  - apply (session_togglePause toUpperCase (mkSession s []) IH).
  - by apply (session_resume toUpperCase (mkSession s []) IH).
Qed.

(** The answer to a check of the previous game, arriving after the next
    game has loaded, puts the previous game's grid back: here five rows
    under a game of two. *)
Example stale_response_after_reload :
  shaped 2 2
    (grid (fetchGame (Some smallGame)
             (setSubmitting true (fetchGame (Some exampleGame) initialState))))
  ∧ gameRows
      (handleSubmit_response (fetchGame (Some exampleGame) initialState) (Resolved [])
         (fetchGame (Some smallGame)
            (setSubmitting true (fetchGame (Some exampleGame) initialState)))) = 2
  ∧ length
      (grid
         (handleSubmit_response (fetchGame (Some exampleGame) initialState) (Resolved [])
            (fetchGame (Some smallGame)
               (setSubmitting true (fetchGame (Some exampleGame) initialState)))))
    = 5%nat.
Proof.
  split; [|split]; [|reflexivity|reflexivity].
  split; [reflexivity|]. intros i rowArr Hrow.
  destruct i as [|[|i]]; vm_compute in Hrow; [| |discriminate Hrow];
    by injection Hrow as <-.
Qed.

(** X1: in every state of a session, a check in flight or not, the grid
    has the loaded game's dimensions and the layout that [initializeGrid]
    derived for it (no handler edits an active mask, a clue number or a
    word-id list), the stopwatch is not negative, and a finished puzzle is
    paused.  At most one check is in flight, exactly while [submitting] is
    set, and the grid its handler closed over has the same game, shape and
    layout.  (A session takes a load for a new route id only while no
    check is in flight.) *)
Theorem session_invariant (toUpperCase : string → string) (ss : Session) :
  session toUpperCase ss → sessionInvariant (current ss) ∧ inFlightInvariant ss.
Proof. apply session_invariants. Qed.

Lemma session_invariant_witness :
  (sessionInvariant (current pendingSession) ∧ inFlightInvariant pendingSession)
  ∧ (sessionInvariant (current answeredSession) ∧ inFlightInvariant answeredSession).
Proof.
  assert (Hpending : session upperAscii pendingSession).
  { apply (session_input upperAscii
             (request (mkSession (fetchGame (Some exampleGame) initialState) [])) 0 0 "h").
    apply (session_request upperAscii
             (mkSession (fetchGame (Some exampleGame) initialState) []));
      [|reflexivity].
    apply (session_load upperAscii exampleGame exampleGrid). reflexivity. }
  split.
  - apply (session_invariant upperAscii pendingSession Hpending).
  - apply (session_invariant upperAscii answeredSession).
    apply (session_response upperAscii pendingSession 0 (Resolved allRight) Hpending).
Defined.

Lemma sessionInvariant_shaped (s : State) :
  sessionInvariant s → shaped (gameRows s) (gameCols s) (grid s).
Proof.
  intros (gm & g0 & Hgame & _ & Hshape & _). unfold gameRows, gameCols. by rewrite Hgame.
Qed.

Lemma moveFocus_normal (cl : State) (r c step : Z) (overrideDir : option Direction)
    (st : State) :
  shaped (gameRows cl) (gameCols cl) (grid cl) →
  fst (moveFocus cl r c step overrideDir st) = Normal tt.
Proof.
  intros Hshape. unfold moveFocus.
  destruct (moveFocus_loop _ _ _ _ _ _ _ _ _) as [res|] eqn:Hres; [|done].
  by eapply moveFocus_loop_normal.
Qed.

(** X2: in a session, a check in flight or not, no handler throws on a
    cell of the grid.  [moveFocus] always completes; [handleInputChange]
    and [handleCellClick] complete exactly when the cell they are called
    for exists (they are attached to rendered cells only);
    [handleKeyDown] completes on every existing cell. *)
Theorem session_handlers_complete (toUpperCase : string → string) (ss : Session)
    (r c : Z) (val key : string) :
  session toUpperCase ss →
  (∀ step overrideDir st,
     fst (moveFocus (current ss) r c step overrideDir st) = Normal tt)
  ∧ (fst (handleInputChange toUpperCase (current ss) r c val) = Normal tt
     ↔ is_Some (cellAt (grid (current ss)) r c))
  ∧ (fst (handleCellClick (current ss) r c) = Normal tt
     ↔ is_Some (cellAt (grid (current ss)) r c))
  ∧ (is_Some (cellAt (grid (current ss)) r c) →
     fst (handleKeyDown (current ss) key r c) = Normal tt)
  ∧ (is_Some (cellAt (grid (current ss)) r c)
     ↔ 0 ≤ r < gameRows (current ss) ∧ 0 ≤ c < gameCols (current ss)).
Proof.
  intros Hsession.
  pose proof (sessionInvariant_shaped _ (proj1 (session_invariants _ _ Hsession)))
    as Hshape.
  split; [|split; [|split; [|split]]].
  - intros step od st. by apply moveFocus_normal.
  - unfold handleInputChange.
    destruct (cellAt (grid (current ss)) r c) as [cell|];
      [|split; [done | by intros [? ?]]].
    split; [by eexists|]. intros _.
    destruct (_ || _ || _); [done|]. case_bool_decide; [|done].
    by apply moveFocus_normal.
  - unfold handleCellClick.
    destruct (cellAt (grid (current ss)) r c) as [cell|];
      [|split; [done | by intros [? ?]]].
    split; [by eexists|]. intros _. by destruct (_ || _ || _).
  - intros [cell Hcell]. unfold handleKeyDown. rewrite Hcell.
    destruct (_ || _); [done|].
    repeat case_bool_decide; try done; by apply moveFocus_normal.
  - by apply shaped_cellAt.
Qed.

Lemma session_handlers_complete_witness :
  (∀ step overrideDir st,
     fst (moveFocus (current pendingSession) 0 0 step overrideDir st) = Normal tt)
  ∧ (fst (handleInputChange upperAscii (current pendingSession) 0 0 "a") = Normal tt
     ↔ is_Some (cellAt (grid (current pendingSession)) 0 0))
  ∧ (fst (handleCellClick (current pendingSession) 0 0) = Normal tt
     ↔ is_Some (cellAt (grid (current pendingSession)) 0 0))
  ∧ (is_Some (cellAt (grid (current pendingSession)) 0 0) →
     fst (handleKeyDown (current pendingSession) "Backspace" 0 0) = Normal tt)
  ∧ (is_Some (cellAt (grid (current pendingSession)) 0 0)
     ↔ 0 ≤ 0 < gameRows (current pendingSession)
       ∧ 0 ≤ 0 < gameCols (current pendingSession)).
Proof.
  apply (session_handlers_complete upperAscii pendingSession 0 0 "a" "Backspace").
  apply (session_input upperAscii
           (request (mkSession (fetchGame (Some exampleGame) initialState) [])) 0 0 "h").
  apply (session_request upperAscii
           (mkSession (fetchGame (Some exampleGame) initialState) []));
    [|reflexivity].
  apply (session_load upperAscii exampleGame exampleGrid). reflexivity.
Defined.

(** *** Where the focus goes *)

Lemma moveFocus_loop_found (cl : State) (step : Z) (dir : Direction) (fuel : nat)
    (currR currC attempts : Z) (st : State) :
  moveFocus_loop cl step dir fuel currR currC true attempts st = Some (Normal tt, st).
Proof. by destruct fuel. Qed.

Lemma moveFocus_loop_first_active (cl : State) (step : Z) (dir : Direction) (fuel : nat) :
  shaped (gameRows cl) (gameCols cl) (grid cl) →
  ∀ currR currC attempts st k,
    1 ≤ k ≤ 50 - attempts → k ≤ Z.of_nat fuel →
    (∀ j, 1 ≤ j ≤ k →
       inBounds cl (scanRow dir currR step j) (scanCol dir currC step j)) →
    (∀ j, 1 ≤ j < k →
       activeAt (grid cl) (scanRow dir currR step j) (scanCol dir currC step j) = false) →
    activeAt (grid cl) (scanRow dir currR step k) (scanCol dir currC step k) = true →
    moveFocus_loop cl step dir fuel currR currC false attempts st
    = Some (Normal tt,
            setSelectedCell (Some (scanRow dir currR step k, scanCol dir currC step k))
              (focus (scanRow dir currR step k, scanCol dir currC step k) st)).
Proof.
  intros Hshape.
  induction fuel as [|fuel IH]; intros currR currC attempts st k Hk Hfuel Hin Hno Hact;
    [lia|].
  cbn [moveFocus_loop]. simpl negb. rewrite andb_true_l.
  destruct (Z.ltb_spec attempts 50) as [_|?]; [|lia].
  destruct (scan_first dir currR currC step) as [-> ->].
  pose proof (Hin 1 ltac:(lia)) as Hin1.
  rewrite (proj2 (outside_false_iff cl _ _) Hin1).
  destruct (proj2 (shaped_cellAt _ _ _ _ _ Hshape) Hin1) as [cell Hcell].
  pose proof Hcell as Hcell'. apply cellAt_Some in Hcell' as (rowArr & -> & ->).
  destruct (decide (k = 1)) as [->|Hne].
  - unfold activeAt in Hact. rewrite Hcell in Hact. rewrite Hact.
    apply moveFocus_loop_found.
  - pose proof (Hno 1 ltac:(lia)) as Hno1.
    unfold activeAt in Hno1. rewrite Hcell in Hno1. rewrite Hno1.
    destruct (scan_shift dir currR currC step (k - 1)) as [Er Ec].
    replace (k - 1 + 1) with k in Er, Ec by lia. rewrite <- Er, <- Ec.
    apply IH; try lia.
    + intros j Hj. destruct (scan_shift dir currR currC step j) as [-> ->].
      apply Hin. lia.
    + intros j Hj. destruct (scan_shift dir currR currC step j) as [-> ->].
      apply Hno. lia.
    + by rewrite Er, Ec.
Qed.

(** X3: when, within 50 steps and before the scan leaves the bounds, an
    active cell lies along the direction, [moveFocus] focuses and selects
    the nearest one and changes nothing else. *)
Theorem moveFocus_first_active (cl : State) (r c step : Z)
    (overrideDir : option Direction) (st : State) (k : Z) :
  shaped (gameRows cl) (gameCols cl) (grid cl) →
  1 ≤ k ≤ 50 →
  (∀ j, 1 ≤ j ≤ k →
     inBounds cl (scanRow (scanDir cl overrideDir) r step j)
       (scanCol (scanDir cl overrideDir) c step j)) →
  (∀ j, 1 ≤ j < k →
     activeAt (grid cl) (scanRow (scanDir cl overrideDir) r step j)
       (scanCol (scanDir cl overrideDir) c step j) = false) →
  activeAt (grid cl) (scanRow (scanDir cl overrideDir) r step k)
    (scanCol (scanDir cl overrideDir) c step k) = true →
  moveFocus cl r c step overrideDir st
  = (Normal tt,
     setSelectedCell
       (Some (scanRow (scanDir cl overrideDir) r step k,
              scanCol (scanDir cl overrideDir) c step k))
       (focus (scanRow (scanDir cl overrideDir) r step k,
               scanCol (scanDir cl overrideDir) c step k) st)).
Proof.
  intros Hshape Hk Hin Hno Hact. unfold moveFocus.
  rewrite (moveFocus_loop_first_active cl step (scanDir cl overrideDir) 50 Hshape
             r c 0 st k); try done; lia.
Qed.

Lemma moveFocus_first_active_witness :
  moveFocus exampleState 0 3 (-1) None exampleState
  = (Normal tt, setSelectedCell (Some (0, 2)) (focus (0, 2) exampleState)).
Proof.
  refine (moveFocus_first_active exampleState 0 3 (-1) None exampleState 1 _ _ _ _ _).
  - apply (initializeGrid_shaped exampleGame). reflexivity.
  - lia.
  - intros j Hj. assert (j = 1) as -> by lia.
    repeat split; vm_compute; first [reflexivity | discriminate].
  - intros j Hj. lia.
  - reflexivity.
Defined.

(** *** What the input handlers write *)

Lemma substring_last (val : string) :
  ∀ n, String.length val = S n →
    ∃ pre a, val = (pre +:+ String a EmptyString)%string
      ∧ String.substring n 1 val = String a EmptyString.
Proof.
  induction val as [|a val IH]; intros n Hlen; [done|].
  destruct n as [|n].
  - destruct val; [|done]. by exists EmptyString, a.
  - simpl in Hlen. destruct (IH n) as (pre & b & -> & Hsub); [lia|].
    exists (String a pre), b. by split.
Qed.

(** [val.slice(-1)] is the last character of [val], empty only for the
    empty string. *)
Lemma sliceLast_spec (val : string) :
  (val = EmptyString ∧ sliceLast val = EmptyString)
  ∨ ∃ pre a, val = (pre +:+ String a EmptyString)%string
      ∧ sliceLast val = String a EmptyString.
Proof.
  unfold sliceLast. destruct (String.length val) as [|n] eqn:Hlen.
  - left. by destruct val.
  - right. by apply substring_last.
Qed.

(** X4: typing into an active cell of a running puzzle stores the
    upper-cased last character of the input's value in that cell and
    touches no other cell; the cell keeps its layout and its correctness
    flag (a red or green mark survives the edit); game, stopwatch, pause
    flags and direction are unchanged. *)
Theorem handleInputChange_stores (toUpperCase : string → string) (s : State)
    (r c : Z) (val : string) (cell : CellData.t) :
  cellAt (grid s) r c = Some cell →
  CellData.isActive cell = true →
  isPaused s = false → isFinished s = false →
  (∃ last,
     ((val = EmptyString ∧ last = EmptyString)
      ∨ ∃ pre a, val = (pre +:+ String a EmptyString)%string
          ∧ last = String a EmptyString)
     ∧ ∀ r' c',
         cellAt (grid (snd (handleInputChange toUpperCase s r c val))) r' c' =
         if decide (r' = r ∧ c' = c)
         then Some (CellData.mk true (toUpperCase last) (CellData.number cell)
                      (CellData.wordIds cell) (CellData.isCorrect cell))
         else cellAt (grid s) r' c')
  ∧ game (snd (handleInputChange toUpperCase s r c val)) = game s
  ∧ timer (snd (handleInputChange toUpperCase s r c val)) = timer s
  ∧ isPaused (snd (handleInputChange toUpperCase s r c val)) = false
  ∧ isFinished (snd (handleInputChange toUpperCase s r c val)) = false
  ∧ direction (snd (handleInputChange toUpperCase s r c val)) = direction s.
Proof.
  intros Hcell Hact Hp Hf.
  set (st := setGrid (gridSet (grid s) r c
                        (withChar cell (toUpperCase (sliceLast val)))) s).
  assert (Hframe : sameButFocus st (snd (handleInputChange toUpperCase s r c val))).
  { unfold handleInputChange. rewrite Hcell, Hact, Hp, Hf. simpl.
    case_bool_decide; [apply moveFocus_frame | apply sameButFocus_refl]. }
  destruct Hframe as (Hg & Hgrid & _ & _ & Ht & Hpa & Hfi & Hd).
  rewrite Hg, Hgrid, Ht, Hpa, Hfi, Hd. simpl.
  split; [|done].
  exists (sliceLast val). split; [|].
  - destruct (sliceLast_spec val) as [[? ?]|(pre & a & ? & ?)]; [by left|].
    right. by exists pre, a.
  - intros r' c'. rewrite cellAt_gridSet by (by exists cell).
    unfold withChar. by rewrite Hact.
Qed.

Lemma handleInputChange_stores_witness :
  (∃ last,
     (("oh"%string = EmptyString ∧ last = EmptyString)
      ∨ ∃ pre a, "oh"%string = (pre +:+ String a EmptyString)%string
          ∧ last = String a EmptyString)
     ∧ ∀ r' c',
         cellAt (grid (snd (handleInputChange upperAscii exampleState 0 0 "oh"))) r' c' =
         if decide (r' = 0 ∧ c' = 0)
         then Some (CellData.mk true (upperAscii last) (Some 2)
                      ["w1"%string; "w2"%string] None)
         else cellAt (grid exampleState) r' c')
  ∧ game (snd (handleInputChange upperAscii exampleState 0 0 "oh")) = game exampleState
  ∧ timer (snd (handleInputChange upperAscii exampleState 0 0 "oh")) = timer exampleState
  ∧ isPaused (snd (handleInputChange upperAscii exampleState 0 0 "oh")) = false
  ∧ isFinished (snd (handleInputChange upperAscii exampleState 0 0 "oh")) = false
  ∧ direction (snd (handleInputChange upperAscii exampleState 0 0 "oh"))
    = direction exampleState.
Proof.
  exact (handleInputChange_stores upperAscii exampleState 0 0 "oh"
           (CellData.mk true EmptyString (Some 2) ["w1"%string; "w2"%string] None)
           eq_refl eq_refl eq_refl eq_refl).
Defined.

(** X5: a key press never edits the grid, the game, the stopwatch or the
    pause flags.  Only Backspace, ArrowRight and ArrowDown do anything (there
    is no handling of ArrowLeft or ArrowUp): any other key leaves the state
    as it is, ArrowRight and ArrowDown set the direction even when no cell
    can take the focus, and Backspace keeps the direction. *)
Theorem handleKeyDown_effect (s : State) (key : string) (r c : Z) :
  (game (snd (handleKeyDown s key r c)) = game s
   ∧ grid (snd (handleKeyDown s key r c)) = grid s
   ∧ timer (snd (handleKeyDown s key r c)) = timer s
   ∧ isPaused (snd (handleKeyDown s key r c)) = isPaused s
   ∧ isFinished (snd (handleKeyDown s key r c)) = isFinished s)
  ∧ (key ≠ "Backspace"%string → key ≠ "ArrowRight"%string →
     key ≠ "ArrowDown"%string → snd (handleKeyDown s key r c) = s)
  ∧ (isPaused s = false → isFinished s = false →
     (key = "ArrowRight"%string → direction (snd (handleKeyDown s key r c)) = horizontal)
     ∧ (key = "ArrowDown"%string → direction (snd (handleKeyDown s key r c)) = vertical))
  ∧ (key = "Backspace"%string →
     direction (snd (handleKeyDown s key r c)) = direction s).
Proof.
  assert (Hmf : ∀ step od st,
            sameButFocus (setDirection (direction st) s) st →
            sameButFocus (setDirection (direction (snd (moveFocus s r c step od st))) s)
              (snd (moveFocus s r c step od st))).
  { intros step od st Hst.
    destruct (moveFocus_frame s r c step od st) as (? & ? & ? & ? & ? & ? & ? & Hd).
    destruct Hst as (? & ? & ? & ? & ? & ? & ? & ?).
    rewrite Hd. repeat split; simpl in *; congruence. }
  assert (Hself : sameButFocus (setDirection (direction s) s) s) by (by repeat split).
  split; [|split; [|split]].
  - assert (Hall : sameButFocus (setDirection (direction (snd (handleKeyDown s key r c))) s)
                     (snd (handleKeyDown s key r c))).
    { unfold handleKeyDown. destruct (_ || _); [apply Hself|].
      repeat case_bool_decide; try apply Hself.
      + destruct (cellAt (grid s) r c) as [cell|]; [|apply Hself].
        case_bool_decide; [|apply Hself].
        by apply Hmf.
      + apply Hmf. by repeat split.
      + apply Hmf. by repeat split. }
    by destruct Hall as (? & ? & _ & _ & ? & ? & ? & _).
  - intros H1 H2 H3. unfold handleKeyDown. destruct (_ || _); [done|].
    by rewrite !bool_decide_eq_false_2.
  - intros Hp Hf. unfold handleKeyDown. rewrite Hp, Hf. simpl.
    split; intros ->; simpl.
    + by destruct (moveFocus_frame s r c 1 (Some horizontal) (setDirection horizontal s))
        as (_ & _ & _ & _ & _ & _ & _ & ->).
    + by destruct (moveFocus_frame s r c 1 (Some vertical) (setDirection vertical s))
        as (_ & _ & _ & _ & _ & _ & _ & ->).
  - intros ->. unfold handleKeyDown. destruct (_ || _); [done|]. simpl.
    destruct (cellAt (grid s) r c) as [cell|]; [|done].
    case_bool_decide; [|done].
    by destruct (moveFocus_frame s r c (-1) None s) as (_ & _ & _ & _ & _ & _ & _ & ->).
Qed.

Lemma handleKeyDown_effect_witness :
  direction (snd (handleKeyDown exampleState "ArrowDown" 0 4)) = vertical
  ∧ snd (handleKeyDown exampleState "ArrowLeft" 0 4) = exampleState.
Proof.
  split.
  - refine (proj2 (proj1 (proj2 (proj2 (handleKeyDown_effect exampleState "ArrowDown" 0 4)))
                     eq_refl eq_refl) eq_refl).
  - refine (proj1 (proj2 (handleKeyDown_effect exampleState "ArrowLeft" 0 4)) _ _ _);
      discriminate.
Defined.

(** X6: clicking an active cell of a running puzzle selects it; the
    direction flips exactly when the cell was already selected, so a second
    click on the selected cell brings the first state back; a click on an
    inactive cell does nothing. *)
Theorem handleCellClick_toggles (s : State) (r c : Z) (cell : CellData.t) :
  cellAt (grid s) r c = Some cell →
  isPaused s = false → isFinished s = false →
  (CellData.isActive cell = false → snd (handleCellClick s r c) = s)
  ∧ (CellData.isActive cell = true →
     selectedCell (snd (handleCellClick s r c)) = Some (r, c)
     ∧ grid (snd (handleCellClick s r c)) = grid s
     ∧ (selectedCell s ≠ Some (r, c) →
        direction (snd (handleCellClick s r c)) = direction s)
     ∧ (selectedCell s = Some (r, c) →
        direction (snd (handleCellClick s r c)) ≠ direction s
        ∧ snd (handleCellClick (snd (handleCellClick s r c)) r c) = s)).
Proof.
  intros Hcell Hp Hf. split.
  - intros Hact. unfold handleCellClick. by rewrite Hcell, Hact.
  - intros Hact.
    assert (Hone : ∀ s0, cellAt (grid s0) r c = Some cell →
              isPaused s0 = false → isFinished s0 = false →
              snd (handleCellClick s0 r c) =
              setSelectedCell (Some (r, c))
                (if bool_decide (selectedCell s0 = Some (r, c))
                 then setDirection
                        (match direction s0 with
                         | horizontal => vertical | vertical => horizontal end) s0
                 else s0)).
    { intros s0 H1 H2 H3. unfold handleCellClick. by rewrite H1, Hact, H2, H3. }
    rewrite (Hone s Hcell Hp Hf).
    split; [done|]. split; [by case_bool_decide|]. split.
    + intros Hsel. by rewrite bool_decide_eq_false_2.
    + intros Hsel. rewrite bool_decide_eq_true_2 by done. split.
      * simpl. by destruct (direction s).
      * rewrite Hone; [|done..]. simpl.
        rewrite bool_decide_eq_true_2 by done.
        destruct s as [gm g l sb t p f sel d foc]. simpl in *. subst sel.
        by destruct d.
Qed.

Lemma handleCellClick_toggles_witness :
  direction (snd (handleCellClick (setSelectedCell (Some (0, 0)) exampleState) 0 0))
    ≠ direction (setSelectedCell (Some (0, 0)) exampleState)
  ∧ snd (handleCellClick
           (snd (handleCellClick (setSelectedCell (Some (0, 0)) exampleState) 0 0)) 0 0)
    = setSelectedCell (Some (0, 0)) exampleState.
Proof.
  refine (proj2 (proj2 (proj2 (proj2
            (handleCellClick_toggles (setSelectedCell (Some (0, 0)) exampleState) 0 0
               (CellData.mk true EmptyString (Some 2) ["w1"%string; "w2"%string] None)
               eq_refl eq_refl eq_refl) eq_refl))) eq_refl).
Defined.

(** *** Checks *)

(** X7: the answer to a check installs the grid of the moment the button
    was clicked, with its flags merged.  Every cell of the new grid has the
    character, active mask, clue number and word ids that the captured grid
    had there, no cell appears or disappears, and a cell that no word
    covers is the captured cell: what was typed while the request was
    pending is discarded.  Game, stopwatch, selection, direction and focus
    are those of the current state, [submitting] is cleared, and a
    rejected request changes nothing else. *)
Theorem handleSubmit_response_frame (cl st : State) (res : Response)
    (gm : GameData.t) (answers : list Answer.t) (r c : Z) :
  game cl = Some gm →
  answersPayload (grid cl) (GameData.words gm) = Normal answers →
  game (handleSubmit_response cl res st) = game st
  ∧ timer (handleSubmit_response cl res st) = timer st
  ∧ selectedCell (handleSubmit_response cl res st) = selectedCell st
  ∧ direction (handleSubmit_response cl res st) = direction st
  ∧ focused (handleSubmit_response cl res st) = focused st
  ∧ submitting (handleSubmit_response cl res st) = false
  ∧ match res with
    | Rejected => handleSubmit_response cl res st = setSubmitting false st
    | Resolved results =>
      match cellAt (grid cl) r c with
      | Some cell =>
        ∃ cell', cellAt (grid (handleSubmit_response cl res st)) r c = Some cell'
          ∧ CellData.char cell' = CellData.char cell
          ∧ layout cell' = layout cell
          ∧ ((∀ w, w ∈ GameData.words gm → ¬ coversCell w r c) → cell' = cell)
      | None => cellAt (grid (handleSubmit_response cl res st)) r c = None
      end
    end.
Proof.
  intros Hgame Hans.
  pose proof (handleSubmit_response_spec cl st res gm answers Hgame Hans) as Hspec.
  destruct res as [|results]; [by rewrite Hspec|].
  destruct Hspec as (newGrid & Hrun & Hcells & ->).
  do 6 (split; [by destruct (forallb _ results)|]).
  assert (Hgrid : grid (setSubmitting false
                    (if forallb CheckResult.is_correct results
                     then setIsFinished true (setIsPaused true (setGrid newGrid st))
                     else setGrid newGrid st)) = newGrid)
    by (by destruct (forallb _ results)).
  rewrite Hgrid, Hcells.
  destruct (cellAt (grid cl) r c) as [cell|]; [|done].
  exists (mergedCell results (GameData.words gm) r c cell).
  split; [done|]. split; [done|]. split; [done|].
  intros Hno. unfold mergedCell, mergedFlag.
  assert (Hex : ∀ f, existsb (fun w => coversb w r c && f w) (GameData.words gm) = false).
  { intros f. apply not_true_iff_false.
    intros (w & Hin & [Hc _]%andb_true_iff)%existsb_elem_of.
    apply (Hno w Hin). by apply coversb_spec. }
  rewrite Hex.
  assert (Hex2 : existsb (fun w => coversb w r c) (GameData.words gm) = false).
  { apply not_true_iff_false. intros (w & Hin & Hc)%existsb_elem_of.
    apply (Hno w Hin). by apply coversb_spec. }
  rewrite Hex2. by destruct cell.
Qed.

Lemma handleSubmit_response_frame_witness :
  CellData.char <$> cellAt (grid (current pendingSession)) 0 0 = Some "H"%string
  ∧ CellData.char <$> cellAt (grid (current answeredSession)) 0 0 = Some EmptyString.
Proof.
  split; [reflexivity|].
  destruct (handleSubmit_response_frame (fetchGame (Some exampleGame) initialState)
              (current pendingSession) (Resolved allRight) exampleGame
              [Answer.mk "w1" "     "; Answer.mk "w2" "   "] 0 0 eq_refl eq_refl)
    as (_ & _ & _ & _ & _ & _ & H).
  change (cellAt (grid (fetchGame (Some exampleGame) initialState)) 0 0)
    with (Some (CellData.mk true EmptyString (Some 2) ["w1"; "w2"]%string None)) in H.
  destruct H as (cell' & Hcell' & Hchar & _).
  change (current answeredSession)
    with (handleSubmit_response (fetchGame (Some exampleGame) initialState)
            (Resolved allRight) (current pendingSession)).
  by rewrite Hcell'; simpl; rewrite Hchar.
Defined.

Lemma userAnswer_loop_throws (g : Grid) (w : WordData.t) (todo : nat) :
  ∀ j acc e, userAnswer_loop g w j todo acc = Throw e → e = TypeError.
Proof.
  induction todo as [|todo IH]; intros j acc e; [done|].
  cbn [userAnswer_loop]. destruct (cellAt g _ _); [apply IH | by intros [= <-]].
Qed.

Lemma answersPayload_throws (g : Grid) (ws : list WordData.t) (e : exn) :
  answersPayload g ws = Throw e → e = TypeError.
Proof.
  revert e. induction ws as [|w rest IH]; intros e; [done|]. cbn [answersPayload].
  destruct (userAnswer_loop g w 0 _ _) as [ua|e'] eqn:Hua.
  - destruct (answersPayload g rest) as [?|e'']; [done|]. intros [= <-]. by apply IH.
  - intros [= <-]. by eapply userAnswer_loop_throws.
Qed.

Lemma answersPayload_missing (g : Grid) (ws : list WordData.t) (w : WordData.t)
    (r c i : Z) :
  w ∈ ws → covers w r c i → cellAt g r c = None →
  answersPayload g ws = Throw TypeError.
Proof.
  intros Hin Hcov Hnone.
  destruct (answersPayload g ws) as [answers|e] eqn:Hans.
  - destruct (answersPayload_spans g ws answers Hans w r c i Hin Hcov) as [cell Hcell].
    congruence.
  - by rewrite (answersPayload_throws g ws e Hans).
Qed.

(** X8: a word with a cell outside the grid makes every check fail before
    the backend is asked.  In a session whose game holds a word longer than
    the room left for it (which [initializeGrid] silently cut), the answer
    extraction dereferences the missing cell and throws: [handleSubmit] only
    clears [submitting], whatever the backend would have said. *)
Theorem handleSubmit_overflow_fails (toUpperCase : string → string) (s : State)
    (gm : GameData.t) (w : WordData.t) (i : Z) (check : list Answer.t → Response) :
  reachable toUpperCase s →
  game s = Some gm →
  w ∈ GameData.words gm →
  0 ≤ i < WordData.length w →
  ¬ (0 ≤ spanRow (WordData.direction w) (WordData.row_index w) i < GameData.rows gm
     ∧ 0 ≤ spanCol (WordData.direction w) (WordData.col_index w) i < GameData.cols gm) →
  handleSubmit check s = setSubmitting false s.
Proof.
  intros Hreach Hgame Hin Hi Hout.
  pose proof (sessionInvariant_shaped s (reachable_sessionInvariant _ _ Hreach)) as Hshape.
  unfold gameRows, gameCols in Hshape. rewrite Hgame in Hshape.
  assert (Hnone : cellAt (grid s)
                    (spanRow (WordData.direction w) (WordData.row_index w) i)
                    (spanCol (WordData.direction w) (WordData.col_index w) i) = None).
  { apply eq_None_not_Some. intros Hsome. apply Hout.
    by apply (shaped_cellAt _ _ _ _ _ Hshape). }
  unfold handleSubmit. rewrite Hgame.
  rewrite (answersPayload_missing (grid s) (GameData.words gm) w
             (spanRow (WordData.direction w) (WordData.row_index w) i)
             (spanCol (WordData.direction w) (WordData.col_index w) i) i Hin);
    [done | by split | done].
Qed.

Lemma handleSubmit_overflow_fails_witness :
  handleSubmit (fun _ => Resolved [CheckResult.mk "w1" true])
    (fetchGame (Some overflowGame) initialState)
  = setSubmitting false (fetchGame (Some overflowGame) initialState).
Proof.
  refine (handleSubmit_overflow_fails upperAscii
            (fetchGame (Some overflowGame) initialState) overflowGame
            (WordData.mk "w1" 1 horizontal 0 1 5 "long") 2
            (fun _ => Resolved [CheckResult.mk "w1" true]) _ eq_refl _ _ _).
  - apply (reach_load upperAscii overflowGame
             (match initializeGrid overflowGame with Normal g => g | Throw _ => [] end)).
    reflexivity.
  - left.
  - simpl. lia.
  - simpl. lia.
Defined.

(** X9: when the answers could be extracted and the request resolved, the
    puzzle is finished (and paused) afterwards exactly if it was before or
    every returned result is correct.  Words without a result do not count:
    an empty result list finishes the puzzle. *)
Theorem handleSubmit_finishes (check : list Answer.t → Response) (s : State)
    (gm : GameData.t) (answers : list Answer.t) (results : list CheckResult.t) :
  game s = Some gm →
  answersPayload (grid s) (GameData.words gm) = Normal answers →
  check answers = Resolved results →
  (isFinished (handleSubmit check s) = true ↔
   isFinished s = true ∨ ∀ res, res ∈ results → CheckResult.is_correct res = true)
  ∧ (isPaused (handleSubmit check s) = true ↔
     isPaused s = true ∨ ∀ res, res ∈ results → CheckResult.is_correct res = true)
  ∧ submitting (handleSubmit check s) = false.
Proof.
  intros Hgame Hans Hcheck.
  destruct (merge_words_normal check s gm answers results Hgame Hans Hcheck) as [Hrun _].
  assert (Hall : forallb CheckResult.is_correct results = true ↔
                 ∀ res, res ∈ results → CheckResult.is_correct res = true).
  { rewrite forallb_forall. split; intros H res Hin; apply H; by apply list_elem_of_In. }
  unfold handleSubmit. rewrite Hgame, Hans, Hcheck, Hrun.
  destruct (forallb CheckResult.is_correct results); simpl.
  - split; [|split; [|done]]; (split; [intros _; right; by apply Hall | done]).
  - split; [|split; [|done]];
      (split; [by left | intros [?|Hc]; [done | by apply Hall in Hc]]).
Qed.

Lemma handleSubmit_finishes_witness :
  isFinished (handleSubmit (fun _ => Resolved []) exampleState) = true.
Proof.
  refine (proj2 (proj1 (handleSubmit_finishes (fun _ => Resolved []) exampleState
                          exampleGame _ [] eq_refl _ eq_refl)) _).
  - reflexivity.
  - right. intros res Hin. by apply not_elem_of_nil in Hin.
Defined.

(** X10: a restart clears the way for the next check.  After [handleRestart]
    a check in which every word of the game is found correct flags every
    covered cell true, whatever flags the cells carried before the
    restart. *)
Theorem handleRestart_then_check (check : list Answer.t → Response) (s : State)
    (gm : GameData.t) (answers : list Answer.t) (results : list CheckResult.t)
    (w : WordData.t) (r c : Z) :
  game s = Some gm →
  answersPayload (grid (handleRestart s)) (GameData.words gm) = Normal answers →
  check answers = Resolved results →
  (∀ w', w' ∈ GameData.words gm → verdict results w' = true) →
  w ∈ GameData.words gm → coversCell w r c →
  ∃ cell', cellAt (grid (handleSubmit check (handleRestart s))) r c = Some cell'
    ∧ CellData.isCorrect cell' = Some true.
Proof.
  intros Hgame Hans Hcheck Hall Hin [i Hcov].
  assert (Hgame' : game (handleRestart s) = Some gm) by done.
  destruct (merge_words_normal check (handleRestart s) gm answers results
              Hgame' Hans Hcheck) as [_ Hcells].
  destruct (answersPayload_spans _ _ _ Hans w r c i Hin Hcov) as [cell Hcell].
  exists (mergedCell results (GameData.words gm) r c cell).
  split; [by rewrite Hcells, Hcell|].
  apply mergedFlag_correct.
  - exists w. split; [done | by exists i].
  - intros w' Hin' _. by apply Hall.
  - simpl in Hcell. rewrite cellAt_fmap in Hcell.
    destruct (cellAt (grid s) r c) as [cell0|]; [|done].
    injection Hcell as <-. done.
Qed.

Lemma handleRestart_then_check_witness :
  ∃ cell',
    cellAt (grid (handleSubmit (fun _ => Resolved allRight)
                    (handleRestart
                       (handleSubmit (fun _ => Resolved hatWrong) exampleState)))) 1 0
    = Some cell'
    ∧ CellData.isCorrect cell' = Some true.
Proof.
  refine (handleRestart_then_check (fun _ => Resolved allRight)
            (handleSubmit (fun _ => Resolved hatWrong) exampleState)
            exampleGame _ allRight (WordData.mk "w2" 2 vertical 0 0 3 "headwear") 1 0
            eq_refl _ eq_refl _ _ _).
  - reflexivity.
  - intros w' Hin. apply elem_of_cons in Hin as [->|Hin]; [reflexivity|].
    apply list_elem_of_singleton in Hin as ->. reflexivity.
  - right. left.
  - exists 1. unfold covers. simpl. lia.
Defined.

(** *** What initializeGrid stores *)

Lemma initializeGrid_loop_cells (data : GameData.t) (word : WordData.t) (todo : nat) :
  0 ≤ WordData.row_index word → 0 ≤ WordData.col_index word →
  ∀ i g, 0 ≤ i →
    shaped (GameData.rows data) (GameData.cols data) g →
    ∃ g', initializeGrid_loop data word i todo g = Normal g'
      ∧ ∀ r c,
          (∀ k, i ≤ k < i + Z.of_nat todo →
             r = spanRow (WordData.direction word) (WordData.row_index word) k →
             c = spanCol (WordData.direction word) (WordData.col_index word) k →
             cellAt g' r c = markCell word (k =? 0) <$> cellAt g r c)
          ∧ (¬ (∃ k, i ≤ k < i + Z.of_nat todo
                ∧ r = spanRow (WordData.direction word) (WordData.row_index word) k
                ∧ c = spanCol (WordData.direction word) (WordData.col_index word) k) →
             cellAt g' r c = cellAt g r c).
Proof.
  intros Hrow Hcol. induction todo as [|todo IH]; intros i g Hi Hshape.
  - exists g. split; [done|]. intros r c. split; [|done]. intros k ?. lia.
  - cbn [initializeGrid_loop].
    set (ri := spanRow (WordData.direction word) (WordData.row_index word) i).
    set (ci := spanCol (WordData.direction word) (WordData.col_index word) i).
    assert (Hri : 0 ≤ ri) by (subst ri; destruct (WordData.direction word); simpl; lia).
    assert (Hci : 0 ≤ ci) by (subst ci; destruct (WordData.direction word); simpl; lia).
    assert (Huniq : ∀ k, ri = spanRow (WordData.direction word) (WordData.row_index word) k →
              ci = spanCol (WordData.direction word) (WordData.col_index word) k → k = i).
    { intros k. subst ri ci. destruct (WordData.direction word); simpl; lia. }
    assert (Hrest : ∀ r c, ¬ (r = ri ∧ c = ci) →
      ((∃ k, i + 1 ≤ k < i + 1 + Z.of_nat todo
          ∧ r = spanRow (WordData.direction word) (WordData.row_index word) k
          ∧ c = spanCol (WordData.direction word) (WordData.col_index word) k)
       ↔ ∃ k, i ≤ k < i + Z.of_nat (S todo)
          ∧ r = spanRow (WordData.direction word) (WordData.row_index word) k
          ∧ c = spanCol (WordData.direction word) (WordData.col_index word) k)).
    { intros r c Hne. split; intros (k & Hk & Hrc); exists k; (split; [|done]); [lia|].
      destruct (decide (k = i)) as [->|]; [by destruct Hne | lia]. }
    destruct ((ri <? GameData.rows data) && (ci <? GameData.cols data)) eqn:Hguard.
    + apply andb_true_iff in Hguard as [Hr%Z.ltb_lt Hc%Z.ltb_lt].
      assert (Hex : is_Some (cellAt g ri ci)) by (apply (shaped_cellAt _ _ _ _ _ Hshape); lia).
      destruct Hex as [old Hold]. rewrite Hold.
      set (cell1 := CellData.mk true _ _ _ _).
      assert (Hg1 : ∀ r c, cellAt (gridSet g ri ci cell1) r c =
                if decide (r = ri ∧ c = ci) then Some cell1 else cellAt g r c).
      { intros r c. apply cellAt_gridSet. by exists old. }
      destruct (IH (i + 1) (gridSet g ri ci cell1)) as (g' & Hrun & Hcells);
        [lia | by apply shaped_gridSet |].
      exists g'. split; [done|]. intros r c.
      destruct (Hcells r c) as [Hin Hout].
      destruct (decide (r = ri ∧ c = ci)) as [[-> ->]|Hne].
      * split; [|intros Hno; exfalso; apply Hno; exists i; split; [lia|done]].
        intros k Hk Hkr Hkc. rewrite (Huniq k Hkr Hkc).
        rewrite Hout.
        2:{ intros (k' & Hk' & Hr' & Hc'). pose proof (Huniq k' Hr' Hc'). lia. }
        rewrite Hg1, decide_True by done. by rewrite Hold.
      * split.
        -- intros k Hk Hkr Hkc.
           assert (k ≠ i) by (intros ->; by destruct Hne).
           rewrite (Hin k ltac:(lia) Hkr Hkc), Hg1. by rewrite decide_False.
        -- intros Hno. rewrite Hout, Hg1; [by rewrite decide_False|].
           by rewrite (Hrest r c Hne).
    + destruct (IH (i + 1) g) as (g' & Hrun & Hcells); [lia|done|].
      exists g'. split; [done|]. intros r c.
      destruct (Hcells r c) as [Hin Hout].
      assert (Hnone : cellAt g ri ci = None).
      { apply eq_None_not_Some. intros Hsome%(shaped_cellAt _ _ _ _ _ Hshape).
        apply andb_false_iff in Hguard as [?%Z.ltb_ge|?%Z.ltb_ge]; lia. }
      destruct (decide (r = ri ∧ c = ci)) as [[-> ->]|Hne].
      * split; [|intros Hno; exfalso; apply Hno; exists i; split; [lia|done]].
        intros k Hk Hkr Hkc. rewrite Hout.
        2:{ intros (k' & Hk' & Hr' & Hc'). pose proof (Huniq k' Hr' Hc'). lia. }
        by rewrite Hnone.
      * split.
        -- intros k Hk Hkr Hkc.
           assert (k ≠ i) by (intros ->; by destruct Hne).
           apply Hin; [lia|done|done].
        -- intros Hno. apply Hout. by rewrite (Hrest r c Hne).
Qed.

Lemma covers_origin (w : WordData.t) (r c k : Z) :
  covers w r c k → (k =? 0) = isOrigin w r c.
Proof.
  unfold covers, isOrigin. intros (Hk & -> & ->).
  destruct (WordData.direction w); simpl;
    destruct (Z.eqb_spec k 0); symmetry;
    rewrite ?andb_true_iff, ?andb_false_iff, ?Z.eqb_eq, ?Z.eqb_neq; lia.
Qed.

Lemma initializeGrid_words_cells (data : GameData.t) (ws : list WordData.t) :
  (∀ w, w ∈ ws → 0 ≤ WordData.row_index w ∧ 0 ≤ WordData.col_index w) →
  ∀ g, shaped (GameData.rows data) (GameData.cols data) g →
    ∀ g', initializeGrid_words data ws g = Normal g' →
      ∀ r c, cellAt g' r c = placedCell ws r c <$> cellAt g r c.
Proof.
  induction ws as [|word rest IH]; intros Horig g Hshape g' Hrun r c.
  - injection Hrun as <-. by destruct (cellAt g r c).
  - cbn [initializeGrid_words] in Hrun.
    destruct (Horig word) as [Hrow Hcol]; [by left|].
    destruct (initializeGrid_loop_cells data word (Z.to_nat (WordData.length word))
                Hrow Hcol 0 g) as (g1 & Hg1 & Hcells1); [lia|done|].
    rewrite Hg1 in Hrun.
    rewrite (IH (fun w Hin => Horig w (list_elem_of_further _ _ _ Hin)) g1
               (initializeGrid_loop_shaped _ _ _ _ _ _ _ _ Hshape Hg1) g' Hrun r c).
    destruct (Hcells1 r c) as [Hin Hout].
    unfold placedCell at 2. cbn [fold_left]. fold (placedCell rest r c).
    destruct (coversb word r c) eqn:Hcov.
    + apply coversb_spec in Hcov as [k Hk].
      rewrite (Hin k); [|unfold covers in Hk; lia|apply Hk|apply Hk].
      rewrite (covers_origin word r c k Hk). by destruct (cellAt g r c).
    + rewrite Hout; [done|]. intros (k & Hk & Hr & Hc).
      apply not_true_iff_false in Hcov. apply Hcov, coversb_spec. exists k.
      unfold covers. split; [lia|done].
Qed.

Lemma placedCell_cons (w : WordData.t) (rest : list WordData.t) (r c : Z)
    (cell : CellData.t) :
  placedCell (w :: rest) r c cell
  = placedCell rest r c
      (if coversb w r c then markCell w (isOrigin w r c) cell else cell).
Proof. done. Qed.

Lemma placedCell_fields (ws : list WordData.t) (r c : Z) :
  ∀ cell,
    CellData.char (placedCell ws r c cell) = CellData.char cell
    ∧ CellData.isCorrect (placedCell ws r c cell) = CellData.isCorrect cell
    ∧ CellData.wordIds (placedCell ws r c cell)
      = CellData.wordIds cell
        ++ (WordData.id <$> List.filter (fun w => coversb w r c) ws)
    ∧ CellData.number (placedCell ws r c cell)
      = match last (List.filter (fun w => coversb w r c && isOrigin w r c) ws) with
        | Some w => Some (WordData.number w)
        | None => CellData.number cell
        end.
Proof.
  induction ws as [|w rest IH]; intros cell.
  - simpl. by rewrite app_nil_r.
  - rewrite placedCell_cons. cbn [List.filter].
    destruct (coversb w r c); cbn [andb]; [|apply IH].
    destruct (IH (markCell w (isOrigin w r c) cell)) as (-> & -> & -> & ->).
    split; [done|]. split; [done|].
    split; [simpl; by rewrite <- app_assoc|].
    destruct (isOrigin w r c); [|reflexivity].
    rewrite last_cons. by destruct (last _).
Qed.

(** X11: in a grid built by [initializeGrid] from a word list with
    non-negative origins, every cell starts with no character and no
    correctness flag; its word ids are the ids of the words whose span
    passes over it, in word-list order, each once; and its clue number is
    the number of the last word in the list that starts on it (none if no
    word starts there). *)
Theorem initializeGrid_cells (data : GameData.t) (g : Grid) (r c : Z)
    (cell : CellData.t) :
  (∀ w, w ∈ GameData.words data →
     0 ≤ WordData.row_index w ∧ 0 ≤ WordData.col_index w) →
  initializeGrid data = Normal g →
  cellAt g r c = Some cell →
  CellData.char cell = EmptyString
  ∧ CellData.isCorrect cell = None
  ∧ CellData.wordIds cell
    = (WordData.id <$> List.filter (fun w => coversb w r c) (GameData.words data))
  ∧ CellData.number cell
    = (WordData.number <$>
         last (List.filter (fun w => coversb w r c && isOrigin w r c)
                 (GameData.words data))).
Proof.
  intros Horig Hinit Hcell. unfold initializeGrid in Hinit.
  destruct (blankGrid _ _) as [g0|] eqn:Hblank; [|done].
  apply blankGrid_Normal in Hblank as [Hshape0 Hblank].
  rewrite (initializeGrid_words_cells data _ Horig g0 Hshape0 g Hinit r c) in Hcell.
  destruct (cellAt g0 r c) as [cell0|] eqn:Hc0; [|done].
  injection Hcell as <-. rewrite (Hblank r c cell0 Hc0).
  destruct (placedCell_fields (GameData.words data) r c blankCell) as (-> & -> & -> & ->).
  by repeat split.
Qed.

Lemma initializeGrid_cells_witness :
  CellData.char (CellData.mk true EmptyString (Some 2) ["w1"%string; "w2"%string] None)
    = EmptyString
  ∧ CellData.isCorrect
      (CellData.mk true EmptyString (Some 2) ["w1"%string; "w2"%string] None) = None
  ∧ CellData.wordIds
      (CellData.mk true EmptyString (Some 2) ["w1"%string; "w2"%string] None)
    = (WordData.id <$> List.filter (fun w => coversb w 0 0) (GameData.words exampleGame))
  ∧ CellData.number
      (CellData.mk true EmptyString (Some 2) ["w1"%string; "w2"%string] None)
    = (WordData.number <$>
         last (List.filter (fun w => coversb w 0 0 && isOrigin w 0 0)
                 (GameData.words exampleGame))).
Proof.
  refine (initializeGrid_cells exampleGame exampleGrid 0 0 _ _ eq_refl eq_refl).
  intros w Hin. apply elem_of_cons in Hin as [->|Hin]; [simpl; lia|].
  apply list_elem_of_singleton in Hin as ->. simpl. lia.
Defined.

(** *** A load that fails on a word *)

Lemma initializeGrid_loop_negative (data : GameData.t) (w : WordData.t) (todo : nat)
    (g : Grid) :
  WordData.row_index w < GameData.rows data →
  WordData.col_index w < GameData.cols data →
  WordData.row_index w < 0 ∨ WordData.col_index w < 0 →
  initializeGrid_loop data w 0 (S todo) g = Throw TypeError.
Proof.
  intros Hr Hc Hneg. cbn [initializeGrid_loop].
  assert (Hrow : spanRow (WordData.direction w) (WordData.row_index w) 0
                 = WordData.row_index w) by (destruct (WordData.direction w); simpl; lia).
  assert (Hcol : spanCol (WordData.direction w) (WordData.col_index w) 0
                 = WordData.col_index w) by (destruct (WordData.direction w); simpl; lia).
  rewrite Hrow, Hcol.
  rewrite (proj2 (Z.ltb_lt _ _) Hr), (proj2 (Z.ltb_lt _ _) Hc). simpl.
  assert (Hnone : cellAt g (WordData.row_index w) (WordData.col_index w) = None).
  { unfold cellAt, arrayGet. destruct Hneg as [Hn|Hn].
    - by rewrite (proj2 (Z.ltb_lt _ _) Hn).
    - destruct (WordData.row_index w <? 0); [done|].
      destruct (g !! _); [|done]. by rewrite (proj2 (Z.ltb_lt _ _) Hn). }
  by rewrite Hnone.
Qed.

Lemma initializeGrid_loop_throws (data : GameData.t) (w : WordData.t) (todo : nat) :
  ∀ i g e, initializeGrid_loop data w i todo g = Throw e → e = TypeError.
Proof.
  induction todo as [|todo IH]; intros i g e; [done|].
  cbn [initializeGrid_loop]. destruct (_ && _); [|apply IH].
  destruct (cellAt g _ _); [apply IH | by intros [= <-]].
Qed.

Lemma initializeGrid_words_negative (data : GameData.t) (ws : list WordData.t)
    (w : WordData.t) :
  w ∈ ws → 1 ≤ WordData.length w →
  WordData.row_index w < GameData.rows data →
  WordData.col_index w < GameData.cols data →
  WordData.row_index w < 0 ∨ WordData.col_index w < 0 →
  ∀ g, initializeGrid_words data ws g = Throw TypeError.
Proof.
  intros Hin Hlen Hr Hc Hneg.
  induction ws as [|w' rest IH]; intros g; [by apply not_elem_of_nil in Hin|].
  cbn [initializeGrid_words].
  destruct (initializeGrid_loop data w' 0 _ g) as [g1|e] eqn:Hloop.
  - apply elem_of_cons in Hin as [->|Hin]; [|by apply IH].
    destruct (Z.to_nat (WordData.length w')) as [|todo] eqn:Hn; [lia|].
    by rewrite initializeGrid_loop_negative in Hloop.
  - by rewrite (initializeGrid_loop_throws _ _ _ _ _ _ Hloop).
Qed.

(** X12: a word with at least one cell whose origin passes the guard
    [r < rows && c < cols] but has a negative coordinate makes
    [initializeGrid] throw a [TypeError] (when the blank grid could be
    allocated).  [fetchGame] has then already set the game but not the grid,
    so the load ends with the grid it started with. *)
Theorem initializeGrid_negative_origin (data : GameData.t) (w : WordData.t)
    (g0 : Grid) (s : State) :
  blankGrid (GameData.rows data) (GameData.cols data) = Normal g0 →
  w ∈ GameData.words data →
  1 ≤ WordData.length w →
  WordData.row_index w < GameData.rows data →
  WordData.col_index w < GameData.cols data →
  WordData.row_index w < 0 ∨ WordData.col_index w < 0 →
  initializeGrid data = Throw TypeError
  ∧ fetchGame (Some data) s = setLoading false (setGame (Some data) s).
Proof.
  intros Hblank Hin Hlen Hr Hc Hneg.
  assert (Hinit : initializeGrid data = Throw TypeError).
  { unfold initializeGrid. rewrite Hblank.
    by apply (initializeGrid_words_negative data _ w). }
  split; [done|]. unfold fetchGame. by rewrite Hinit.
Qed.

Lemma initializeGrid_negative_origin_witness :
  initializeGrid
    (GameData.mk "g3" "Off grid" 3 3 [WordData.mk "w1" 1 vertical (-1) 0 2 "up"])
  = Throw TypeError
  ∧ fetchGame
      (Some (GameData.mk "g3" "Off grid" 3 3 [WordData.mk "w1" 1 vertical (-1) 0 2 "up"]))
      initialState
    = setLoading false
        (setGame
           (Some (GameData.mk "g3" "Off grid" 3 3
                    [WordData.mk "w1" 1 vertical (-1) 0 2 "up"]))
           initialState).
Proof.
  refine (initializeGrid_negative_origin
            (GameData.mk "g3" "Off grid" 3 3 [WordData.mk "w1" 1 vertical (-1) 0 2 "up"])
            (WordData.mk "w1" 1 vertical (-1) 0 2 "up") _ initialState
            eq_refl _ _ _ _ _).
  - left.
  - simpl. lia.
  - simpl. lia.
  - simpl. lia.
  - left. simpl. lia.
Defined.

(** *** The posted answers *)

Lemma string_length_append (a b : string) :
  String.length (a +:+ b) = (String.length a + String.length b)%nat.
Proof. induction a as [|x a IH]; simpl; [done | by rewrite IH]. Qed.

Lemma userAnswer_loop_length (g : Grid) (w : WordData.t) (todo : nat) :
  (∀ r c cell, cellAt g r c = Some cell →
     (String.length (CellData.char cell) ≤ 1)%nat) →
  ∀ i acc answer,
    userAnswer_loop g w i todo acc = Normal answer →
    String.length answer = (String.length acc + todo)%nat.
Proof.
  intros Hone. induction todo as [|todo IH]; intros i acc answer.
  - intros [= <-]. simpl. lia.
  - cbn [userAnswer_loop]. destruct (cellAt g _ _) as [cell|] eqn:Hcell; [|done].
    intros Hrun. rewrite (IH _ _ _ Hrun), string_length_append.
    assert (String.length (charOrBlank cell) = 1%nat); [|lia].
    unfold charOrBlank. case_bool_decide as Hempty; [done|].
    pose proof (Hone _ _ _ Hcell).
    destruct (CellData.char cell) as [|a [|b rest]]; simpl in *; [done|done|lia].
Qed.

(** X13: when the answer extraction completes, the payload holds one answer
    per word of the game, in word-list order, under the word's id; and if
    every cell holds at most one character (what [handleInputChange] stores
    for an upper-casing that keeps single characters single), each answer
    has exactly as many characters as its word has cells, a blank standing
    for every empty cell. *)
Theorem answersPayload_shape (g : Grid) (ws : list WordData.t)
    (answers : list Answer.t) :
  answersPayload g ws = Normal answers →
  Answer.word_id <$> answers = WordData.id <$> ws
  ∧ ((∀ r c cell, cellAt g r c = Some cell →
        (String.length (CellData.char cell) ≤ 1)%nat) →
     (String.length ∘ Answer.user_answer) <$> answers
     = (Z.to_nat ∘ WordData.length) <$> ws).
Proof.
  revert answers. induction ws as [|w rest IH]; intros answers.
  - by intros [= <-].
  - cbn [answersPayload].
    destruct (userAnswer_loop g w 0 _ _) as [ua|] eqn:Hua; [|done].
    destruct (answersPayload g rest) as [answers'|]; [|done].
    intros [= <-]. destruct (IH answers' eq_refl) as [Hids Hlens].
    split; [by rewrite !fmap_cons, Hids|].
    intros Hone. rewrite !fmap_cons, (Hlens Hone). f_equal. simpl.
    by rewrite (userAnswer_loop_length g w _ Hone _ _ _ Hua).
Qed.

Lemma cellAt_elem_of (g : Grid) (r c : Z) (cell : CellData.t) :
  cellAt g r c = Some cell → ∃ rowArr, rowArr ∈ g ∧ cell ∈ rowArr.
Proof.
  intros (rowArr & [_ Hrow]%arrayGet_Some & [_ Hcell]%arrayGet_Some)%cellAt_Some.
  exists rowArr. split; apply list_elem_of_lookup; eauto.
Qed.

Lemma answersPayload_shape_witness :
  Answer.word_id <$>
    [Answer.mk "w1" "H    "; Answer.mk "w2" "H  "]
    = WordData.id <$> GameData.words exampleGame
  ∧ (String.length ∘ Answer.user_answer) <$>
      [Answer.mk "w1" "H    "; Answer.mk "w2" "H  "]
    = (Z.to_nat ∘ WordData.length) <$> GameData.words exampleGame.
Proof.
  destruct (answersPayload_shape
              (grid (snd (handleInputChange upperAscii exampleState 0 0 "h")))
              (GameData.words exampleGame)
              [Answer.mk "w1" "H    "; Answer.mk "w2" "H  "] eq_refl) as [Hids Hlens].
  split; [exact Hids|]. apply Hlens.
  intros r c cell (rowArr & Hrow & Hcell)%cellAt_elem_of.
  assert (Hall : Forall (Forall (fun cell => (String.length (CellData.char cell) ≤ 1)%nat))
                   (grid (snd (handleInputChange upperAscii exampleState 0 0 "h")))).
  { vm_compute. repeat constructor. }
  rewrite Forall_forall in Hall. specialize (Hall rowArr Hrow).
  rewrite Forall_forall in Hall. by apply Hall.
Defined.

(** *** The stopwatch display *)

Lemma formatTime_clockFace_check :
  forallb (fun seconds => bool_decide (formatTime seconds = clockFace seconds))
    (seqZ 0 6000) = true.
Proof. vm_compute. reflexivity. Qed.

(** X14: for an elapsed time under 100 minutes [formatTime] shows exactly
    five characters: the two digits of the minutes, a colon, and the two
    digits of the seconds. *)
Theorem formatTime_clockFace (seconds : Z) :
  0 ≤ seconds < 6000 → formatTime seconds = clockFace seconds.
Proof.
  intros Hrange.
  pose proof formatTime_clockFace_check as Hcheck.
  rewrite forallb_forall in Hcheck.
  specialize (Hcheck seconds). rewrite bool_decide_eq_true in Hcheck.
  apply Hcheck, list_elem_of_In, elem_of_seqZ. lia.
Qed.

Lemma formatTime_clockFace_witness : formatTime 754 = "12:34"%string.
Proof. apply (formatTime_clockFace 754). lia. Defined.


End PlayCrosswordFacts.
